(** * atomic-dsp-graph: a verification development

    Shallow embedding of the real-time substrate of the audio mixer
    (ring buffer, bump arena, DSP nodes, WAV reader/writer and engine)
    together with the properties its specification states about it. *)

From Stdlib Require Import ZArith Lia List Sorting.Sorted.
From Stdlib Require Import Strings.String Strings.Byte.
From Stdlib Require Import Floats.SpecFloat.
From stdpp Require Import base list gmap strings.

Set Default Proof Using "Type".

(* ================================================================== *)
(** * Part I: the program                                              *)
(* ================================================================== *)

(** ** [LockFreeRingBuffer<T, Size>] (ring_buffer.h)

    The two atomic counters are modelled by their values: every [push]
    and every [pop] is one step of a sequential interleaving of the
    producer and the consumer.  [size_t] indices are natural numbers;
    both counters stay below [Size], so [currentWrite + 1] never
    reaches the width of [size_t]. *)
Module RingBuffer.

Record t (T : Type) : Type := mk {
  buffer : list T;      (* std::array<T, Size> buffer *)
  writePos : nat;       (* std::atomic<size_t> writePos{0} *)
  readPos : nat         (* std::atomic<size_t> readPos{0} *)
}.
Arguments mk {T} _ _ _.
Arguments buffer {T} _.
Arguments writePos {T} _.
Arguments readPos {T} _.

(** A freshly constructed queue: the slots hold whatever the array was
    initialised with, both counters are 0. *)
Definition init {T : Type} (slots : list T) : t T := mk slots 0 0.

Definition push {T : Type} (Size : nat) (item : T) (q : t T) : bool * t T :=
  let currentWrite := writePos q in
  let nextWrite := (currentWrite + 1) mod Size in
  if decide (nextWrite = readPos q) then (false, q)
  else (true, mk (<[currentWrite := item]> (buffer q)) nextWrite (readPos q)).

(** [pop(T& item)]: the caller's variable [item] is passed in and
    handed back; it is overwritten only when the pop succeeds. *)
Definition pop {T : Type} (Size : nat) (item : T) (q : t T) : bool * T * t T :=
  let currentRead := readPos q in
  if decide (currentRead = writePos q) then (false, item, q)
  else (true, default item (buffer q !! currentRead),
        mk (buffer q) (writePos q) ((currentRead + 1) mod Size)).

Definition isEmpty {T : Type} (q : t T) : bool :=
  bool_decide (readPos q = writePos q).

(** Sequential use: the producer issues [Push x], the consumer issues
    [Pop] into its own variable; a schedule is any list of such calls. *)
Inductive call (T : Type) : Type :=
  | Push (x : T)
  | Pop.
Arguments Push {T} _.
Arguments Pop {T}.

Inductive outcome (T : Type) : Type :=
  | PushReturned (x : T) (ok : bool)
  | PopReturned (ok : bool) (item : T).
Arguments PushReturned {T} _ _.
Arguments PopReturned {T} _ _.

Fixpoint run {T : Type} (Size : nat) (cs : list (call T)) (item : T) (q : t T)
  : list (outcome T) * T * t T :=
  match cs with
  | [] => ([], item, q)
  | Push x :: cs' =>
      let '(ok, q') := push Size x q in
      let '(tr, item', q'') := run Size cs' item q' in
      (PushReturned x ok :: tr, item', q'')
  | Pop :: cs' =>
      let '(ok, item', q') := pop Size item q in
      let '(tr, item'', q'') := run Size cs' item' q' in
      (PopReturned ok item' :: tr, item'', q'')
  end.

(** The values accepted by the queue, and the values handed out, in
    call order. *)
Fixpoint enqueued {T : Type} (tr : list (outcome T)) : list T :=
  match tr with
  | [] => []
  | PushReturned x true :: tr' => x :: enqueued tr'
  | _ :: tr' => enqueued tr'
  end.

Fixpoint dequeued {T : Type} (tr : list (outcome T)) : list T :=
  match tr with
  | [] => []
  | PopReturned true x :: tr' => x :: dequeued tr'
  | _ :: tr' => dequeued tr'
  end.

(** [push_all xs q]: successive pushes of [xs], with their results. *)
Fixpoint push_all {T : Type} (Size : nat) (xs : list T) (q : t T) : list bool * t T :=
  match xs with
  | [] => ([], q)
  | x :: xs' =>
      let '(ok, q') := push Size x q in
      let '(oks, q'') := push_all Size xs' q' in
      (ok :: oks, q'')
  end.

(** The queue seen as the list of the elements it holds, oldest first:
    [l] occupies the slots from [readPos] up to [writePos], cyclically. *)
Definition represents {T : Type} (Size : nat) (q : t T) (l : list T) : Prop :=
  length (buffer q) = Size /\ readPos q < Size /\ writePos q < Size /\
  writePos q = (readPos q + length l) mod Size /\ length l < Size /\
  forall k x, l !! k = Some x -> buffer q !! ((readPos q + k) mod Size) = Some x.

End RingBuffer.

(** ** [size_t] arithmetic

    [size_t] is the 64-bit unsigned type of the x86-64 targets the AVX
    code paths are written for; sums and differences wrap modulo 2^64. *)
Module SizeT.
Local Open Scope Z_scope.

Definition modulus : Z := 2 ^ 64.
Definition max : Z := modulus - 1.
Definition wrap (x : Z) : Z := x mod modulus.
Definition add (x y : Z) : Z := wrap (x + y).
Definition sub (x y : Z) : Z := wrap (x - y).
Definition in_range (x : Z) : Prop := 0 <= x < modulus.

End SizeT.

(** ** [MemoryArena] (memory_arena.h)

    The byte pool itself plays no role in the allocator's decisions: an
    arena is its capacity [buffer.size()] and its cursor [offset].  A
    returned pointer [buffer.data() + offset] is recorded by its offset
    into the pool. *)
Module MemoryArena.
Local Open Scope Z_scope.

Record t : Type := mk {
  capacity : Z;     (* buffer.size() *)
  offset : Z        (* size_t offset = 0 *)
}.

Definition create (size : Z) : t := mk size 0.

Inductive result : Type :=
  | Returned (ptr : Z) (arena : t)     (* return ptr; *)
  | BadAlloc (arena : t)              (* throw std::bad_alloc(); *)
  | Undefined.                        (* offset % 0 *)

Definition padding_of (alignment : Z) (offset : Z) : Z :=
  (SizeT.sub alignment (offset mod alignment)) mod alignment.

Definition allocate (size alignment : Z) (a : t) : result :=
  if alignment =? 0 then Undefined
  else
    let padding := padding_of alignment (offset a) in
    if SizeT.add (SizeT.add (offset a) padding) size >? capacity a then BadAlloc a
    else
      let offset1 := SizeT.add (offset a) padding in     (* offset += padding; *)
      let ptr := offset1 in                              (* buffer.data() + offset *)
      let offset2 := SizeT.add offset1 size in           (* offset += size; *)
      Returned ptr (mk (capacity a) offset2).

Definition reset (a : t) : t := mk (capacity a) 0.
Definition used (a : t) : Z := offset a.

(** A sequence of requests [(size, alignment)], stopped by the first one
    that does not return; the offsets handed out, in order. *)
Fixpoint allocate_all (reqs : list (Z * Z)) (a : t) : option (list Z * t) :=
  match reqs with
  | [] => Some ([], a)
  | (size, alignment) :: reqs' =>
      match allocate size alignment a with
      | Returned ptr a' =>
          match allocate_all reqs' a' with
          | Some (ptrs, a'') => Some (ptr :: ptrs, a'')
          | None => None
          end
      | _ => None
      end
  end.

(** The end of the last region when the requests are laid out one after
    the other from offset [o], in unbounded integers: the cumulative
    padded size of the sequence. *)
Fixpoint padded_end (reqs : list (Z * Z)) (o : Z) : Z :=
  match reqs with
  | [] => o
  | (size, alignment) :: reqs' =>
      padded_end reqs' (o + (alignment - o mod alignment) mod alignment + size)
  end.

(** Well-formed requests: both arguments are [size_t] values and the
    alignment is not zero. *)
Definition request_ok (r : Z * Z) : Prop :=
  0 <= r.1 < SizeT.modulus /\ 0 < r.2 < SizeT.modulus.

(** The arena as its constructor and [allocate] leave it. *)
Definition wf (a : t) : Prop :=
  0 <= offset a <= capacity a /\ capacity a < SizeT.modulus.

(** [emplace<T>(args...)]: the request [allocate(sizeof(T), alignof(T))];
    the object is then constructed at the address that was returned.  A
    type enters by its size and its alignment. *)
Record ctype : Type := mk_ctype { sizeof : Z; alignof : Z }.

Definition emplace (T : ctype) (a : t) : result :=
  allocate (sizeof T) (alignof T) a.

(** [n] successive [emplace<T>] calls, stopped by the first one that
    does not return. *)
Fixpoint emplace_n (n : nat) (T : ctype) (a : t) : option (list Z * t) :=
  match n with
  | O => Some ([], a)
  | S n' =>
      match emplace T a with
      | Returned ptr a' =>
          match emplace_n n' T a' with
          | Some (ptrs, a'') => Some (ptr :: ptrs, a'')
          | None => None
          end
      | _ => None
      end
  end.

(** The address behind a returned pointer, [buffer.data() + offset], in a
    pool whose storage [buffer.data()] starts at address [base]. *)
Definition address (base ptr : Z) : Z := base + ptr.

(** The most a request sequence can take from the pool: for every
    request its size and the largest padding its alignment can ask for. *)
Fixpoint worst_case (reqs : list (Z * Z)) : Z :=
  match reqs with
  | [] => 0
  | (size, alignment) :: reqs' => size + (alignment - 1) + worst_case reqs'
  end.

End MemoryArena.

(** ** [float]: IEEE 754 binary32

    Samples, gains and the fade position are C++ [float]s.  They are
    modelled by [spec_float] at precision 24 and maximal exponent 128,
    with the round-to-nearest-even operations of [SpecFloat]; every
    operation below computes. *)
Module Float32.

Definition prec : Z := 24.
Definition emax : Z := 128.

Definition float : Type := spec_float.

Definition add : float -> float -> float := SFadd prec emax.
Definition sub : float -> float -> float := SFsub prec emax.
Definition mul : float -> float -> float := SFmul prec emax.
Definition div : float -> float -> float := SFdiv prec emax.
Definition ltb : float -> float -> bool := SFltb.
Definition leb : float -> float -> bool := SFleb.
Definition eqb : float -> float -> bool := SFeqb.
Definition abs : float -> float := SFabs.

(** Conversion of an integer, as in [raw[i] / 32768.0f] or a literal. *)
Definition of_Z (z : Z) : float := binary_normalize prec emax z 0 false.

Definition zero : float := S754_zero false.
Definition one : float := of_Z 1.

(** [std::max(a, b)] is [(a < b) ? b : a], [std::min(a, b)] is
    [(b < a) ? b : a]. *)
Definition std_max (a b : float) : float := if ltb a b then b else a.
Definition std_min (a b : float) : float := if ltb b a then b else a.

(** Two results agree within [eps] when they are the same value or
    their difference is at most [eps] in magnitude. *)
Definition agree_within (eps : float) (x y : float) : Prop :=
  x = y \/ leb (abs (sub x y)) eps = true.

#[global] Instance float_inhabited : Inhabited float := populate zero.

(** The value [m * 2^e] of a finite number, scaled by [2^149] so that it
    is an integer for every exponent from the smallest one, -149, on. *)
Definition scaled (m e : Z) : Z := (m * 2 ^ (e + 149))%Z.

(** [q] is [+inf] or a finite number of value at least 1. *)
Definition ge_one (q : float) : Prop :=
  q = S754_infinity false \/
  exists m e, q = S754_finite false m e /\ (-149 <= e)%Z /\
              (2 ^ 149 <= scaled (Zpos m) e)%Z.

(** The values a [float] holds: a finite one carries the canonical
    mantissa and exponent of its format. *)
Definition valid (x : float) : bool := valid_binary prec emax x.

(** [f] is the normal number (24 significant bits) of integer value [c]. *)
Definition encodes (f : float) (c : Z) : Prop :=
  exists m e, f = S754_finite false m e /\ Zpos (digits2_pos m) = 24%Z /\
              (-23 <= e <= 1)%Z /\ (Zpos m * 2 ^ (e + 23) = c * 2 ^ 23)%Z.

End Float32.

(** ** Processing nodes (audio_nodes.h)

    An [AudioBuffer] is a non-owning view [{data, size, channels}]; it is
    modelled by the run of [size] samples it covers, so [size] is the
    length of [data].  This fits views over pairwise distinct storage,
    such as the views of its three vectors the engine hands out; views
    that may share samples are modelled over one store, in [Store]
    below. *)
Module AudioBuffer.

Record t : Type := mk {
  data : list Float32.float;
  channels : nat
}.

Definition size (b : t) : nat := length (data b).

(** [AudioBuffer(d, s)], with the default [c = 1]. *)
Definition view (samples : list Float32.float) : t := mk samples 1.

Definition with_data (b : t) (d : list Float32.float) : t := mk d (channels b).

End AudioBuffer.

(** The 8-lane AVX register and the intrinsics the nodes use. *)
Module Avx.

Abbreviation m256 := (list Float32.float).

Definition set1_ps (x : Float32.float) : m256 := replicate 8 x.
Definition loadu_ps (mem : list Float32.float) (i : nat) : m256 := take 8 (drop i mem).
Definition storeu_ps (mem : list Float32.float) (i : nat) (v : m256) : list Float32.float :=
  take i mem ++ v ++ drop (i + 8) mem.
Definition mul_ps (a b : m256) : m256 := zip_with Float32.mul a b.
Definition add_ps (a b : m256) : m256 := zip_with Float32.add a b.

(** The start indices [0, 8, 16, ...] of [for (i = 0; i < simdSize; i += 8)]. *)
Definition steps (simdSize : nat) : list nat := (fun k => 8 * k) <$> seq 0 (simdSize / 8).

End Avx.

Module GainNode.

Record t : Type := mk { gain : Float32.float }.

(** [for (size_t i = first; i < last; ++i) buffer.data[i] *= gain;] *)
Definition scalar_loop (g : Float32.float) (first last : nat)
    (data : list Float32.float) : list Float32.float :=
  foldl (fun d i => alter (fun x => Float32.mul x g) i d) data (seq first (last - first)).

(** The body compiled without [__AVX__]. *)
Definition processImpl_scalar (node : t) (buffer : AudioBuffer.t) : AudioBuffer.t :=
  AudioBuffer.with_data buffer
    (scalar_loop (gain node) 0 (AudioBuffer.size buffer) (AudioBuffer.data buffer)).

(** The body compiled with [__AVX__]. *)
Definition processImpl_avx (node : t) (buffer : AudioBuffer.t) : AudioBuffer.t :=
  let simdSize := (AudioBuffer.size buffer / 8) * 8 in
  let gainVec := Avx.set1_ps (gain node) in
  let data1 :=
    foldl (fun d i =>
             let samples := Avx.loadu_ps d i in
             let samples := Avx.mul_ps samples gainVec in
             Avx.storeu_ps d i samples)
          (AudioBuffer.data buffer) (Avx.steps simdSize) in
  AudioBuffer.with_data buffer
    (scalar_loop (gain node) simdSize (AudioBuffer.size buffer) data1).

(** [avx] tells which of the two bodies the build selected. *)
Definition processImpl (avx : bool) (node : t) (buffer : AudioBuffer.t) : AudioBuffer.t :=
  if avx then processImpl_avx node buffer else processImpl_scalar node buffer.

(** [AudioNode<GainNode>::process]: the static dispatch to [processImpl]. *)
Definition process (avx : bool) (node : t) (buffer : AudioBuffer.t) : AudioBuffer.t :=
  processImpl avx node buffer.

End GainNode.

Module FadeNode.

Record t : Type := mk {
  duration : Float32.float;
  currentSample : Float32.float;
  fadeIn : bool
}.

(** [FadeNode(durationSamples, in = true)]; [currentSample] starts at 0. *)
Definition create (durationSamples : Float32.float) (fade_in : bool) : t :=
  mk durationSamples Float32.zero fade_in.

Definition factor (node : t) : Float32.float :=
  if fadeIn node
  then Float32.std_min (Float32.div (currentSample node) (duration node)) Float32.one
  else Float32.std_max
         (Float32.sub Float32.one (Float32.div (currentSample node) (duration node)))
         Float32.zero.

(** One iteration of the loop body at index [i]. *)
Definition step (st : t * list Float32.float) (i : nat) : t * list Float32.float :=
  let '(node, data) := st in
  let f := factor node in
  (mk (duration node) (Float32.add (currentSample node) Float32.one) (fadeIn node),
   alter (fun x => Float32.mul x f) i data).

Definition processImpl (node : t) (buffer : AudioBuffer.t) : t * AudioBuffer.t :=
  let '(node', data') :=
    foldl step (node, AudioBuffer.data buffer) (seq 0 (AudioBuffer.size buffer)) in
  (node', AudioBuffer.with_data buffer data').

(** [AudioNode<FadeNode>::process]: the static dispatch to [processImpl]. *)
Definition process (node : t) (buffer : AudioBuffer.t) : t * AudioBuffer.t :=
  processImpl node buffer.

Definition reset (node : t) : t := mk (duration node) Float32.zero (fadeIn node).

(** The node after [n] samples: [currentSample++] was executed [n] times. *)
Definition advance (n : nat) (node : t) : t :=
  mk (duration node) (Nat.iter n (fun c => Float32.add c Float32.one) (currentSample node))
     (fadeIn node).

End FadeNode.

Module MixerNode.

(** [for (size_t i = first; i < last; ++i) out.data[i] = in1.data[i] + in2.data[i];] *)
Definition scalar_loop (in1 in2 : list Float32.float) (first last : nat)
    (out : list Float32.float) : list Float32.float :=
  foldl (fun o i => <[i := Float32.add (in1 !!! i) (in2 !!! i)]> o) out
        (seq first (last - first)).

Definition len (in1 in2 out : AudioBuffer.t) : nat :=
  AudioBuffer.size in1 `min` (AudioBuffer.size in2 `min` AudioBuffer.size out).

Definition mix_scalar (in1 in2 out : AudioBuffer.t) : AudioBuffer.t :=
  AudioBuffer.with_data out
    (scalar_loop (AudioBuffer.data in1) (AudioBuffer.data in2) 0 (len in1 in2 out)
       (AudioBuffer.data out)).

Definition mix_avx (in1 in2 out : AudioBuffer.t) : AudioBuffer.t :=
  let simdSize := (len in1 in2 out / 8) * 8 in
  let data1 :=
    foldl (fun o i =>
             let a := Avx.loadu_ps (AudioBuffer.data in1) i in
             let b := Avx.loadu_ps (AudioBuffer.data in2) i in
             Avx.storeu_ps o i (Avx.add_ps a b))
          (AudioBuffer.data out) (Avx.steps simdSize) in
  AudioBuffer.with_data out
    (scalar_loop (AudioBuffer.data in1) (AudioBuffer.data in2) simdSize
       (len in1 in2 out) data1).

Definition mix (avx : bool) (in1 in2 out : AudioBuffer.t) : AudioBuffer.t :=
  if avx then mix_avx in1 in2 out else mix_scalar in1 in2 out.

End MixerNode.

(** ** The nodes over one store

    [AudioBuffer::data] is a pointer, and nothing keeps two views from
    covering the same samples.  Here all samples live in one store; a
    view is the index of its first sample in the store, its size and its
    channel count, and the loops of the nodes read and write the store
    through the views.  An access outside the store, which the source
    leaves undefined, does not occur on views that lie within it. *)
Module Store.

Record view : Type := mk {
  data : nat;         (* float* data, as an index into the store *)
  size : nat;
  channels : nat
}.

(** The view lies inside the store. *)
Definition within (v : view) (mem : list Float32.float) : Prop :=
  data v + size v <= length mem.

(** The samples a view covers, and the view as a buffer of its own. *)
Definition samples (v : view) (mem : list Float32.float) : list Float32.float :=
  take (size v) (drop (data v) mem).

Definition to_buffer (v : view) (mem : list Float32.float) : AudioBuffer.t :=
  AudioBuffer.mk (samples v mem) (channels v).

(** The two views share no sample. *)
Definition disjoint (v w : view) : Prop :=
  data v + size v <= data w \/ data w + size w <= data v.

(** [for (size_t i = first; i < last; ++i) buffer.data[i] *= gain;] *)
Definition gain_scalar_loop (g : Float32.float) (buffer first last : nat)
    (mem : list Float32.float) : list Float32.float :=
  foldl (fun m i => alter (fun x => Float32.mul x g) (buffer + i) m) mem
        (seq first (last - first)).

(** [GainNode::processImpl], with or without [__AVX__]. *)
Definition gain_processImpl (avx : bool) (node : GainNode.t) (buffer : view)
    (mem : list Float32.float) : list Float32.float :=
  if avx then
    let simdSize := (size buffer / 8) * 8 in
    let gainVec := Avx.set1_ps (GainNode.gain node) in
    let mem1 :=
      foldl (fun m i =>
               let samples := Avx.loadu_ps m (data buffer + i) in
               let samples := Avx.mul_ps samples gainVec in
               Avx.storeu_ps m (data buffer + i) samples)
            mem (Avx.steps simdSize) in
    gain_scalar_loop (GainNode.gain node) (data buffer) simdSize (size buffer) mem1
  else gain_scalar_loop (GainNode.gain node) (data buffer) 0 (size buffer) mem.

(** [for (size_t i = first; i < last; ++i) out.data[i] = in1.data[i] + in2.data[i];] *)
Definition mix_scalar_loop (in1 in2 out first last : nat)
    (mem : list Float32.float) : list Float32.float :=
  foldl (fun m i => <[out + i := Float32.add (m !!! (in1 + i)) (m !!! (in2 + i))]> m) mem
        (seq first (last - first)).

Definition len (in1 in2 out : view) : nat :=
  size in1 `min` (size in2 `min` size out).

(** [MixerNode::mix], with or without [__AVX__]. *)
Definition mix (avx : bool) (in1 in2 out : view)
    (mem : list Float32.float) : list Float32.float :=
  if avx then
    let simdSize := (len in1 in2 out / 8) * 8 in
    let mem1 :=
      foldl (fun m i =>
               let a := Avx.loadu_ps m (data in1 + i) in
               let b := Avx.loadu_ps m (data in2 + i) in
               Avx.storeu_ps m (data out + i) (Avx.add_ps a b))
            mem (Avx.steps simdSize) in
    mix_scalar_loop (data in1) (data in2) (data out) simdSize (len in1 in2 out) mem1
  else mix_scalar_loop (data in1) (data in2) (data out) 0 (len in1 in2 out) mem.

(** Cell [c] of the store once the samples [0, n) of a buffer at [base]
    have been multiplied by [g], and once the sums of the samples [0, n)
    of the buffers at [in1] and [in2] have been stored from [out] on;
    [mem0] is the store before. *)
Definition gained (mem0 : list Float32.float) (g : Float32.float) (base n c : nat)
  : option Float32.float :=
  if decide (base <= c < base + n) then (fun x => Float32.mul x g) <$> mem0 !! c
  else mem0 !! c.

Definition mixed (mem0 : list Float32.float) (in1 in2 out n c : nat)
  : option Float32.float :=
  if decide (out <= c < out + n)
  then Some (Float32.add (mem0 !!! (in1 + (c - out))) (mem0 !!! (in2 + (c - out))))
  else mem0 !! c.

End Store.

(** ** Outcomes of code that may leave defined behaviour *)
Module Outcome.

Inductive fault : Type :=
  | DivisionByZero          (* integer division by zero *)
  | IndeterminateRead       (* a field of an uninitialised object is read *)
  | BufferOverrun           (* a write past the end of a buffer *)
  | ConversionOutOfRange.   (* float to integer conversion that does not fit *)

Inductive t (A : Type) : Type :=
  | Ok (a : A)
  | Fault (f : fault).
Arguments Ok {A} _.
Arguments Fault {A} _.

Definition bind {A B : Type} (x : t A) (k : A -> t B) : t B :=
  match x with
  | Ok a => k a
  | Fault f => Fault f
  end.

Fixpoint mapM {A B : Type} (k : A -> t B) (l : list A) : t (list B) :=
  match l with
  | [] => Ok []
  | a :: l' => bind (k a) (fun b => bind (mapM k l') (fun bs => Ok (b :: bs)))
  end.

End Outcome.

(** ** Files

    A file is its sequence of bytes.  The file system maps the paths
    that can be opened for reading to their contents, and tells which
    paths can be opened for writing. *)
Module FileSystem.

Record t : Type := mk {
  files : gmap string (list byte);
  can_create : string -> bool
}.

Definition write_file (fs : t) (path : string) (content : list byte) : t :=
  mk (<[path := content]> (files fs)) (can_create fs).

End FileSystem.

(** ** Little-endian integers (the byte order of the x86 targets) *)
Module LittleEndian.
Local Open Scope Z_scope.

Definition byte_to_Z (b : byte) : Z := Z.of_N (Byte.to_N b).
Definition byte_of_Z (z : Z) : byte := default x00 (Byte.of_N (Z.to_N (z mod 256))).

Definition decode (bs : list byte) : Z :=
  foldr (fun b acc => byte_to_Z b + 256 * acc) 0 bs.

Fixpoint encode (n : nat) (v : Z) : list byte :=
  match n with
  | O => []
  | S n' => byte_of_Z v :: encode n' (v / 256)
  end.

(** The bytes [off, off + n) of [bs]. *)
Definition slice (off n : nat) (bs : list byte) : list byte := take n (drop off bs).

(** Two's complement reading of a 16-bit value. *)
Definition to_int16 (u : Z) : Z := if u <? 32768 then u else u - 65536.

End LittleEndian.

(** ** [WavHeader] and [WavReader] (wav_io.h)

    [WavHeader] has no padding: its thirteen fields occupy 44 bytes, and
    [file.read((char* )&h, sizeof(h))] overlays the first 44 bytes of the
    file on them. *)
Module WavHeader.
Local Open Scope Z_scope.

Record t : Type := mk {
  riff : list byte;          (* char riff[4]            offset  0 *)
  fileSize : Z;              (* uint32_t fileSize       offset  4 *)
  wave : list byte;          (* char wave[4]            offset  8 *)
  fmt : list byte;           (* char fmt[4]             offset 12 *)
  fmtSize : Z;               (* uint32_t fmtSize        offset 16 *)
  audioFormat : Z;           (* uint16_t audioFormat    offset 20 *)
  numChannels : Z;           (* uint16_t numChannels    offset 22 *)
  sampleRate : Z;            (* uint32_t sampleRate     offset 24 *)
  byteRate : Z;              (* uint32_t byteRate       offset 28 *)
  blockAlign : Z;            (* uint16_t blockAlign     offset 32 *)
  bitsPerSample : Z;         (* uint16_t bitsPerSample  offset 34 *)
  data : list byte;          (* char data[4]            offset 36 *)
  dataSize : Z               (* uint32_t dataSize       offset 40 *)
}.

Definition sizeof : nat := 44.

Definition of_bytes (bs : list byte) : t :=
  let u n off := LittleEndian.decode (LittleEndian.slice off n bs) in
  mk (LittleEndian.slice 0 4 bs) (u 4 4)%nat (LittleEndian.slice 8 4 bs)
     (LittleEndian.slice 12 4 bs) (u 4 16)%nat (u 2 20)%nat (u 2 22)%nat
     (u 4 24)%nat (u 4 28)%nat (u 2 32)%nat (u 2 34)%nat
     (LittleEndian.slice 36 4 bs) (u 4 40)%nat.

Definition to_bytes (h : t) : list byte :=
  riff h ++ LittleEndian.encode 4 (fileSize h) ++ wave h ++ fmt h ++
  LittleEndian.encode 4 (fmtSize h) ++ LittleEndian.encode 2 (audioFormat h) ++
  LittleEndian.encode 2 (numChannels h) ++ LittleEndian.encode 4 (sampleRate h) ++
  LittleEndian.encode 4 (byteRate h) ++ LittleEndian.encode 2 (blockAlign h) ++
  LittleEndian.encode 2 (bitsPerSample h) ++ data h ++
  LittleEndian.encode 4 (dataSize h).

(** The headers whose fields fit the types of the struct. *)
Definition representable (h : t) : Prop :=
  length (riff h) = 4%nat /\ length (wave h) = 4%nat /\
  length (fmt h) = 4%nat /\ length (data h) = 4%nat /\
  0 <= fileSize h < 2 ^ 32 /\ 0 <= fmtSize h < 2 ^ 32 /\
  0 <= audioFormat h < 2 ^ 16 /\ 0 <= numChannels h < 2 ^ 16 /\
  0 <= sampleRate h < 2 ^ 32 /\ 0 <= byteRate h < 2 ^ 32 /\
  0 <= blockAlign h < 2 ^ 16 /\ 0 <= bitsPerSample h < 2 ^ 16 /\
  0 <= dataSize h < 2 ^ 32.

Definition tag_RIFF : list byte := [x52; x49; x46; x46].
Definition tag_WAVE : list byte := [x57; x41; x56; x45].
Definition tag_fmt : list byte := [x66; x6d; x74; x20].
Definition tag_data : list byte := [x64; x61; x74; x61].

End WavHeader.

Module WavReader.
Local Open Scope Z_scope.
Import Outcome.

(** [std::vector<float>::resize(count)]: keeps the first [count]
    elements and fills up with [0.0f]. *)
Definition resize (count : nat) (v : list Float32.float) : list Float32.float :=
  take count v ++ replicate (count - length v) Float32.zero.

(** The out-parameters [samples], [sr] and [ch] of [read]. *)
Record outputs : Type := mk_outputs {
  samples : list Float32.float;
  sr : Z;
  ch : Z
}.

(** [raw[i] / 32768.0f] *)
Definition sample_of_int16 (r : Z) : Float32.float :=
  Float32.div (Float32.of_Z r) (Float32.of_Z 32768).

(** The [count] 16-bit values of [raw] after
    [file.read((char* )raw.data(), h.dataSize)]: the bytes that were read,
    over a zero-initialised vector. *)
Definition raw_values (count : nat) (got : list byte) : list Z :=
  let bytes := got ++ replicate (2 * count - length got) x00 in
  (fun i => LittleEndian.to_int16
              (LittleEndian.decode (LittleEndian.slice (2 * i) 2 bytes)))
    <$> seq 0 count.

(** [strncmp(got, expected, n) == 0] over the bytes of [h.riff] that the
    file provided; it has no answer when the comparison reaches a byte
    the file did not provide. *)
Fixpoint tag_equal (got expected : list byte) : option bool :=
  match expected, got with
  | [], _ => Some true
  | _ :: _, [] => None
  | e :: expected', g :: got' =>
      if Byte.eqb g e then tag_equal got' expected' else Some false
  end.

Definition read (fs : FileSystem.t) (filename : string) (out : outputs)
  : Outcome.t (bool * outputs) :=
  match FileSystem.files fs !! filename with
  | None => Ok (false, out)                               (* if (!file) return false; *)
  | Some content =>
      let got := take WavHeader.sizeof content in         (* file.read(&h, sizeof(h)) *)
      let h := WavHeader.of_bytes got in
      match tag_equal (WavHeader.riff h) WavHeader.tag_RIFF with
      | None => Fault IndeterminateRead
      | Some false => Ok (false, out)       (* strncmp(h.riff, "RIFF", 4) != 0 *)
      | Some true =>
      if bool_decide (length got < WavHeader.sizeof)%nat
      then Fault IndeterminateRead
      else
        let sr' := WavHeader.sampleRate h in               (* sr = h.sampleRate; *)
        let ch' := WavHeader.numChannels h in              (* ch = h.numChannels; *)
        let bytesPerSample := WavHeader.bitsPerSample h / 8 in
        if bytesPerSample =? 0 then Fault DivisionByZero
        else
          let count := Z.to_nat (WavHeader.dataSize h / bytesPerSample) in
          let samples1 := resize count (samples out) in    (* samples.resize(count); *)
          if WavHeader.bitsPerSample h =? 16 then
            let rest := drop WavHeader.sizeof content in
            let got_data := take (Z.to_nat (WavHeader.dataSize h)) rest in
            if bool_decide (2 * count < length got_data)%nat
            then Fault BufferOverrun
            else
              Ok (true, mk_outputs (sample_of_int16 <$> raw_values count got_data) sr' ch')
          else Ok (true, mk_outputs samples1 sr' ch')
      end
  end.

(** [static_cast<int16_t>(x)]: truncation toward zero, defined only when
    the result fits. *)
Definition truncate (x : Float32.float) : option Z :=
  match x with
  | S754_zero _ => Some 0
  | S754_finite s m e =>
      let mag := if 0 <=? e then Zpos m * 2 ^ e else Zpos m / 2 ^ (- e) in
      Some (if s then - mag else mag)
  | _ => None
  end.

Definition to_int16 (x : Float32.float) : Outcome.t Z :=
  match truncate x with
  | Some z => if (-32768 <=? z) && (z <=? 32767) then Ok z else Fault ConversionOutOfRange
  | None => Fault ConversionOutOfRange
  end.

(** The header [write] fills in. *)
Definition header_for (n_samples : nat) (sr ch : Z) : WavHeader.t :=
  let blockAlign := (ch * 2) mod 2 ^ 16 in
  let dataSize := (SizeT.wrap (Z.of_nat n_samples * 2)) mod 2 ^ 32 in
  WavHeader.mk WavHeader.tag_RIFF ((36 + dataSize) mod 2 ^ 32) WavHeader.tag_WAVE
    WavHeader.tag_fmt 16 1 ch sr ((sr * blockAlign) mod 2 ^ 32) blockAlign 16
    WavHeader.tag_data dataSize.

Definition write (fs : FileSystem.t) (filename : string)
    (samples : list Float32.float) (sr ch : Z) : Outcome.t (bool * FileSystem.t) :=
  if negb (FileSystem.can_create fs filename) then Ok (false, fs)
  else
    let h := header_for (length samples) sr ch in
    bind (mapM (fun s => to_int16 (Float32.mul s (Float32.of_Z 32767))) samples)
      (fun vs =>
         Ok (true, FileSystem.write_file fs filename
                     (WavHeader.to_bytes h ++ concat (LittleEndian.encode 2 <$> vs)))).

End WavReader.

(** ** [AudioEngine] (main.cpp) *)
Module AudioEngine.
Import Outcome.

Record t : Type := mk {
  arena : MemoryArena.t;
  buffer1 : list Float32.float;
  buffer2 : list Float32.float;
  outputBuffer : list Float32.float;
  sampleRate : Z;        (* uint32_t sampleRate = 44100 *)
  channels : Z           (* uint16_t channels = 2 *)
}.

Definition create (arenaSize : Z) : t :=
  mk (MemoryArena.create arenaSize) [] [] [] 44100 2.

Definition loadFiles (fs : FileSystem.t) (f1 f2 : string) (e : t) : Outcome.t (bool * t) :=
  bind (WavReader.read fs f1 (WavReader.mk_outputs (buffer1 e) (sampleRate e) (channels e)))
    (fun '(ok1, o1) =>
       let e1 := mk (arena e) (WavReader.samples o1) (buffer2 e) (outputBuffer e)
                    (WavReader.sr o1) (WavReader.ch o1) in
       if negb ok1 then Ok (false, e1)
       else
         bind (WavReader.read fs f2
                 (WavReader.mk_outputs (buffer2 e1) (sampleRate e1) (channels e1)))
           (fun '(ok2, o2) =>
              let e2 := mk (arena e1) (buffer1 e1) (WavReader.samples o2) (outputBuffer e1)
                           (WavReader.sr o2) (WavReader.ch o2) in
              if negb ok2 then Ok (false, e2)
              else
                Ok (true,
                    mk (arena e2) (buffer1 e2) (buffer2 e2)
                       (WavReader.resize (length (buffer1 e2) `max` length (buffer2 e2))
                          (outputBuffer e2))
                       (sampleRate e2) (channels e2)))).

(** [avx] tells which bodies of the nodes the build selected. *)
Definition process (avx : bool) (g1 g2 : Float32.float) (e : t) : t :=
  let gainNode1 := GainNode.mk g1 in
  let gainNode2 := GainNode.mk g2 in
  let b1 := AudioBuffer.view (buffer1 e) in
  let b2 := AudioBuffer.view (buffer2 e) in
  let out := AudioBuffer.view (outputBuffer e) in
  let b1 := GainNode.process avx gainNode1 b1 in        (* gainNode1.process(b1); *)
  let b2 := GainNode.process avx gainNode2 b2 in        (* gainNode2.process(b2); *)
  let out := MixerNode.mix avx b1 b2 out in             (* mixer.mix(b1, b2, out); *)
  mk (arena e) (AudioBuffer.data b1) (AudioBuffer.data b2) (AudioBuffer.data out)
     (sampleRate e) (channels e).

Definition save (fs : FileSystem.t) (out : string) (e : t) : Outcome.t (bool * FileSystem.t) :=
  WavReader.write fs out (outputBuffer e) (sampleRate e) (channels e).

End AudioEngine.

(** ** [main] (main.cpp)

    [argv] holds the [argc] arguments, the program name first.  The
    result is the exit status and the file system [main] leaves; what it
    prints is not modelled. *)
Module Main.
Import Outcome.

(** The [float] literals [0.8f] and [0.6f]. *)
Definition gain1 : Float32.float := Float32.div (Float32.of_Z 8) (Float32.of_Z 10).
Definition gain2 : Float32.float := Float32.div (Float32.of_Z 6) (Float32.of_Z 10).

Definition main (avx : bool) (fs : FileSystem.t) (argv : list string)
  : Outcome.t (Z * FileSystem.t) :=
  match argv with
  | _ :: in1 :: in2 :: out :: _ =>
      let engine := AudioEngine.create (1024 * 1024 * 10) in     (* 10MB Arena *)
      bind (AudioEngine.loadFiles fs in1 in2 engine)
        (fun '(loaded, engine) =>
           if negb loaded then Ok (1%Z, fs)                       (* return 1; *)
           else
             let engine := AudioEngine.process avx gain1 gain2 engine in
             bind (AudioEngine.save fs out engine)
               (fun '(_, fs') => Ok (0%Z, fs')))                  (* return 0; *)
  | _ => Ok (1%Z, fs)                                             (* argc < 4 *)
  end.

End Main.

(** ** Sample inputs used by the instances below *)
Module Fixtures.
Local Open Scope Z_scope.

Definition header (sr ch bits dataSize : Z) : list byte :=
  WavHeader.to_bytes
    (WavHeader.mk WavHeader.tag_RIFF (36 + dataSize) WavHeader.tag_WAVE WavHeader.tag_fmt
       16 1 ch sr (sr * ch * (bits / 8)) (ch * (bits / 8)) bits WavHeader.tag_data dataSize).

(** 48 kHz mono, 16 bit, two samples: 0.5 and -0.5. *)
Definition wav_a : list byte := header 48000 1 16 4 ++ [x00; x40; x00; xc0].
(** 22.05 kHz stereo, 16 bit, one sample: 0.25. *)
Definition wav_b : list byte := header 22050 2 16 2 ++ [x00; x20].
(** A RIFF header announcing 8-bit samples. *)
Definition wav_8bit : list byte := header 48000 1 8 2 ++ [x80; x80].
(** A RIFF header announcing 0-bit samples. *)
Definition wav_0bit : list byte := header 48000 1 0 2 ++ [x80; x80].
(** A file that does not start with the RIFF tag. *)
Definition not_wav : list byte := replicate 64 x2e.
(** 44.1 kHz mono, 16 bit, one sample at full scale: 32767. *)
Definition wav_loud : list byte := header 44100 1 16 2 ++ [xff; x7f].

Definition disk : FileSystem.t :=
  FileSystem.mk
    (<["a.wav"%string := wav_a]> (<["b.wav"%string := wav_b]>
       (<["eight.wav"%string := wav_8bit]> (<["zero.wav"%string := wav_0bit]>
          (<["notes.txt"%string := not_wav]> ∅)))))
    (fun _ => true).

Definition half : Float32.float := Float32.div Float32.one (Float32.of_Z 2).
Definition quarter : Float32.float := Float32.div Float32.one (Float32.of_Z 4).
Definition neg_half : Float32.float := Float32.div (Float32.of_Z (-1)) (Float32.of_Z 2).
(** The [float] literal [n / 10], as in [0.1f]. *)
Definition tenths (n : Z) : Float32.float := Float32.div (Float32.of_Z n) (Float32.of_Z 10).
Definition three_quarters : Float32.float := Float32.div (Float32.of_Z 3) (Float32.of_Z 4).

End Fixtures.

(* ================================================================== *)
(** * Part II: properties                                              *)
(* ================================================================== *)

(* ------------------------------------------------------------------ *)
(** ** LockFreeRingBuffer                                              *)

Section RingBufferFacts.
Context {T : Type}.
Variable Size : nat.
Hypothesis Size_pos : 0 < Size.

Import RingBuffer.

Lemma mod_lt2 (a : nat) :
  a < 2 * Size -> a mod Size = if decide (a < Size) then a else a - Size.
Proof using Size_pos.
  intros Ha. destruct (decide (a < Size)) as [Hlt|Hge].
  - apply Nat.mod_small; lia.
  - replace a with ((a - Size) + 1 * Size) at 1 by lia.
    rewrite Nat.Div0.mod_add. apply Nat.mod_small. lia.
Qed.

Lemma represents_init (slots : list T) :
  length slots = Size -> represents Size (init slots) [].
Proof using Size_pos.
  intros Hlen. unfold represents, init; cbn.
  repeat split; try lia.
  - rewrite Nat.mod_small; lia.
  - intros k x Hk. rewrite lookup_nil in Hk. discriminate.
Qed.

(** A push on a queue holding fewer than [Size - 1] elements stores the
    item behind the others. *)
Lemma push_accepts (q : t T) (l : list T) (x : T) :
  represents Size q l -> length l + 1 < Size ->
  exists q', push Size x q = (true, q') /\ represents Size q' (l ++ [x]).
Proof using Size_pos.
  intros (Hbuf & Hr & Hw & Hwr & Hlen & Hslots) Hroom.
  unfold push. cbn zeta.
  assert (Hnext : (writePos q + 1) mod Size = (readPos q + length l + 1) mod Size).
  { rewrite Hwr. rewrite (mod_lt2 (readPos q + length l)) by lia.
    destruct (decide (readPos q + length l < Size)); [reflexivity|].
    rewrite !mod_lt2 by lia.
    repeat destruct (decide _); lia. }
  destruct (decide ((writePos q + 1) mod Size = readPos q)) as [Hfull|Hfree].
  { exfalso. rewrite Hnext, mod_lt2 in Hfull by lia.
    destruct (decide _); lia. }
  eexists; split; [reflexivity|].
  unfold represents; cbn.
  rewrite length_insert, length_app; cbn.
  repeat split; try lia.
  - apply Nat.mod_upper_bound; lia.
  - rewrite Hnext. f_equal. lia.
  - intros k y Hk.
    destruct (decide (k < length l)) as [Hlt|Hge].
    + rewrite lookup_app_l in Hk by lia.
      rewrite list_lookup_insert_ne; [auto|].
      rewrite Hwr. rewrite !mod_lt2 by lia.
      repeat destruct (decide _); lia.
    + assert (k = length l) as ->.
      { apply lookup_lt_Some in Hk. rewrite length_app in Hk; cbn in Hk. lia. }
      rewrite lookup_app_r, Nat.sub_diag in Hk by lia. cbn in Hk.
      injection Hk as <-.
      rewrite <- Hwr. apply list_lookup_insert_eq. lia.
Qed.

(** A push on a queue holding [Size - 1] elements is refused and the
    queue is returned as it was. *)
Lemma push_refuses (q : t T) (l : list T) (x : T) :
  represents Size q l -> length l + 1 = Size -> push Size x q = (false, q).
Proof using Size_pos.
  intros (Hbuf & Hr & Hw & Hwr & Hlen & Hslots) Hfull.
  unfold push. cbn zeta.
  destruct (decide ((writePos q + 1) mod Size = readPos q)) as [|Hne]; [reflexivity|].
  exfalso. apply Hne. rewrite Hwr.
  rewrite (mod_lt2 (readPos q + length l)) by lia.
  destruct (decide _); rewrite mod_lt2 by lia; destruct (decide _); lia.
Qed.

Lemma pop_empty (q : t T) (item : T) :
  readPos q = writePos q -> pop Size item q = (false, item, q).
Proof.
  intros Heq. unfold pop. cbn zeta.
  destruct (decide (readPos q = writePos q)); [reflexivity|contradiction].
Qed.

Lemma represents_nil_empty (q : t T) :
  represents Size q [] -> readPos q = writePos q.
Proof using Size_pos.
  intros (_ & Hr & _ & Hwr & _). cbn in Hwr.
  rewrite Hwr, Nat.add_0_r, Nat.mod_small; lia.
Qed.

(** A pop on a non-empty queue hands out the oldest element. *)
Lemma pop_takes_oldest (q : t T) (y : T) (l : list T) (item : T) :
  represents Size q (y :: l) ->
  exists q', pop Size item q = (true, y, q') /\ represents Size q' l.
Proof using Size_pos.
  intros (Hbuf & Hr & Hw & Hwr & Hlen & Hslots). cbn in Hlen, Hwr.
  unfold pop. cbn zeta.
  destruct (decide (readPos q = writePos q)) as [Hempty|_].
  { exfalso. rewrite Hwr, mod_lt2 in Hempty by lia. destruct (decide _); lia. }
  pose proof (Hslots 0 y eq_refl) as H0.
  rewrite Nat.add_0_r, Nat.mod_small in H0 by lia.
  rewrite H0. cbn.
  eexists; split; [reflexivity|].
  unfold represents; cbn.
  repeat split; try lia.
  - apply Nat.mod_upper_bound; lia.
  - rewrite Hwr. rewrite (mod_lt2 (readPos q + 1)) by lia.
    destruct (decide _); rewrite !mod_lt2 by lia; repeat destruct (decide _); lia.
  - intros k x Hk. pose proof (lookup_lt_Some _ _ _ Hk) as Hklt.
    rewrite <- (Hslots (S k) x Hk).
    f_equal. rewrite (mod_lt2 (readPos q + 1)) by lia.
    destruct (decide _); [f_equal; lia|].
    rewrite !mod_lt2 by lia. repeat destruct (decide _); lia.
Qed.


(** Along any schedule the queue keeps representing a list, and what was
    accepted so far is what was handed out followed by what is held. *)
Lemma run_represents (cs : list (call T)) : forall (item : T) (q : t T) (l : list T),
  represents Size q l ->
  exists l', represents Size (run Size cs item q).2 l' /\
             l ++ enqueued (run Size cs item q).1.1 =
             dequeued (run Size cs item q).1.1 ++ l'.
Proof using Size_pos.
  induction cs as [|[x|] cs IH]; intros item q l Hq; cbn.
  - exists l. now rewrite app_nil_r.
  - destruct (decide (length l + 1 < Size)) as [Hroom|Hfull].
    + destruct (push_accepts q l x Hq Hroom) as (q1 & Hpush & Hq1).
      rewrite Hpush.
      destruct (IH item q1 _ Hq1) as (l' & Hl' & Heq).
      destruct (run Size cs item q1) as [[tr it] q2]; cbn in *.
      exists l'. split; [assumption|].
      rewrite <- Heq, <- app_assoc. reflexivity.
    + rewrite (push_refuses q l x Hq).
      2:{ destruct Hq as (_ & _ & _ & _ & Hlen & _). lia. }
      destruct (IH item q _ Hq) as (l' & Hl' & Heq).
      destruct (run Size cs item q) as [[tr it] q2]; cbn in *.
      exists l'. auto.
  - destruct l as [|y l].
    + rewrite (pop_empty q item (represents_nil_empty q Hq)).
      destruct (IH item q _ Hq) as (l' & Hl' & Heq).
      destruct (run Size cs item q) as [[tr it] q2]; cbn in *.
      exists l'. auto.
    + destruct (pop_takes_oldest q y l item Hq) as (q1 & Hpop & Hq1).
      rewrite Hpop.
      destruct (IH y q1 _ Hq1) as (l' & Hl' & Heq).
      destruct (run Size cs y q1) as [[tr it] q2]; cbn in *.
      exists l'. split; [assumption|]. now rewrite Heq.
Qed.



(** The two counters coincide exactly when the queue holds nothing. *)
Lemma represents_empty_iff (q : t T) (l : list T) :
  represents Size q l -> (readPos q = writePos q <-> l = []).
Proof using Size_pos.
  intros (Hbuf & Hr & Hw & Hwr & Hlen & Hslots). split.
  - intros Heq. rewrite Hwr, mod_lt2 in Heq by lia.
    destruct l as [|y l]; [reflexivity|]. cbn in Heq, Hlen.
    destruct (decide _); lia.
  - intros ->. cbn in Hwr. rewrite Hwr, Nat.add_0_r, Nat.mod_small; lia.
Qed.

(** As many pops as there are elements hand them all out, oldest first,
    and leave the queue empty. *)
Lemma drain_represents (l : list T) : forall (q : t T) (item : T),
  represents Size q l ->
  dequeued (run Size (replicate (length l) Pop) item q).1.1 = l /\
  represents Size (run Size (replicate (length l) Pop) item q).2 [].
Proof using Size_pos.
  induction l as [|y l IH]; intros q item Hq; cbn.
  - split; [reflexivity|assumption].
  - destruct (pop_takes_oldest q y l item Hq) as (q1 & Hpop & Hq1).
    rewrite Hpop. destruct (IH q1 y Hq1) as [Hd Hr].
    destruct (run Size (replicate (length l) Pop) y q1) as [[tr it] q2]; cbn in *.
    split; [f_equal; exact Hd|exact Hr].
Qed.

(** What is held is what was accepted and not yet handed out. *)
Lemma held_length (enq deq l : list T) :
  enq = deq ++ l -> length l = length enq - length deq.
Proof. intros ->. rewrite length_app. clear Size_pos. lia. Qed.

(** X6. [isEmpty] tells whether everything that was accepted has been
    handed out: after any schedule on a fresh queue it returns [true]
    exactly when the dequeued elements are all the enqueued ones, and a
    pop succeeds exactly when [isEmpty] returns [false]. *)
Theorem ring_buffer_isEmpty_spec (slots : list T) (cs : list (RingBuffer.call T))
    (item0 : T) :
  length slots = Size ->
  let r := RingBuffer.run Size cs item0 (RingBuffer.init slots) in
  (RingBuffer.isEmpty r.2 = true
     <-> RingBuffer.dequeued r.1.1 = RingBuffer.enqueued r.1.1) /\
  (forall item : T,
     (RingBuffer.pop Size item r.2).1.1 = negb (RingBuffer.isEmpty r.2)).
Proof using Size_pos.
  intros Hslots r.
  destruct (run_represents cs item0 _ [] (represents_init slots Hslots)) as (l & Hl & Heq).
  fold r in Hl, Heq. cbn [app] in Heq.
  pose proof (represents_empty_iff _ _ Hl) as Hiff.
  split.
  - unfold isEmpty. rewrite bool_decide_eq_true, Hiff, Heq. split.
    + intros ->. now rewrite app_nil_r.
    + intros Hd. apply (app_inv_head (dequeued r.1.1)). now rewrite app_nil_r.
  - intros item. unfold pop, isEmpty. cbn zeta.
    destruct (decide (readPos r.2 = writePos r.2)) as [He|Hne].
    + now rewrite bool_decide_eq_true_2.
    + now rewrite bool_decide_eq_false_2.
Qed.

(** X7. Along any schedule on a fresh queue the counters stay below
    [Size] and the array keeps its [Size] slots, so that [buffer[...]] is
    always indexed inside the array; the number of elements held (accepted
    and not yet handed out) is below [Size], and [writePos] is [readPos]
    advanced by that number, modulo [Size]. *)
Theorem ring_buffer_indices_in_bounds (slots : list T) (cs : list (RingBuffer.call T))
    (item0 : T) :
  length slots = Size ->
  let r := RingBuffer.run Size cs item0 (RingBuffer.init slots) in
  let held := length (RingBuffer.enqueued r.1.1) - length (RingBuffer.dequeued r.1.1) in
  length (RingBuffer.buffer r.2) = Size /\
  RingBuffer.readPos r.2 < Size /\ RingBuffer.writePos r.2 < Size /\
  length (RingBuffer.dequeued r.1.1) <= length (RingBuffer.enqueued r.1.1) /\
  held < Size /\
  RingBuffer.writePos r.2 = (RingBuffer.readPos r.2 + held) mod Size.
Proof using Size_pos.
  intros Hslots r held.
  destruct (run_represents cs item0 _ [] (represents_init slots Hslots)) as (l & Hl & Heq).
  fold r in Hl, Heq. cbn [app] in Heq.
  pose proof (held_length _ _ _ Heq) as Hheld. fold held in Hheld.
  destruct Hl as (Hbuf & Hr & Hw & Hwr & Hlen & _).
  rewrite Hheld in Hwr, Hlen.
  repeat split; try assumption.
  rewrite Heq, length_app. lia.
Qed.

(** X8. Nothing that was accepted is lost or duplicated: after any
    schedule on a fresh queue, popping once per element still held hands
    out, in order, exactly the accepted elements that had not been handed
    out yet, and leaves the queue empty. *)
Theorem ring_buffer_drain (slots : list T) (cs : list (RingBuffer.call T)) (item0 : T) :
  length slots = Size ->
  let r := RingBuffer.run Size cs item0 (RingBuffer.init slots) in
  let held := length (RingBuffer.enqueued r.1.1) - length (RingBuffer.dequeued r.1.1) in
  let r' := RingBuffer.run Size (replicate held RingBuffer.Pop) r.1.2 r.2 in
  RingBuffer.dequeued r.1.1 ++ RingBuffer.dequeued r'.1.1 = RingBuffer.enqueued r.1.1 /\
  RingBuffer.isEmpty r'.2 = true.
Proof using Size_pos.
  intros Hslots r held r'.
  destruct (run_represents cs item0 _ [] (represents_init slots Hslots)) as (l & Hl & Heq).
  fold r in Hl, Heq. cbn [app] in Heq.
  pose proof (held_length _ _ _ Heq) as Hheld. fold held in Hheld.
  destruct (drain_represents l r.2 r.1.2 Hl) as [Hd Hempty].
  rewrite Hheld in Hd, Hempty. fold r' in Hd, Hempty.
  split.
  - rewrite Hd. symmetry. exact Heq.
  - unfold isEmpty. apply bool_decide_eq_true_2.
    apply (represents_empty_iff _ _ Hempty). reflexivity.
Qed.

End RingBufferFacts.


(** Instance of X6: one element pushed and popped again. *)
Lemma ring_buffer_isEmpty_spec_witness :
  0 < 4 /\ length [0%Z; 0%Z; 0%Z; 0%Z] = 4 /\
  (RingBuffer.isEmpty
     (RingBuffer.run 4 [RingBuffer.Push 1%Z; RingBuffer.Pop] 0%Z
        (RingBuffer.init [0%Z; 0%Z; 0%Z; 0%Z])).2 = true
   <-> [1%Z] = [1%Z]).
Proof.
  split; [lia|]. split; [reflexivity|].
  exact (proj1 (ring_buffer_isEmpty_spec 4 ltac:(lia) [0%Z; 0%Z; 0%Z; 0%Z]
                  [RingBuffer.Push 1%Z; RingBuffer.Pop] 0%Z eq_refl)).
Defined.

(** Instance of X7: five pushes into four slots, then one pop. *)
Lemma ring_buffer_indices_in_bounds_witness :
  0 < 4 /\ length [0%Z; 0%Z; 0%Z; 0%Z] = 4 /\
  let r := RingBuffer.run 4
             ((RingBuffer.Push <$> [1%Z; 2%Z; 3%Z; 4%Z; 5%Z]) ++ [RingBuffer.Pop]) 0%Z
             (RingBuffer.init [0%Z; 0%Z; 0%Z; 0%Z]) in
  RingBuffer.readPos r.2 < 4 /\ RingBuffer.writePos r.2 < 4.
Proof.
  split; [lia|]. split; [reflexivity|].
  destruct (ring_buffer_indices_in_bounds 4 ltac:(lia) [0%Z; 0%Z; 0%Z; 0%Z]
              ((RingBuffer.Push <$> [1%Z; 2%Z; 3%Z; 4%Z; 5%Z]) ++ [RingBuffer.Pop]) 0%Z
              eq_refl) as (_ & Hr & Hw & _).
  split; assumption.
Defined.

(** Instance of X8: of three accepted elements one was popped; two more
    pops hand out the other two. *)
Lemma ring_buffer_drain_witness :
  0 < 4 /\ length [0%Z; 0%Z; 0%Z; 0%Z] = 4 /\
  let r := RingBuffer.run 4
             ((RingBuffer.Push <$> [1%Z; 2%Z; 3%Z]) ++ [RingBuffer.Pop]) 0%Z
             (RingBuffer.init [0%Z; 0%Z; 0%Z; 0%Z]) in
  let r' := RingBuffer.run 4 (replicate 2 RingBuffer.Pop) r.1.2 r.2 in
  RingBuffer.dequeued r.1.1 ++ RingBuffer.dequeued r'.1.1 = [1%Z; 2%Z; 3%Z].
Proof.
  split; [lia|]. split; [reflexivity|].
  exact (proj1 (ring_buffer_drain 4 ltac:(lia) [0%Z; 0%Z; 0%Z; 0%Z]
                  ((RingBuffer.Push <$> [1%Z; 2%Z; 3%Z]) ++ [RingBuffer.Pop]) 0%Z eq_refl)).
Defined.

(* ------------------------------------------------------------------ *)
(** ** MemoryArena                                                     *)

Section MemoryArenaFacts.
Import MemoryArena.
Local Open Scope Z_scope.

Lemma wrap_small (x : Z) : 0 <= x < SizeT.modulus -> SizeT.wrap x = x.
Proof. intros Hx. unfold SizeT.wrap. apply Z.mod_small. exact Hx. Qed.

Lemma modulus_pos : 0 < SizeT.modulus.
Proof. reflexivity. Qed.

(** The padding as the specification writes it, when the alignment is a
    positive [size_t]. *)
Lemma padding_of_spec (alignment o : Z) :
  0 < alignment < SizeT.modulus -> 0 <= o ->
  padding_of alignment o = (alignment - o mod alignment) mod alignment /\
  0 <= padding_of alignment o < alignment /\
  (o + padding_of alignment o) mod alignment = 0.
Proof.
  intros Hal Ho. unfold padding_of, SizeT.sub.
  pose proof (Z.mod_pos_bound o alignment ltac:(lia)) as Hm.
  rewrite wrap_small by lia.
  pose proof (Z.mod_pos_bound (alignment - o mod alignment) alignment ltac:(lia)) as Hp.
  repeat split; try lia.
  rewrite <- Zplus_mod_idemp_l, Zplus_mod_idemp_r.
  replace (o mod alignment + (alignment - o mod alignment)) with (1 * alignment) by lia.
  apply Z_mod_mult.
Qed.

(** Away from the top of the [size_t] range, [allocate] is the
    allocator the specification describes. *)
Lemma allocate_no_wrap (size alignment : Z) (a : t) :
  wf a -> 0 < alignment < SizeT.modulus -> 0 <= size ->
  offset a + padding_of alignment (offset a) + size < SizeT.modulus ->
  allocate size alignment a =
    if offset a + padding_of alignment (offset a) + size >? capacity a
    then BadAlloc a
    else Returned (offset a + padding_of alignment (offset a))
           (mk (capacity a) (offset a + padding_of alignment (offset a) + size)).
Proof.
  intros [Ho Hc] Hal Hsz Hfit. unfold allocate.
  destruct (padding_of_spec alignment (offset a) Hal ltac:(lia)) as (_ & Hp & _).
  replace (alignment =? 0) with false by (symmetry; apply Z.eqb_neq; lia).
  cbn zeta. unfold SizeT.add.
  rewrite (wrap_small (offset a + _)) by lia.
  rewrite wrap_small by lia.
  reflexivity.
Qed.

Lemma padded_end_ge (reqs : list (Z * Z)) : forall o,
  0 <= o -> Forall request_ok reqs -> o <= padded_end reqs o.
Proof.
  induction reqs as [|[size al] reqs IH]; intros o Ho Hok; cbn; [lia|].
  inversion Hok as [|? ? [Hs Ha] Hok']; subst; cbn in *.
  pose proof (Z.mod_pos_bound (al - o mod al) al ltac:(lia)).
  etransitivity; [|apply IH; [lia|assumption]]. lia.
Qed.

(** X1. A request sequence whose cumulative padded size fits the pool is
    served in full: no request fails, the offsets handed out never
    decrease, each is a multiple of its alignment and each region lies
    inside the pool. *)
Theorem allocate_all_fits (reqs : list (Z * Z)) : forall a : MemoryArena.t,
  MemoryArena.wf a -> Forall MemoryArena.request_ok reqs ->
  MemoryArena.padded_end reqs (MemoryArena.offset a) <= MemoryArena.capacity a ->
  exists ptrs a',
    MemoryArena.allocate_all reqs a = Some (ptrs, a') /\ MemoryArena.wf a' /\
    MemoryArena.capacity a' = MemoryArena.capacity a /\
    MemoryArena.offset a' = MemoryArena.padded_end reqs (MemoryArena.offset a) /\
    Forall2 (fun ptr r => ptr mod r.2 = 0) ptrs reqs /\
    Forall (fun ptr => MemoryArena.offset a <= ptr <= MemoryArena.offset a') ptrs /\
    StronglySorted Z.le ptrs.
Proof.
  induction reqs as [|[size al] reqs IH]; intros a Hwf Hok Hfit; cbn in *.
  - exists [], a. split; [reflexivity|]. split; [assumption|].
    repeat split; constructor.
  - inversion Hok as [|? ? [Hs Ha] Hok']; subst; cbn in *.
    destruct (padding_of_spec al (offset a) Ha) as (Hpad & Hrange & Halign);
      [destruct Hwf; lia|].
    rewrite <- Hpad in Hfit.
    pose proof Hwf as [Ho Hc].
    pose proof (padded_end_ge reqs
      (offset a + padding_of al (offset a) + size) ltac:(lia) Hok') as Hge.
    rewrite allocate_no_wrap by (auto; lia).
    destruct (Z.gtb_spec (offset a + padding_of al (offset a) + size) (capacity a));
      [lia|].
    cbv beta iota.
    set (a1 := mk (capacity a) (offset a + padding_of al (offset a) + size)) in *.
    destruct (IH a1) as (ptrs & a' & Hall & Hwf' & Hcap & Hoff & Hal & Hbnd & Hsorted);
      [split; cbn; lia|assumption|cbn; lia|].
    rewrite Hall. exists ((offset a + padding_of al (offset a)) :: ptrs), a'.
    cbn in Hoff, Hcap, Hbnd. rewrite <- Hpad.
    pose proof Hwf' as [Ho' Hc'].
    split; [reflexivity|]. split; [assumption|]. split; [assumption|].
    split; [assumption|]. split; [constructor; assumption|]. split.
    + constructor; [lia|]. eapply Forall_impl; [exact Hbnd|]. cbn; intros; lia.
    + constructor; [assumption|].
      eapply Forall_impl; [exact Hbnd|]. cbn; intros; lia.
Qed.

Lemma allocate_all_capacity (reqs : list (Z * Z)) : forall a ptrs a',
  allocate_all reqs a = Some (ptrs, a') -> capacity a' = capacity a.
Proof.
  induction reqs as [|[size al] reqs IH]; intros a ptrs a' H; cbn in H.
  - injection H as _ <-. reflexivity.
  - destruct (allocate size al a) as [ptr a1| |] eqn:Halloc; try discriminate.
    destruct (allocate_all reqs a1) as [[ptrs1 a2]|] eqn:Hrest; try discriminate.
    injection H as _ <-. rewrite (IH _ _ _ Hrest).
    unfold allocate in Halloc. repeat case_match; try discriminate.
    injection Halloc as _ <-. reflexivity.
Qed.

(** X2. After [reset()], [used()] is 0 and allocating the same sequence
    again yields the same offsets as the first time. *)
Theorem reset_replays_allocations (C : Z) (reqs : list (Z * Z)) (ptrs : list Z)
    (a' : MemoryArena.t) :
  MemoryArena.allocate_all reqs (MemoryArena.create C) = Some (ptrs, a') ->
  MemoryArena.used (MemoryArena.reset a') = 0 /\
  MemoryArena.allocate_all reqs (MemoryArena.reset a') = Some (ptrs, a').
Proof.
  intros H. split; [reflexivity|].
  unfold reset. rewrite (allocate_all_capacity _ _ _ _ H). exact H.
Qed.

(** Instance of X2: three requests in a pool of 1024 bytes. *)
Lemma reset_replays_allocations_witness :
  MemoryArena.allocate_all [(100, 16); (1, 1); (32, 16)] (MemoryArena.create 1024)
    = Some ([0; 100; 112], MemoryArena.mk 1024 144) /\
  MemoryArena.allocate_all [(100, 16); (1, 1); (32, 16)]
    (MemoryArena.reset (MemoryArena.mk 1024 144))
    = Some ([0; 100; 112], MemoryArena.mk 1024 144).
Proof.
  split; [reflexivity|].
  apply (reset_replays_allocations 1024 [(100, 16); (1, 1); (32, 16)] [0; 100; 112]
           (MemoryArena.mk 1024 144) eq_refl).
Defined.

(** Instance of X1: three requests in a pool of 1024
    bytes. *)
Lemma allocate_all_fits_witness :
  exists ptrs a',
    MemoryArena.allocate_all [(100, 16); (1, 1); (32, 16)] (MemoryArena.create 1024)
      = Some (ptrs, a') /\
    Forall2 (fun ptr r => ptr mod r.2 = 0) ptrs [(100, 16); (1, 1); (32, 16)] /\
    StronglySorted Z.le ptrs.
Proof.
  destruct (allocate_all_fits [(100, 16); (1, 1); (32, 16)] (MemoryArena.create 1024))
    as (ptrs & a' & Hall & _ & _ & _ & Hal & _ & Hsorted).
  - split; cbn; [lia|reflexivity].
  - repeat constructor; cbn; lia.
  - vm_compute. discriminate.
  - exists ptrs, a'. auto.
Defined.

(** C2 (evaluation of the code at the failing input).  In an arena of
    1024 bytes whose cursor stands at 16, a request of [2^64 - 16] bytes
    exceeds the remaining capacity, yet the bound check's sum wraps to 0:
    [allocate] returns offset 16 instead of failing and moves the cursor
    back to 0, so that the next request is served at offset 0, below the
    offset returned before it. *)
Theorem arena_allocate_wraps :
  let a0 := MemoryArena.create 1024 in
  let a1 := MemoryArena.mk 1024 16 in
  let huge := SizeT.max - 15 in
  MemoryArena.allocate 16 16 a0 = MemoryArena.Returned 0 a1 /\
  MemoryArena.wf a1 /\ 0 <= huge < SizeT.modulus /\
  MemoryArena.offset a1 + MemoryArena.padding_of 16 (MemoryArena.offset a1) + huge
    > MemoryArena.capacity a1 /\
  MemoryArena.allocate huge 16 a1 = MemoryArena.Returned 16 (MemoryArena.mk 1024 0) /\
  MemoryArena.allocate_all [(16, 16); (huge, 16); (8, 16)] a0
    = Some ([0; 16; 0], MemoryArena.mk 1024 8).
Proof.
  cbv zeta. repeat split; try discriminate; vm_compute; congruence.
Qed.

(** The layout of a request sequence that fits: where each region
    starts and ends. *)
Lemma allocate_all_regions (reqs : list (Z * Z)) : forall a : t,
  wf a -> Forall request_ok reqs -> padded_end reqs (offset a) <= capacity a ->
  exists ptrs a',
    allocate_all reqs a = Some (ptrs, a') /\ wf a' /\ capacity a' = capacity a /\
    offset a' = padded_end reqs (offset a) /\ length ptrs = length reqs /\
    (forall i p r, ptrs !! i = Some p -> reqs !! i = Some r ->
       offset a <= p /\ p + r.1 <= offset a') /\
    (forall i j p q r, (i < j)%nat -> ptrs !! i = Some p -> reqs !! i = Some r ->
       ptrs !! j = Some q -> p + r.1 <= q).
Proof.
  induction reqs as [|[size al] reqs IH]; intros a Hwf Hok Hfit; cbn in *.
  - exists [], a. split; [reflexivity|]. split; [assumption|].
    repeat split; try reflexivity; intros; rewrite lookup_nil in *; discriminate.
  - inversion Hok as [|? ? [Hs Ha] Hok']; subst; cbn in *.
    destruct (padding_of_spec al (offset a) Ha) as (Hpad & Hrange & Halign);
      [destruct Hwf; lia|].
    rewrite <- Hpad in Hfit.
    pose proof Hwf as [Ho Hc].
    pose proof (padded_end_ge reqs
      (offset a + padding_of al (offset a) + size) ltac:(lia) Hok') as Hge.
    rewrite allocate_no_wrap by (auto; lia).
    destruct (Z.gtb_spec (offset a + padding_of al (offset a) + size) (capacity a));
      [lia|].
    cbv beta iota.
    set (a1 := mk (capacity a) (offset a + padding_of al (offset a) + size)) in *.
    destruct (IH a1) as (ptrs & a' & Hall & Hwf' & Hcap & Hoff & Hlen & Hbnd & Hsep);
      [split; cbn; lia|assumption|cbn; lia|].
    rewrite Hall. exists ((offset a + padding_of al (offset a)) :: ptrs), a'.
    cbn in Hoff, Hcap, Hbnd. rewrite <- Hpad.
    split; [reflexivity|]. split; [assumption|]. split; [assumption|].
    split; [assumption|]. split; [cbn; now rewrite Hlen|]. split.
    + intros [|i] p r Hp Hr; cbn in Hp, Hr.
      * injection Hp as <-. injection Hr as <-. cbn. lia.
      * destruct (Hbnd i p r Hp Hr). lia.
    + intros [|i] [|j] p q r Hij Hp Hr Hq; cbn in Hp, Hr, Hq; try lia.
      * injection Hp as <-. injection Hr as <-. cbn.
        destruct (lookup_lt_is_Some_2 reqs j) as [r' Hr'];
          [rewrite <- Hlen; eapply lookup_lt_Some; exact Hq|].
        destruct (Hbnd j q r' Hq Hr'). lia.
      * apply (Hsep i j p q r); [lia|assumption..].
Qed.

Lemma padded_end_le_worst (reqs : list (Z * Z)) : forall o,
  0 <= o -> Forall request_ok reqs -> padded_end reqs o <= o + worst_case reqs.
Proof.
  induction reqs as [|[size al] reqs IH]; intros o Ho Hok; cbn; [lia|].
  inversion Hok as [|? ? [Hs Ha] Hok']; subst; cbn in *.
  pose proof (Z.mod_pos_bound (al - o mod al) al ltac:(lia)).
  etransitivity; [apply IH; [lia|assumption]|]. lia.
Qed.

(** X9. The regions handed out to a request sequence that fits are
    pairwise disjoint and lie in the pool in request order: each region
    starts at or after the cursor the sequence started from, ends at or
    before the final cursor, and ends at or before the start of every
    region handed out after it. *)
Theorem arena_regions_disjoint (reqs : list (Z * Z)) (a : MemoryArena.t) :
  MemoryArena.wf a -> Forall MemoryArena.request_ok reqs ->
  MemoryArena.padded_end reqs (MemoryArena.offset a) <= MemoryArena.capacity a ->
  exists ptrs a',
    MemoryArena.allocate_all reqs a = Some (ptrs, a') /\
    length ptrs = length reqs /\
    MemoryArena.used a' <= MemoryArena.capacity a /\
    (forall i p r, ptrs !! i = Some p -> reqs !! i = Some r ->
       MemoryArena.used a <= p /\ p + r.1 <= MemoryArena.used a') /\
    (forall i j p q r, (i < j)%nat -> ptrs !! i = Some p -> reqs !! i = Some r ->
       ptrs !! j = Some q -> p + r.1 <= q).
Proof.
  intros Hwf Hok Hfit.
  destruct (allocate_all_regions reqs a Hwf Hok Hfit)
    as (ptrs & a' & Hall & Hwf' & Hcap & Hoff & Hlen & Hbnd & Hsep).
  exists ptrs, a'. unfold used. destruct Hwf' as [Ho' _]. rewrite Hcap in Ho'.
  repeat split; try assumption; try lia; apply (Hbnd i p r); assumption.
Qed.

(** X10. A pool with room for every size plus, for every request, its
    alignment minus one byte serves the whole sequence, whatever the
    cursor's alignment: padding never takes more than that. *)
Theorem arena_worst_case_fits (reqs : list (Z * Z)) (a : MemoryArena.t) :
  MemoryArena.wf a -> Forall MemoryArena.request_ok reqs ->
  MemoryArena.used a + MemoryArena.worst_case reqs <= MemoryArena.capacity a ->
  exists ptrs a',
    MemoryArena.allocate_all reqs a = Some (ptrs, a') /\
    length ptrs = length reqs /\
    MemoryArena.used a' <= MemoryArena.used a + MemoryArena.worst_case reqs.
Proof.
  intros Hwf Hok Hfit. unfold used in *.
  pose proof (padded_end_le_worst reqs (offset a) ltac:(destruct Hwf; lia) Hok) as Hle.
  destruct (allocate_all_regions reqs a Hwf Hok ltac:(lia))
    as (ptrs & a' & Hall & _ & _ & Hoff & Hlen & _).
  exists ptrs, a'. rewrite Hoff. auto.
Qed.

(** Objects of one type emplaced from an aligned cursor follow each
    other without padding. *)
Lemma emplace_n_aligned (T : ctype) (n : nat) : forall a : t,
  wf a -> 0 < alignof T < SizeT.modulus -> 0 <= sizeof T ->
  sizeof T mod alignof T = 0 -> offset a mod alignof T = 0 ->
  offset a + Z.of_nat n * sizeof T <= capacity a ->
  emplace_n n T a =
    Some ((fun k => offset a + Z.of_nat k * sizeof T) <$> seq 0 n,
          mk (capacity a) (offset a + Z.of_nat n * sizeof T)).
Proof.
  induction n as [|n IH]; intros a Hwf Hal Hsz Hmul Hcur Hfit.
  - cbn. rewrite Z.add_0_r. destruct a; reflexivity.
  - cbn [emplace_n]. unfold emplace.
    destruct (padding_of_spec (alignof T) (offset a) Hal ltac:(destruct Hwf; lia))
      as (Hpad & Hrange & _).
    assert (Hp0 : padding_of (alignof T) (offset a) = 0).
    { rewrite Hpad, Hcur, Z.sub_0_r. apply Z_mod_same_full. }
    pose proof Hwf as [Ho Hc].
    assert (Hn : 0 <= Z.of_nat n * sizeof T) by (apply Z.mul_nonneg_nonneg; lia).
    rewrite allocate_no_wrap by (auto; lia). rewrite Hp0, Z.add_0_r.
    destruct (Z.gtb_spec (offset a + sizeof T) (capacity a)); [lia|].
    rewrite IH; cbn [offset capacity]; try assumption.
    + cbn [seq fmap list_fmap]. rewrite <- fmap_S_seq, <- list_fmap_compose.
      f_equal. f_equal; [f_equal|f_equal; lia].
      * lia.
      * apply list_fmap_ext. intros i k _. cbn. lia.
    + split; cbn; lia.
    + rewrite <- Zplus_mod_idemp_l, Hcur, Z.add_0_l. exact Hmul.
    + lia.
Qed.

(** X11. [emplace<T>] lays objects of one type out like an array: when
    the size of [T] is a multiple of its alignment (as it is for every
    C++ type) and the pool has room for [n + 1] objects after the first
    padding, [n + 1] successive calls all succeed, object [k] is placed
    [k * sizeof(T)] bytes after the first one, and only the first call
    pads.  What [allocate] aligns is the offset into the pool: the offset
    of every object is a multiple of the alignment, so the address
    [buffer.data() + offset] of every object is congruent to the address
    [base] of the pool modulo the alignment; the objects are aligned
    exactly when the pool is, whatever its address. *)
Theorem emplace_packs_like_array (T : MemoryArena.ctype) (n : nat) (a : MemoryArena.t) :
  MemoryArena.wf a -> 0 < MemoryArena.alignof T < SizeT.modulus ->
  0 <= MemoryArena.sizeof T ->
  MemoryArena.sizeof T mod MemoryArena.alignof T = 0 ->
  let first := MemoryArena.offset a
               + MemoryArena.padding_of (MemoryArena.alignof T) (MemoryArena.offset a) in
  first + (Z.of_nat n + 1) * MemoryArena.sizeof T <= MemoryArena.capacity a ->
  MemoryArena.emplace_n (S n) T a =
    Some ((fun k => first + Z.of_nat k * MemoryArena.sizeof T) <$> seq 0 (S n),
          MemoryArena.mk (MemoryArena.capacity a)
            (first + (Z.of_nat n + 1) * MemoryArena.sizeof T)) /\
  first mod MemoryArena.alignof T = 0 /\
  forall k : nat,
    let ptr := first + Z.of_nat k * MemoryArena.sizeof T in
    ptr mod MemoryArena.alignof T = 0 /\
    forall base : Z,
      MemoryArena.address base ptr mod MemoryArena.alignof T
        = base mod MemoryArena.alignof T /\
      (MemoryArena.address base ptr mod MemoryArena.alignof T = 0 <->
       base mod MemoryArena.alignof T = 0).
Proof.
  intros Hwf Hal Hsz Hmul first Hfit.
  destruct (padding_of_spec (alignof T) (offset a) Hal ltac:(destruct Hwf; lia))
    as (_ & Hrange & Halign). fold first in Halign.
  pose proof Hwf as [Ho Hc].
  assert (Hn : 0 <= Z.of_nat n * sizeof T) by (apply Z.mul_nonneg_nonneg; lia).
  split; [|split; [exact Halign|]].
  - cbn [emplace_n]. unfold emplace.
    rewrite allocate_no_wrap by (auto; subst first; lia). fold first.
    destruct (Z.gtb_spec (first + sizeof T) (capacity a)); [lia|].
    rewrite (emplace_n_aligned T n); cbn [offset capacity]; try assumption.
    + cbn [seq fmap list_fmap]. rewrite <- fmap_S_seq, <- list_fmap_compose.
      f_equal. f_equal; [f_equal|f_equal; lia].
      * lia.
      * apply list_fmap_ext. intros i k _. cbn. lia.
    + split; cbn; subst first; lia.
    + rewrite <- Zplus_mod_idemp_l, Halign, Z.add_0_l. exact Hmul.
    + lia.
  - intros k ptr.
    assert (Hptr : ptr mod alignof T = 0).
    { subst ptr. rewrite <- Zplus_mod_idemp_l, Halign, Z.add_0_l.
      rewrite <- Zmult_mod_idemp_r, Hmul, Z.mul_0_r. apply Z.mod_0_l. lia. }
    split; [exact Hptr|]. intros base.
    assert (Haddr : address base ptr mod alignof T = base mod alignof T).
    { unfold address. rewrite <- Zplus_mod_idemp_r, Hptr, Z.add_0_r. reflexivity. }
    split; [exact Haddr|]. rewrite Haddr. reflexivity.
Qed.

(** Instance of X9: three requests in a pool of 1024 bytes. *)
Lemma arena_regions_disjoint_witness :
  exists ptrs a',
    MemoryArena.allocate_all [(100, 16); (1, 1); (32, 16)] (MemoryArena.create 1024)
      = Some (ptrs, a') /\
    forall i j p q r, (i < j)%nat -> ptrs !! i = Some p ->
      [(100, 16); (1, 1); (32, 16)] !! i = Some r -> ptrs !! j = Some q -> p + r.1 <= q.
Proof.
  destruct (arena_regions_disjoint [(100, 16); (1, 1); (32, 16)] (MemoryArena.create 1024))
    as (ptrs & a' & Hall & _ & _ & _ & Hsep).
  - split; cbn; [lia|reflexivity].
  - repeat constructor; cbn; lia.
  - vm_compute. discriminate.
  - exists ptrs, a'. split; assumption.
Defined.

(** Instance of X10: sizes 100, 1 and 32 with alignments 16, 1 and 16
    need at most 163 bytes. *)
Lemma arena_worst_case_fits_witness :
  exists ptrs a',
    MemoryArena.allocate_all [(100, 16); (1, 1); (32, 16)] (MemoryArena.mk 1024 7)
      = Some (ptrs, a') /\
    MemoryArena.used a' <= 7 + 163.
Proof.
  destruct (arena_worst_case_fits [(100, 16); (1, 1); (32, 16)] (MemoryArena.mk 1024 7))
    as (ptrs & a' & Hall & _ & Hused).
  - split; cbn; [lia|reflexivity].
  - repeat constructor; cbn; lia.
  - vm_compute. discriminate.
  - exists ptrs, a'. split; assumption.
Defined.

(** Instance of X11: three 32-byte objects of alignment 32 from cursor
    3 take the offsets 32, 64 and 96; in a pool whose storage starts at
    address 4112 (a multiple of 16, not of 32) the third object lies at
    address 4208, which is 16 modulo 32. *)
Lemma emplace_packs_like_array_witness :
  MemoryArena.emplace_n 3 (MemoryArena.mk_ctype 32 32) (MemoryArena.mk 1024 3)
    = Some ([32; 64; 96], MemoryArena.mk 1024 128) /\
  MemoryArena.address 4112 96 mod 32 = 4112 mod 32.
Proof.
  pose proof (emplace_packs_like_array (MemoryArena.mk_ctype 32 32) 2
                (MemoryArena.mk 1024 3)) as H.
  destruct H as (Hrun & _ & Haddr).
  - split; cbn; [lia|reflexivity].
  - cbn. split; reflexivity.
  - cbn. lia.
  - reflexivity.
  - vm_compute. discriminate.
  - split; [exact Hrun|].
    exact (proj1 (proj2 (Haddr 2%nat) 4112)).
Defined.

End MemoryArenaFacts.

(* ------------------------------------------------------------------ *)
(** ** binary32 arithmetic                                             *)

Section Float32Facts.
Import Float32.
Local Open Scope Z_scope.

Lemma digits2_pos_bounds (p : positive) :
  2 ^ (Zpos (digits2_pos p) - 1) <= Zpos p < 2 ^ Zpos (digits2_pos p).
Proof.
  induction p as [p IH|p IH|]; cbn [digits2_pos].
  - rewrite Pos2Z.inj_succ, (Pos2Z.inj_xI p).
    replace (Z.succ (Zpos (digits2_pos p)) - 1) with (Z.succ (Zpos (digits2_pos p) - 1)) by lia.
    rewrite !Z.pow_succ_r by lia.
    generalize dependent (2 ^ (Zpos (digits2_pos p) - 1)).
    generalize dependent (2 ^ Zpos (digits2_pos p)). intros; lia.
  - rewrite Pos2Z.inj_succ, (Pos2Z.inj_xO p).
    replace (Z.succ (Zpos (digits2_pos p)) - 1) with (Z.succ (Zpos (digits2_pos p) - 1)) by lia.
    rewrite !Z.pow_succ_r by lia.
    generalize dependent (2 ^ (Zpos (digits2_pos p) - 1)).
    generalize dependent (2 ^ Zpos (digits2_pos p)). intros; lia.
  - cbn. lia.
Qed.

(** The number of digits is determined by the binade. *)
Lemma digits2_pos_unique (p : positive) (d : Z) :
  2 ^ (d - 1) <= Zpos p < 2 ^ d -> Zpos (digits2_pos p) = d.
Proof.
  intros [Hlo Hhi]. pose proof (digits2_pos_bounds p) as [Blo Bhi].
  assert (0 < d).
  { destruct (Z.lt_trichotomy d 0) as [Hd|[Hd|Hd]]; [|subst;cbn in *; lia|lia].
    rewrite Z.pow_neg_r in Hhi by lia. lia. }
  destruct (Z.lt_trichotomy (Zpos (digits2_pos p)) d) as [Hlt|[Heq|Hgt]]; [|exact Heq|].
  - assert (2 ^ Zpos (digits2_pos p) <= 2 ^ (d - 1)) by (apply Z.pow_le_mono_r; lia). lia.
  - assert (2 ^ d <= 2 ^ (Zpos (digits2_pos p) - 1)) by (apply Z.pow_le_mono_r; lia). lia.
Qed.

Lemma shr_1_m (mrs : shr_record) :
  0 <= shr_m mrs -> shr_m (shr_1 mrs) = shr_m mrs / 2.
Proof.
  destruct mrs as [m r s]; cbn [shr_m]. intros Hm.
  destruct m as [|[q|q|]|q]; cbn [shr_1 shr_m]; try lia; try reflexivity.
  - rewrite (Pos2Z.inj_xI q). apply Z.div_unique with (r := 1); lia.
  - rewrite (Pos2Z.inj_xO q). apply Z.div_unique with (r := 0); lia.
Qed.

Lemma shr_iter_m (p : positive) : forall mrs : shr_record,
  0 <= shr_m mrs -> shr_m (SpecFloat.iter_pos shr_1 p mrs) = shr_m mrs / 2 ^ Zpos p.
Proof.
  induction p as [p IH|p IH|]; intros mrs Hm; cbn [SpecFloat.iter_pos].
  - assert (H1 : 0 <= shr_m (shr_1 mrs)) by (rewrite shr_1_m by lia; apply Z.div_pos; lia).
    assert (H2 : 0 <= shr_m (SpecFloat.iter_pos shr_1 p (shr_1 mrs)))
      by (rewrite IH by lia; apply Z.div_pos; lia).
    rewrite IH, IH, shr_1_m by lia.
    rewrite !Z.div_div by lia. f_equal.
    rewrite Pos2Z.inj_xI, Z.pow_add_r, Z.pow_mul_r by lia.
    change (2 ^ 2) with 4. change (2 ^ 1) with 2.
    replace (4 ^ Zpos p) with (2 ^ Zpos p * 2 ^ Zpos p).
    2:{ rewrite <- Z.pow_add_r by lia. replace (Zpos p + Zpos p) with (2 * Zpos p) by lia.
        rewrite Z.pow_mul_r by lia. reflexivity. }
    lia.
  - assert (H2 : 0 <= shr_m (SpecFloat.iter_pos shr_1 p mrs))
      by (rewrite IH by lia; apply Z.div_pos; lia).
    rewrite IH, IH by lia. rewrite Z.div_div by lia. f_equal.
    rewrite Pos2Z.inj_xO. rewrite <- Z.pow_add_r by lia. f_equal. lia.
  - rewrite shr_1_m by lia. reflexivity.
Qed.

Lemma shr_1_exact (m : Z) :
  0 <= m -> shr_1 (Build_shr_record (2 * m) false false) = Build_shr_record m false false.
Proof.
  intros Hm. destruct m as [|q|q]; try lia; reflexivity.
Qed.

Lemma shr_iter_exact (p : positive) : forall m : Z,
  0 <= m ->
  SpecFloat.iter_pos shr_1 p (Build_shr_record (m * 2 ^ Zpos p) false false)
    = Build_shr_record m false false.
Proof.
  induction p as [p IH|p IH|]; intros m Hm; cbn [SpecFloat.iter_pos].
  - replace (m * 2 ^ Zpos p~1) with (2 * ((m * 2 ^ Zpos p) * 2 ^ Zpos p)).
    2:{ rewrite Pos2Z.inj_xI, Z.pow_add_r, Z.pow_mul_r by lia.
        change (2 ^ 2) with 4. change (2 ^ 1) with 2.
        replace (4 ^ Zpos p) with (2 ^ Zpos p * 2 ^ Zpos p).
        2:{ rewrite <- Z.pow_add_r by lia. replace (Zpos p + Zpos p) with (2 * Zpos p) by lia.
            rewrite Z.pow_mul_r by lia. reflexivity. }
        lia. }
    rewrite shr_1_exact by (apply Z.mul_nonneg_nonneg; [apply Z.mul_nonneg_nonneg|]; lia).
    rewrite IH by (apply Z.mul_nonneg_nonneg; lia). apply IH. lia.
  - replace (m * 2 ^ Zpos p~0) with ((m * 2 ^ Zpos p) * 2 ^ Zpos p).
    2:{ rewrite Pos2Z.inj_xO, <- Z.mul_assoc, <- Z.pow_add_r by lia. do 2 f_equal. lia. }
    rewrite IH by (apply Z.mul_nonneg_nonneg; lia). apply IH. lia.
  - change (2 ^ 1) with 2. rewrite Z.mul_comm. apply shr_1_exact. lia.
Qed.

Lemma iter_xO (k : positive) (m : positive) :
  Zpos (Pos.iter xO m k) = Zpos m * 2 ^ Zpos k.
Proof.
  revert m. induction k as [|k IH] using Pos.peano_ind; intros m.
  - cbn. lia.
  - rewrite Pos.iter_succ, (Pos2Z.inj_xO (Pos.iter xO m k)), IH, Pos2Z.inj_succ,
      Z.pow_succ_r by lia. lia.
Qed.




Lemma fexp32 (e : Z) : fexp 24 128 e = Z.max (e - 24) (-149).
Proof. reflexivity. Qed.

Lemma pow2_pos (e : Z) : 0 <= e -> 0 < 2 ^ e.
Proof. intros. apply Z.pow_pos_nonneg; lia. Qed.

Lemma round_nearest_even_ge (m : Z) (l : location) : m <= round_nearest_even m l.
Proof.
  destruct l as [|[| |]]; cbn [round_nearest_even]; try lia.
  destruct (Z.even m); lia.
Qed.

Lemma shr_record_of_loc_m (m : Z) (l : location) : shr_m (shr_record_of_loc m l) = m.
Proof. destruct l as [|[| |]]; reflexivity. Qed.

Lemma shr_fexp_lower (k m e : Z) (l : location) :
  0 <= k -> 0 < m -> -149 <= e -> 2 ^ k <= scaled m e ->
  0 < shr_m (fst (shr_fexp 24 128 m e l)) /\
  -149 <= snd (shr_fexp 24 128 m e l) /\
  2 ^ k <= scaled (shr_m (fst (shr_fexp 24 128 m e l))) (snd (shr_fexp 24 128 m e l)).
Proof.
  intros Hk Hm He Hv. unfold shr_fexp, shr.
  destruct m as [|p|p]; try lia. cbn [Zdigits2]. rewrite fexp32.
  pose proof (digits2_pos_bounds p) as [Hlo Hhi].
  set (d := Zpos (digits2_pos p)) in *.
  destruct (Z.max (d + e - 24) (-149) - e) as [|n|n] eqn:Hn; cbn [fst snd];
    rewrite ?shr_record_of_loc_m; try (repeat split; assumption || lia).
  assert (Hd : Zpos n = d - 24) by lia.
  rewrite shr_iter_m by (rewrite shr_record_of_loc_m; lia).
  rewrite shr_record_of_loc_m, Hd.
  assert (Hd24 : 24 < d) by lia.
  assert (Hq : 2 ^ 23 <= Zpos p / 2 ^ (d - 24)).
  { apply Z.div_le_lower_bound; [apply pow2_pos; lia|].
    rewrite <- Z.pow_add_r by lia. replace (d - 24 + 23) with (d - 1) by lia. exact Hlo. }
  split; [lia|]. split; [lia|].
  unfold scaled in *.
  destruct (Z.le_gt_cases (e + (d - 24) + 149) k) as [Hsmall|Hbig].
  - assert (Hq' : 2 ^ (k - (e + (d - 24) + 149)) <= Zpos p / 2 ^ (d - 24)).
    { apply Z.div_le_lower_bound; [apply pow2_pos; lia|].
      rewrite <- Z.pow_add_r by lia.
      apply (Z.mul_le_mono_pos_r _ _ (2 ^ (e + 149))); [apply pow2_pos; lia|].
      rewrite <- Z.pow_add_r by lia.
      replace (d - 24 + (k - (e + (d - 24) + 149)) + (e + 149)) with k by lia.
      exact Hv. }
    replace (2 ^ k) with (2 ^ (k - (e + (d - 24) + 149)) * 2 ^ (e + (d - 24) + 149)).
    2:{ rewrite <- Z.pow_add_r by lia. f_equal. lia. }
    apply Z.mul_le_mono_nonneg_r; [apply Z.lt_le_incl, pow2_pos; lia|exact Hq'].
  - transitivity (1 * 2 ^ (e + (d - 24) + 149)).
    + rewrite Z.mul_1_l. apply Z.pow_le_mono_r; lia.
    + apply Z.mul_le_mono_nonneg_r; [apply Z.lt_le_incl, pow2_pos; lia|lia].
Qed.

Lemma binary_round_aux_lower (k : Z) (sx : bool) (mx ex : Z) (lx : location) :
  0 <= k -> 0 < mx -> -149 <= ex -> 2 ^ k <= scaled mx ex ->
  binary_round_aux 24 128 sx mx ex lx = S754_infinity sx \/
  exists m e, binary_round_aux 24 128 sx mx ex lx = S754_finite sx m e /\
              -149 <= e /\ 2 ^ k <= scaled (Zpos m) e.
Proof.
  intros Hk Hm He Hv. unfold binary_round_aux.
  destruct (shr_fexp_lower k mx ex lx Hk Hm He Hv) as (H1 & H2 & H3).
  destruct (shr_fexp 24 128 mx ex lx) as [mrs' e']; cbn [fst snd] in *.
  set (m1 := round_nearest_even (shr_m mrs') (loc_of_shr_record mrs')).
  pose proof (round_nearest_even_ge (shr_m mrs') (loc_of_shr_record mrs')) as Hge.
  fold m1 in Hge.
  assert (Hv1 : 2 ^ k <= scaled m1 e').
  { etransitivity; [exact H3|]. unfold scaled.
    apply Z.mul_le_mono_nonneg_r; [apply Z.lt_le_incl, pow2_pos; lia|exact Hge]. }
  destruct (shr_fexp_lower k m1 e' loc_Exact Hk ltac:(lia) H2 Hv1) as (G1 & G2 & G3).
  destruct (shr_fexp 24 128 m1 e' loc_Exact) as [mrs'' e'']; cbn [fst snd] in *.
  destruct (shr_m mrs'') as [|m|m]; try lia.
  destruct (e'' <=? 128 - 24); [right; eauto|left; reflexivity].
Qed.


Lemma shl_align_fst (mx : positive) (ex ez : Z) :
  ez <= ex -> Zpos (fst (shl_align mx ex ez)) = Zpos mx * 2 ^ (ex - ez).
Proof.
  intros Hle. unfold shl_align.
  destruct (ez - ex) as [|d|d] eqn:Hd; cbn [fst]; try lia.
  - replace (ex - ez) with 0 by lia. lia.
  - rewrite iter_xO. f_equal. f_equal. lia.
Qed.

Lemma shl_align_snd_ge (mx : positive) (ex ez : Z) :
  Z.min ex ez <= snd (shl_align mx ex ez).
Proof.
  unfold shl_align. destruct (ez - ex) as [|d|d] eqn:Hd; cbn [snd]; lia.
Qed.


Lemma one_eq : Float32.one = S754_finite false 8388608 (-23).
Proof. reflexivity. Qed.

Lemma binary_round_nonzero (sx : bool) (mx : positive) (ex : Z) :
  -149 <= ex ->
  binary_round 24 128 sx mx ex = S754_infinity sx \/
  exists m e, binary_round 24 128 sx mx ex = S754_finite sx m e.
Proof.
  intros He. unfold binary_round.
  pose proof (shl_align_snd_ge mx ex (fexp 24 128 (Zpos (digits2_pos mx) + ex))) as Hs.
  rewrite fexp32 in *.
  destruct (shl_align mx ex _) as [mz ez]; cbn [snd] in Hs.
  destruct (binary_round_aux_lower 0 sx (Zpos mz) ez loc_Exact) as [Hinf|(m & e & Hfin & _)];
    try lia.
  - unfold scaled. change (2 ^ 0) with 1.
    assert (0 < 2 ^ (ez + 149)) by (apply pow2_pos; lia). nia.
  - left; exact Hinf.
  - right; eauto.
Qed.

Lemma sub_one_ge_one (q : Float32.float) :
  ge_one q -> Float32.std_max (Float32.sub Float32.one q) Float32.zero = Float32.zero.
Proof.
  intros [->|(m & e & -> & He & Hv)]; [reflexivity|].
  rewrite one_eq. unfold Float32.sub, SFsub, Float32.prec, Float32.emax.
  set (ez := Z.min (-23) e).
  set (a := Zpos (fst (shl_align 8388608 (-23) ez))).
  set (b := Zpos (fst (shl_align m e ez))).
  assert (Ha : a = 2 ^ 23 * 2 ^ (-23 - ez)) by (apply shl_align_fst; lia).
  assert (Hb : b = Zpos m * 2 ^ (e - ez)) by (apply shl_align_fst; lia).
  assert (Hab : a <= b).
  { apply (Z.mul_le_mono_pos_r _ _ (2 ^ (ez + 149))); [apply pow2_pos; lia|].
    rewrite Ha, Hb, <- !Z.mul_assoc, <- !Z.pow_add_r by lia.
    replace (23 + (-23 - ez + (ez + 149))) with 149 by lia.
    replace (e - ez + (ez + 149)) with (e + 149) by lia. exact Hv. }
  cbn [cond_Zopp].
  change (Z.pos (fst (shl_align 8388608 (-23) ez))) with a.
  change (Z.pos (fst (shl_align m e ez))) with b.
  destruct (a - b) as [|p|p] eqn:Hd; try lia; cbn [binary_normalize].
  - reflexivity.
  - destruct (binary_round_nonzero true p ez ltac:(lia)) as [->|(m' & e' & ->)]; reflexivity.
Qed.



Lemma binade_lt (m m' P Q : Z) :
  0 < P -> m < 16777216 -> 8388608 <= m' -> 2 <= Q -> m * P < m' * (P * Q).
Proof.
  intros HP Hm Hm' HQ.
  apply Z.lt_le_trans with (16777216 * P).
  - apply Z.mul_lt_mono_pos_r; assumption.
  - replace (16777216 * P) with (8388608 * (P * 2)) by lia.
    apply Z.mul_le_mono_nonneg; try lia.
    apply Z.mul_le_mono_nonneg_l; lia.
Qed.

Lemma encodes_unique (f g : Float32.float) (c : Z) :
  encodes f c -> encodes g c -> f = g.
Proof.
  intros (m & e & -> & Hd & He & Hv) (m' & e' & -> & Hd' & He' & Hv').
  pose proof (digits2_pos_bounds m) as Hm. rewrite Hd in Hm.
  pose proof (digits2_pos_bounds m') as Hm'. rewrite Hd' in Hm'.
  change (2 ^ (24 - 1)) with 8388608 in *. change (2 ^ 24) with 16777216 in *.
  assert (Hee : e = e').
  { destruct (Z.lt_trichotomy e e') as [Hlt|[Heq|Hgt]]; [exfalso|exact Heq|exfalso].
    - assert (Zpos m * 2 ^ (e + 23) < Zpos m' * 2 ^ (e' + 23)); [|lia].
      replace (e' + 23) with ((e + 23) + (e' - e)) by lia.
      rewrite (Z.pow_add_r 2 (e + 23) (e' - e)) by lia.
      assert (2 <= 2 ^ (e' - e)) by (change 2 with (2 ^ 1) at 1; apply Z.pow_le_mono_r; lia).
      assert (0 < 2 ^ (e + 23)) by (apply pow2_pos; lia).
      apply binade_lt; lia.
    - assert (Zpos m' * 2 ^ (e' + 23) < Zpos m * 2 ^ (e + 23)); [|lia].
      replace (e + 23) with ((e' + 23) + (e - e')) by lia.
      rewrite (Z.pow_add_r 2 (e' + 23) (e - e')) by lia.
      assert (2 <= 2 ^ (e - e')) by (change 2 with (2 ^ 1) at 1; apply Z.pow_le_mono_r; lia).
      assert (0 < 2 ^ (e' + 23)) by (apply pow2_pos; lia).
      apply binade_lt; lia. }
  subst e'. f_equal.
  assert (0 < 2 ^ (e + 23)) by (apply pow2_pos; lia).
  assert (Zpos m = Zpos m') by nia. congruence.
Qed.

(** An integer multiple [m * 2^n] of a 24-digit mantissa rounds to that mantissa. *)
Lemma binary_round_aux_exact (sx : bool) (m : positive) (n e : Z) :
  Zpos (digits2_pos m) = 24 -> 0 <= n -> -149 <= e + n <= 104 ->
  binary_round_aux 24 128 sx (Zpos m * 2 ^ n) e loc_Exact = S754_finite sx m (e + n).
Proof.
  intros Hd Hn He.
  pose proof (digits2_pos_bounds m) as Hm. rewrite Hd in Hm.
  assert (Hpow : 0 < 2 ^ n) by (apply pow2_pos; lia).
  assert (Hstep2 : shr_fexp 24 128 (Zpos m) (e + n) loc_Exact
                   = (Build_shr_record (Zpos m) false false, e + n)).
  { unfold shr_fexp. cbn [Zdigits2]. rewrite Hd, fexp32.
    replace (Z.max (24 + (e + n) - 24) (-149) - (e + n)) with 0 by lia. reflexivity. }
  assert (Hstep1 : shr_fexp 24 128 (Zpos m * 2 ^ n) e loc_Exact
                   = (Build_shr_record (Zpos m) false false, e + n)).
  { unfold shr_fexp.
    destruct (Zpos m * 2 ^ n) as [|p|p] eqn:Hp; try lia.
    cbn [Zdigits2]. rewrite (digits2_pos_unique p (24 + n)).
    2:{ rewrite <- Hp. replace (24 + n - 1) with (23 + n) by lia.
        rewrite !Z.pow_add_r by lia. change (2 ^ (24 - 1)) with (2 ^ 23) in Hm.
        split; [apply Z.mul_le_mono_nonneg_r; lia|apply Z.mul_lt_mono_pos_r; lia]. }
    rewrite fexp32. replace (Z.max (24 + n + e - 24) (-149) - e) with n by lia.
    unfold shr. cbn [shr_record_of_loc].
    destruct n as [|n'|n']; try lia.
    - f_equal; [|lia]. f_equal. lia.
    - rewrite <- Hp. rewrite shr_iter_exact by lia. reflexivity. }
  unfold binary_round_aux. rewrite Hstep1. cbn [shr_m loc_of_shr_record round_nearest_even].
  rewrite Hstep2. cbn [shr_m].
  replace (e + n <=? 128 - 24) with true by (symmetry; apply Z.leb_le; lia).
  reflexivity.
Qed.

Lemma encodes_of_Z (c : Z) : 1 <= c <= 2 ^ 24 -> encodes (Float32.of_Z c) c.
Proof.
  intros Hc. destruct (Z.eq_dec c (2 ^ 24)) as [->|Hne].
  { exists 8388608%positive, 1. repeat split; reflexivity || lia. }
  assert (Hlt : c < 2 ^ 24) by lia.
  destruct c as [|p|p]; try lia.
  unfold Float32.of_Z, binary_normalize, binary_round, Float32.prec, Float32.emax.
  pose proof (digits2_pos_bounds p) as Hp.
  set (d := Zpos (digits2_pos p)) in *.
  assert (Hd : 1 <= d <= 24).
  { split; [subst d; lia|].
    destruct (Z.le_gt_cases d 24) as [|Hgt]; [assumption|exfalso].
    assert (2 ^ 24 <= 2 ^ (d - 1)) by (apply Z.pow_le_mono_r; lia). lia. }
  rewrite fexp32. replace (Z.max (d + 0 - 24) (-149)) with (d - 24) by lia.
  pose proof (shl_align_fst p 0 (d - 24) ltac:(lia)) as Hfst.
  assert (Hsnd : snd (shl_align p 0 (d - 24)) = d - 24).
  { unfold shl_align. destruct (d - 24 - 0) as [|k|k] eqn:Hk; cbn [snd]; lia. }
  destruct (shl_align p 0 (d - 24)) as [mz ez]; cbn [fst snd] in *. subst ez.
  replace (0 - (d - 24)) with (24 - d) in Hfst by lia.
  assert (Hmz : Zpos (digits2_pos mz) = 24).
  { apply digits2_pos_unique. rewrite Hfst.
    replace (2 ^ (24 - 1)) with (2 ^ (d - 1) * 2 ^ (24 - d))
      by (rewrite <- Z.pow_add_r by lia; f_equal; lia).
    replace (2 ^ 24) with (2 ^ d * 2 ^ (24 - d))
      by (rewrite <- Z.pow_add_r by lia; f_equal; lia).
    assert (0 < 2 ^ (24 - d)) by (apply pow2_pos; lia). nia. }
  pose proof (binary_round_aux_exact false mz 0 (d - 24) Hmz ltac:(lia) ltac:(lia)) as Hr.
  rewrite Z.pow_0_r, Z.mul_1_r, Z.add_0_r in Hr. rewrite Hr.
  exists mz, (d - 24). repeat split; try lia.
  rewrite Hfst, <- Z.mul_assoc, <- Z.pow_add_r by lia. do 2 f_equal. lia.
Qed.


Lemma add_one_encodes (f : Float32.float) (c : Z) :
  encodes f c -> 1 <= c < 2 ^ 24 -> encodes (Float32.add f Float32.one) (c + 1).
Proof.
  intros Hf Hc. destruct (Z.eq_dec (c + 1) (2 ^ 24)) as [Htop|Hne].
  { assert (c = 16777215) as -> by (change (2 ^ 24) with 16777216 in Htop; lia).
    rewrite (encodes_unique f (Float32.of_Z 16777215) 16777215 Hf)
      by (apply encodes_of_Z; lia).
    exists 8388608%positive, 1. repeat split; reflexivity || lia. }
  destruct Hf as (m & e & -> & Hd & He & Hv).
  rewrite one_eq. unfold Float32.add, SFadd, Float32.prec, Float32.emax.
  replace (Z.min e (-23)) with (-23) by lia.
  pose proof (shl_align_fst m e (-23) ltac:(lia)) as Ha.
  replace (e - -23) with (e + 23) in Ha by lia. rewrite Hv in Ha.
  cbn [cond_Zopp]. rewrite Ha.
  change (Zpos (fst (shl_align 8388608 (-23) (-23)))) with (2 ^ 23).
  destruct (c + 1) as [|pc1|pc1] eqn:Hc1; try lia.
  replace (c * 2 ^ 23 + 2 ^ 23) with (Zpos pc1 * 2 ^ 23) by lia.
  destruct (Zpos pc1 * 2 ^ 23) as [|s|s] eqn:Hs; try lia.
  cbn [binary_normalize]. unfold binary_round.
  pose proof (digits2_pos_bounds pc1) as Hp.
  set (d := Zpos (digits2_pos pc1)) in *.
  assert (Hd1 : 1 <= d <= 24).
  { split; [subst d; lia|].
    destruct (Z.le_gt_cases d 24) as [|Hgt]; [assumption|exfalso].
    assert (2 ^ 24 <= 2 ^ (d - 1)) by (apply Z.pow_le_mono_r; lia). lia. }
  rewrite (digits2_pos_unique s (d + 23)).
  2:{ rewrite <- Hs. replace (d + 23 - 1) with (d - 1 + 23) by lia.
      rewrite !Z.pow_add_r by lia.
      split; [apply Z.mul_le_mono_nonneg_r; lia|apply Z.mul_lt_mono_pos_r; lia]. }
  rewrite fexp32. replace (Z.max (d + 23 + -23 - 24) (-149)) with (d - 24) by lia.
  assert (Hal : shl_align s (-23) (d - 24) = (s, -23)).
  { unfold shl_align. destruct (d - 24 - -23) as [|k|k] eqn:Hk; try lia; reflexivity. }
  rewrite Hal.
  pose proof (shl_align_fst pc1 0 (d - 24) ltac:(lia)) as Hm'.
  set (m' := fst (shl_align pc1 0 (d - 24))) in *.
  replace (0 - (d - 24)) with (24 - d) in Hm' by lia.
  assert (Hdm' : Zpos (digits2_pos m') = 24).
  { apply digits2_pos_unique. rewrite Hm'.
    replace (2 ^ (24 - 1)) with (2 ^ (d - 1) * 2 ^ (24 - d))
      by (rewrite <- Z.pow_add_r by lia; f_equal; lia).
    replace (2 ^ 24) with (2 ^ d * 2 ^ (24 - d))
      by (rewrite <- Z.pow_add_r by lia; f_equal; lia).
    assert (0 < 2 ^ (24 - d)) by (apply pow2_pos; lia).
    split; [apply Z.mul_le_mono_nonneg_r; lia|apply Z.mul_lt_mono_pos_r; lia]. }
  assert (Hsm : Zpos s = Zpos m' * 2 ^ (d - 1)).
  { rewrite <- Hs, Hm', <- Z.mul_assoc, <- Z.pow_add_r by lia. do 2 f_equal. lia. }
  rewrite Hsm.
  rewrite (binary_round_aux_exact false m' (d - 1) (-23) Hdm') by lia.
  exists m', (-23 + (d - 1)). repeat split; try lia.
  rewrite Hm', <- Z.mul_assoc, <- Z.pow_add_r by lia. do 2 f_equal. lia.
Qed.

Lemma div_ge_one (fc fd : Float32.float) (c d : Z) :
  encodes fc c -> encodes fd d -> 1 <= d <= c -> ge_one (Float32.div fc fd).
Proof.
  intros (m1 & e1 & -> & Hd1 & He1 & Hv1) (m2 & e2 & -> & Hd2 & He2 & Hv2) Hcd.
  unfold Float32.div, SFdiv, SFdiv_core_binary, Float32.prec, Float32.emax.
  cbn [Zdigits2 xorb]. rewrite Hd1, Hd2, fexp32.
  replace (Z.min (Z.max (24 + e1 - (24 + e2) - 24) (-149)) (e1 - e2))
    with (e1 - e2 - 24) by lia.
  replace (e1 - e2 - (e1 - e2 - 24)) with 24 by lia.
  rewrite Z.shiftl_mul_pow2 by lia.
  pose proof (digits2_pos_bounds m1) as B1. rewrite Hd1 in B1.
  pose proof (digits2_pos_bounds m2) as B2. rewrite Hd2 in B2.
  change (2 ^ (24 - 1)) with 8388608 in *. change (2 ^ 24) with 16777216 in *.
  pose proof (Z_div_mod (Zpos m1 * 16777216) (Zpos m2) ltac:(lia)) as Hdiv.
  destruct (Z.div_eucl (Zpos m1 * 16777216) (Zpos m2)) as [q r].
  destruct Hdiv as [Hqr Hr].
  (* the quotient is at least 2^(24 + e2 - e1) *)
  assert (Hval : Zpos m2 * 2 ^ (e2 + 23) <= Zpos m1 * 2 ^ (e1 + 23)).
  { rewrite Hv1, Hv2. apply Z.mul_le_mono_nonneg_r; lia. }
  assert (Hq : 2 ^ (24 + e2 - e1) <= q).
  { assert (Hlow : Zpos m2 * 2 ^ (24 + e2 - e1) <= Zpos m1 * 16777216).
    { apply (Z.mul_le_mono_pos_r _ _ (2 ^ (e1 + 23))); [apply pow2_pos; lia|].
      rewrite <- !Z.mul_assoc, <- Z.pow_add_r by lia.
      replace (24 + e2 - e1 + (e1 + 23)) with ((e2 + 23) + 24) by lia.
      rewrite Z.pow_add_r by lia. change (2 ^ 24) with 16777216.
      rewrite (Z.mul_comm 16777216 (2 ^ (e1 + 23))), !Z.mul_assoc.
      apply Z.mul_le_mono_nonneg_r; lia. }
    assert (Hpos : 0 < 2 ^ (24 + e2 - e1)) by (apply pow2_pos; lia).
    destruct (Z.le_gt_cases (2 ^ (24 + e2 - e1)) q) as [|Hlt]; [assumption|exfalso].
    assert (Zpos m2 * (q + 1) <= Zpos m2 * 2 ^ (24 + e2 - e1))
      by (apply Z.mul_le_mono_nonneg_l; lia).
    lia. }
  assert (Hqpos : 0 < q) by (pose proof (pow2_pos (24 + e2 - e1) ltac:(lia)); lia).
  destruct (binary_round_aux_lower 149 false q (e1 - e2 - 24) (new_location (Zpos m2) r)
              ltac:(lia) Hqpos ltac:(lia)) as [Hinf|(m & e & Hfin & Hge & Hsc)].
  - unfold scaled.
    replace (2 ^ 149) with (2 ^ (24 + e2 - e1) * 2 ^ (e1 - e2 - 24 + 149))
      by (rewrite <- Z.pow_add_r by lia; f_equal; lia).
    apply Z.mul_le_mono_nonneg_r; [apply Z.lt_le_incl, pow2_pos; lia|exact Hq].
  - left. exact Hinf.
  - right. exists m, e. auto.
Qed.

(** The two shapes of a canonical pair: 24 digits, or fewer digits at
    the smallest exponent. *)
Lemma bounded_cases (m : positive) (e : Z) :
  bounded 24 128 m e = true ->
  fexp 24 128 (Zpos (digits2_pos m) + e) = e /\ -149 <= e <= 104 /\
  Zpos (digits2_pos m) <= 24.
Proof.
  unfold bounded, canonical_mantissa. intros H.
  apply andb_prop in H as [Hc He]. apply Z.eqb_eq in Hc. apply Z.leb_le in He.
  rewrite fexp32 in *. lia.
Qed.

(** A canonical mantissa shifted left by [n] digits rounds back to itself. *)
Lemma binary_round_aux_canonical (sx : bool) (m : positive) (n e : Z) :
  bounded 24 128 m e = true -> 0 <= n ->
  binary_round_aux 24 128 sx (Zpos m * 2 ^ n) (e - n) loc_Exact = S754_finite sx m e.
Proof.
  intros Hb Hn. destruct (bounded_cases m e Hb) as (Hc & He & Hd24).
  pose proof (digits2_pos_bounds m) as Hm.
  set (d := Zpos (digits2_pos m)) in *.
  assert (Hd : 1 <= d) by (subst d; lia).
  assert (Hpow : 0 < 2 ^ n) by (apply pow2_pos; lia).
  assert (Hstep2 : shr_fexp 24 128 (Zpos m) e loc_Exact
                   = (Build_shr_record (Zpos m) false false, e)).
  { unfold shr_fexp. cbn [Zdigits2]. fold d. rewrite Hc, Z.sub_diag. reflexivity. }
  assert (Hstep1 : shr_fexp 24 128 (Zpos m * 2 ^ n) (e - n) loc_Exact
                   = (Build_shr_record (Zpos m) false false, e)).
  { unfold shr_fexp.
    destruct (Zpos m * 2 ^ n) as [|p|p] eqn:Hp; try lia.
    cbn [Zdigits2]. rewrite (digits2_pos_unique p (d + n)).
    2:{ rewrite <- Hp. replace (d + n - 1) with (d - 1 + n) by lia.
        rewrite !Z.pow_add_r by lia.
        split; [apply Z.mul_le_mono_nonneg_r; lia|apply Z.mul_lt_mono_pos_r; lia]. }
    replace (d + n + (e - n)) with (d + e) by lia. rewrite Hc.
    replace (e - (e - n)) with n by lia.
    unfold shr. cbn [shr_record_of_loc].
    destruct n as [|n'|n']; try lia.
    - f_equal; [|lia]. f_equal. lia.
    - rewrite <- Hp. rewrite shr_iter_exact by lia. f_equal. lia. }
  unfold binary_round_aux. rewrite Hstep1. cbn [shr_m loc_of_shr_record round_nearest_even].
  rewrite Hstep2. cbn [shr_m].
  replace (e <=? 128 - 24) with true by (symmetry; apply Z.leb_le; lia).
  reflexivity.
Qed.

(** Multiplying by 1.0 changes no [float]. *)
Lemma mul_one_r (x : Float32.float) : valid x = true -> Float32.mul x Float32.one = x.
Proof.
  intros Hx. rewrite one_eq. destruct x as [s|s| |s m e]; try reflexivity.
  - cbn. now destruct s.
  - cbn. now destruct s.
  - unfold Float32.mul, SFmul, Float32.prec, Float32.emax.
    rewrite xorb_false_r, Pos2Z.inj_mul.
    change (Zpos 8388608) with (2 ^ 23).
    replace (e + -23) with (e - 23) by lia.
    apply binary_round_aux_canonical; [exact Hx|lia].
Qed.

(** A shifted mantissa has at most 24 digits. *)
Lemma shr_fexp_upper (m e : Z) (l : location) :
  0 <= m -> 0 <= shr_m (fst (shr_fexp 24 128 m e l)) < 2 ^ 24.
Proof.
  intros Hm. unfold shr_fexp, shr.
  destruct m as [|p|p]; try lia.
  - cbn [Zdigits2]. destruct (fexp 24 128 (0 + e) - e) as [|n|n]; cbn [fst];
      rewrite ?shr_iter_m; rewrite ?shr_record_of_loc_m; try lia.
    rewrite Z.div_0_l by (apply Z.pow_nonzero; lia). lia.
  - cbn [Zdigits2]. rewrite fexp32.
    pose proof (digits2_pos_bounds p) as [Hlo Hhi].
    set (d := Zpos (digits2_pos p)) in *.
    destruct (Z.max (d + e - 24) (-149) - e) as [|n|n] eqn:Hn; cbn [fst];
      rewrite ?shr_iter_m; rewrite ?shr_record_of_loc_m; try lia.
    + assert (2 ^ d <= 2 ^ 24) by (apply Z.pow_le_mono_r; lia). lia.
    + split; [apply Z.div_pos; [lia|apply pow2_pos; lia]|].
      apply Z.div_lt_upper_bound; [apply pow2_pos; lia|].
      rewrite <- Z.pow_add_r by lia.
      assert (2 ^ d <= 2 ^ (Zpos n + 24)) by (apply Z.pow_le_mono_r; lia). lia.
    + assert (2 ^ d <= 2 ^ 24) by (apply Z.pow_le_mono_r; lia). lia.
Qed.

(** What a rounding returns: a zero, an infinity, or a finite number of
    at most 24 digits, each with the sign it was given. *)
Lemma binary_round_aux_shape (sx : bool) (mx ex : Z) (lx : location) :
  0 <= mx ->
  binary_round_aux 24 128 sx mx ex lx = S754_zero sx \/
  binary_round_aux 24 128 sx mx ex lx = S754_infinity sx \/
  exists m e, binary_round_aux 24 128 sx mx ex lx = S754_finite sx m e /\
              Zpos m < 2 ^ 24.
Proof.
  intros Hm. unfold binary_round_aux.
  pose proof (shr_fexp_upper mx ex lx Hm) as H1.
  destruct (shr_fexp 24 128 mx ex lx) as [mrs' e']; cbn [fst] in H1.
  set (m1 := round_nearest_even (shr_m mrs') (loc_of_shr_record mrs')).
  pose proof (round_nearest_even_ge (shr_m mrs') (loc_of_shr_record mrs')) as Hge.
  fold m1 in Hge.
  pose proof (shr_fexp_upper m1 e' loc_Exact ltac:(lia)) as H2.
  destruct (shr_fexp 24 128 m1 e' loc_Exact) as [mrs'' e'']; cbn [fst] in H2.
  destruct (shr_m mrs'') as [|m|m]; [left; reflexivity| |lia].
  destruct (e'' <=? 128 - 24); [right; right; exists m, e''; split; [reflexivity|lia]|].
  right; left; reflexivity.
Qed.

(** Addition does not depend on the order of its operands. *)
Lemma add_comm (x y : Float32.float) : Float32.add x y = Float32.add y x.
Proof.
  unfold Float32.add, SFadd.
  destruct x as [sx|sx| |sx mx ex], y as [sy|sy| |sy my ey];
    try reflexivity; try (destruct sx, sy; reflexivity).
  rewrite (Z.min_comm ey ex), Z.add_comm. reflexivity.
Qed.

(** The quotient of two finite numbers is a zero, an infinity or a
    finite number of at most 24 digits, of the product of the signs. *)
Lemma div_shape (s1 s2 : bool) (m1 m2 : positive) (e1 e2 : Z) :
  let q := Float32.div (S754_finite s1 m1 e1) (S754_finite s2 m2 e2) in
  q = S754_zero (xorb s1 s2) \/ q = S754_infinity (xorb s1 s2) \/
  exists m e, q = S754_finite (xorb s1 s2) m e /\ Zpos m < 2 ^ 24.
Proof.
  cbv zeta. unfold Float32.div, SFdiv, SFdiv_core_binary, Float32.prec, Float32.emax.
  match goal with |- context [Z.div_eucl ?a _] => set (m' := a) end.
  assert (Hm' : 0 <= m').
  { subst m'. destruct (_ - _ - _) as [|k|k]; try lia.
    rewrite Z.shiftl_mul_pow2 by lia. apply Z.mul_nonneg_nonneg; [lia|].
    apply Z.lt_le_incl, pow2_pos. lia. }
  pose proof (Z_div_mod m' (Zpos m2) ltac:(lia)) as Hdiv.
  destruct (Z.div_eucl m' (Zpos m2)) as [q r]. destruct Hdiv as [Hqr Hr].
  apply binary_round_aux_shape. nia.
Qed.

(** [std::min(q, 1.0f)] is 1.0 for every [q] of at most 24 digits that is
    at least 1. *)
Lemma std_min_ge_one (q : Float32.float) :
  ge_one q -> (forall m e, q = S754_finite false m e -> Zpos m < 2 ^ 24) ->
  Float32.std_min q Float32.one = Float32.one.
Proof.
  intros [->|(m & e & -> & He & Hv)] Hb; [reflexivity|].
  specialize (Hb m e eq_refl). rewrite one_eq.
  assert (Hlow : e <= 0 -> 2 ^ (- e) <= Zpos m).
  { intros He0. unfold scaled in Hv.
    assert (Hsplit : 2 ^ 149 = 2 ^ (- e) * 2 ^ (e + 149))
      by (rewrite <- Z.pow_add_r by lia; f_equal; lia).
    rewrite Hsplit in Hv.
    apply Z.mul_le_mono_pos_r in Hv; [exact Hv|apply pow2_pos; lia]. }
  clear Hv.
  unfold Float32.std_min, Float32.ltb, SFltb, SFcompare.
  change (Pos.compare_cont Eq 8388608 m) with (Pos.compare 8388608 m).
  destruct (Z.compare_spec (-23) e) as [<-|Hlt|Hgt]; [|reflexivity|exfalso].
  - specialize (Hlow ltac:(lia)). change (2 ^ (- -23)) with 8388608 in Hlow.
    destruct (Pos.compare_spec 8388608 m) as [<-|Hlt|Hgt]; try reflexivity.
    exfalso. apply Pos2Z.pos_lt_pos in Hgt.
    exact (Z.lt_irrefl _ (Z.le_lt_trans _ _ _ Hlow Hgt)).
  - specialize (Hlow ltac:(lia)).
    assert (2 ^ 24 <= 2 ^ (- e)) by (apply Z.pow_le_mono_r; lia). lia.
Qed.

(** The sign given to a rounding only shows in the sign of its result. *)
Lemma binary_round_sign (s : bool) (p m : positive) (e e' : Z) :
  binary_round 24 128 false p e = S754_finite false m e' ->
  binary_round 24 128 s p e = S754_finite s m e'.
Proof.
  unfold binary_round, binary_round_aux.
  destruct (shl_align p e _) as [mz ez].
  destruct (shr_fexp 24 128 (Zpos mz) ez loc_Exact) as [mrs1 e1].
  destruct (shr_fexp 24 128 _ e1 loc_Exact) as [mrs2 e2].
  destruct (shr_m mrs2) as [|q|q]; try discriminate.
  destruct (e2 <=? 128 - 24); [|discriminate].
  intros H. injection H as -> ->. reflexivity.
Qed.

(** An integer of at most 24 bits other than 0 converts to the normal
    number of its magnitude, with its sign. *)
Lemma of_Z_signed (v : Z) :
  v <> 0 -> Z.abs v <= 2 ^ 24 ->
  exists m e, Float32.of_Z v = S754_finite (v <? 0) m e /\
              encodes (S754_finite false m e) (Z.abs v).
Proof.
  intros Hv Habs.
  destruct (encodes_of_Z (Z.abs v) ltac:(lia)) as (m & e & Hof & Henc).
  exists m, e. split; [|rewrite <- Hof; apply encodes_of_Z; lia].
  destruct v as [|p|p]; [contradiction|exact Hof|].
  cbn [Z.abs] in Hof. unfold Float32.of_Z, binary_normalize in *.
  apply binary_round_sign. exact Hof.
Qed.

(** Dividing a normal number by [32768.0f] only lowers its exponent. *)
Lemma div_32768 (s : bool) (m : positive) (e : Z) :
  Zpos (digits2_pos m) = 24 -> -23 <= e <= 1 ->
  Float32.div (S754_finite s m e) (Float32.of_Z 32768) = S754_finite s m (e - 15).
Proof.
  intros Hd He.
  change (Float32.of_Z 32768) with (S754_finite false 8388608 (-8)).
  unfold Float32.div, SFdiv, SFdiv_core_binary, Float32.prec, Float32.emax.
  cbn [Zdigits2]. rewrite Hd. change (Zpos (digits2_pos 8388608)) with 24.
  rewrite fexp32, xorb_false_r.
  replace (Z.min (Z.max (24 + e - (24 + -8) - 24) (-149)) (e - -8)) with (e - 16) by lia.
  replace (e - -8 - (e - 16)) with 24 by lia.
  rewrite Z.shiftl_mul_pow2 by lia. change (2 ^ 24) with 16777216.
  pose proof (Z_div_mod (Zpos m * 16777216) 8388608 ltac:(lia)) as Hdiv.
  destruct (Z.div_eucl (Zpos m * 16777216) 8388608) as [q r]. destruct Hdiv as [Hqr Hr].
  assert (r = 0) as -> by lia. assert (q = Zpos m * 2 ^ 1) as -> by lia.
  change (new_location 8388608 0) with loc_Exact.
  rewrite (binary_round_aux_exact s m 1 (e - 16) Hd) by lia. f_equal. lia.
Qed.

(** Multiplying a normal number by [32768.0f] only raises its exponent. *)
Lemma mul_32768 (s : bool) (m : positive) (e : Z) :
  Zpos (digits2_pos m) = 24 -> -40 <= e <= 1 ->
  Float32.mul (S754_finite s m e) (Float32.of_Z 32768) = S754_finite s m (e + 15).
Proof.
  intros Hd He.
  change (Float32.of_Z 32768) with (S754_finite false 8388608 (-8)).
  unfold Float32.mul, SFmul, Float32.prec, Float32.emax.
  rewrite xorb_false_r, Pos2Z.inj_mul. change (Zpos 8388608) with (2 ^ 23).
  rewrite (binary_round_aux_exact s m 23 (e + -8) Hd) by lia. f_equal. lia.
Qed.

Lemma round_nearest_even_le (m : Z) (l : location) : round_nearest_even m l <= m + 1.
Proof.
  destruct l as [|[| |]]; cbn [round_nearest_even]; try lia.
  destruct (Z.even m); lia.
Qed.

Lemma pow2_split (b e : Z) : 0 <= e -> e <= b -> 2 ^ b = 2 ^ (b - e) * 2 ^ e.
Proof. intros. rewrite <- Z.pow_add_r by lia. f_equal. lia. Qed.

(** One shift of a mantissa whose value stays below [2^b]: the exponent
    does not pass [b - 24] and the value does not grow. *)
Lemma shr_fexp_below (M E b : Z) (l : location) :
  0 <= M -> -149 <= b - 24 -> E <= b - 24 -> M < 2 ^ (b - E) ->
  E <= snd (shr_fexp 24 128 M E l) <= b - 24 /\
  0 <= shr_m (fst (shr_fexp 24 128 M E l)) /\
  shr_m (fst (shr_fexp 24 128 M E l)) * 2 ^ (snd (shr_fexp 24 128 M E l) - E) <= M.
Proof.
  intros HM Hb HE Hlt. unfold shr_fexp, shr. rewrite fexp32.
  assert (Hd : Zdigits2 M + E <= b).
  { destruct M as [|p|p]; cbn [Zdigits2]; try lia.
    pose proof (digits2_pos_bounds p) as [Hlo _].
    destruct (Z.le_gt_cases (Zpos (digits2_pos p) + E) b) as [|Hgt]; [assumption|exfalso].
    assert (2 ^ (b - E) <= 2 ^ (Zpos (digits2_pos p) - 1)) by (apply Z.pow_le_mono_r; lia).
    lia. }
  destruct (Z.max (Zdigits2 M + E - 24) (-149) - E) as [|n|n] eqn:Hn; cbn [fst snd];
    rewrite ?shr_iter_m; rewrite ?shr_record_of_loc_m; try lia;
    rewrite ?Z.sub_diag, ?Z.mul_1_r; try lia.
  replace (E + Zpos n - E) with (Zpos n) by lia.
  split; [lia|]. split; [apply Z.div_pos; [lia|apply pow2_pos; lia]|].
  rewrite Z.mul_comm. apply Z.mul_div_le. apply pow2_pos. lia.
Qed.

(** Rounding a value that stays below [2^b] by more than one unit of the
    last place gives a zero or a finite number below [2^b]. *)
Lemma binary_round_aux_below (sx : bool) (M E b : Z) (l : location) :
  0 <= M -> -149 <= b - 24 -> b <= 128 -> E <= b - 24 ->
  M + 2 ^ (b - 24 - E) < 2 ^ (b - E) ->
  binary_round_aux 24 128 sx M E l = S754_zero sx \/
  exists m e, binary_round_aux 24 128 sx M E l = S754_finite sx m e /\
              Zpos m < 2 ^ (b - e) /\ e <= b - 24.
Proof.
  intros HM Hb Hb' HE Hlt. unfold binary_round_aux.
  assert (Hpos : 0 < 2 ^ (b - 24 - E)) by (apply pow2_pos; lia).
  destruct (shr_fexp_below M E b l HM Hb HE ltac:(lia)) as (He1 & Hm1 & Hv1).
  destruct (shr_fexp 24 128 M E l) as [mrs1 e1]; cbn [fst snd] in *.
  set (m1 := round_nearest_even (shr_m mrs1) (loc_of_shr_record mrs1)).
  pose proof (round_nearest_even_ge (shr_m mrs1) (loc_of_shr_record mrs1)) as Hge.
  pose proof (round_nearest_even_le (shr_m mrs1) (loc_of_shr_record mrs1)) as Hle.
  fold m1 in Hge, Hle.
  assert (Hm1' : m1 < 2 ^ (b - e1)).
  { assert (Hstep : 2 ^ (e1 - E) <= 2 ^ (b - 24 - E)) by (apply Z.pow_le_mono_r; lia).
    assert (Hp1 : 0 < 2 ^ (e1 - E)) by (apply pow2_pos; lia).
    apply (Z.mul_lt_mono_pos_r (2 ^ (e1 - E))); [exact Hp1|].
    rewrite <- Z.pow_add_r by lia. replace (b - e1 + (e1 - E)) with (b - E) by lia.
    nia. }
  destruct (shr_fexp_below m1 e1 b loc_Exact ltac:(lia) Hb ltac:(lia) Hm1')
    as (He2 & Hm2 & Hv2).
  destruct (shr_fexp 24 128 m1 e1 loc_Exact) as [mrs2 e2]; cbn [fst snd] in *.
  destruct (shr_m mrs2) as [|m|m] eqn:Hs2; [left; reflexivity| |lia].
  replace (e2 <=? 128 - 24) with true by (symmetry; apply Z.leb_le; lia).
  right. exists m, e2. split; [reflexivity|]. split; [|lia].
  assert (Hp2 : 0 < 2 ^ (e2 - e1)) by (apply pow2_pos; lia).
  apply (Z.mul_lt_mono_pos_r (2 ^ (e2 - e1))); [exact Hp2|].
  rewrite <- Z.pow_add_r by lia. replace (b - e2 + (e2 - e1)) with (b - e1) by lia.
  lia.
Qed.

End Float32Facts.

(* ------------------------------------------------------------------ *)
(** ** Loops over sample buffers                                       *)

Section SampleLoops.
Context {A : Type}.

(** A loop whose iteration [i] rewrites slot [i] alone has rewritten
    exactly the slots of its index range. *)
Lemma foldl_slot_loop (body : list A -> nat -> list A) (upd : nat -> A -> A) :
  (forall d i j, body d i !! j = if decide (j = i) then upd j <$> d !! j else d !! j) ->
  forall n first d j,
    foldl body d (seq first n) !! j =
      if decide (first <= j < first + n) then upd j <$> d !! j else d !! j.
Proof.
  intros Hbody. induction n as [|n IH]; intros first d j; cbn.
  - destruct (decide _); [lia|reflexivity].
  - rewrite IH, !Hbody.
    repeat destruct (decide _); try lia; try reflexivity.
Qed.

(** A loop over the start indices [0, 8, ...] whose iteration [i]
    rewrites the eight slots from [i] on has rewritten the whole
    8-aligned prefix; [N] bounds the indices the loop may touch. *)
Lemma foldl_chunk_loop (N : nat) (body : list A -> nat -> list A) (upd : nat -> A -> A) :
  (forall d i, i + 8 <= N -> N <= length d -> length (body d i) = length d) ->
  (forall d i j, i + 8 <= N -> N <= length d ->
     body d i !! j = if decide (i <= j < i + 8) then upd j <$> d !! j else d !! j) ->
  forall m d, 8 * m <= N -> N <= length d ->
    length (foldl body d ((fun k => 8 * k) <$> seq 0 m)) = length d /\
    forall j, foldl body d ((fun k => 8 * k) <$> seq 0 m) !! j =
      if decide (j < 8 * m) then upd j <$> d !! j else d !! j.
Proof.
  intros Hlen Hbody. induction m as [|m IH]; intros d Hm Hd.
  - cbn. split; [reflexivity|]. intros j. destruct (decide _); [lia|reflexivity].
  - rewrite seq_S, fmap_app, foldl_app. cbn [fmap list_fmap foldl Nat.add].
    destruct (IH d ltac:(lia) Hd) as [IHlen IHlook].
    split.
    + rewrite Hlen; [exact IHlen|lia|]. rewrite IHlen. lia.
    + intros j. rewrite Hbody by (rewrite ?IHlen; lia).
      rewrite IHlook.
      repeat destruct (decide _); try lia; reflexivity.
Qed.

End SampleLoops.

Section AvxFacts.
Import Avx.

Lemma storeu_length (mem : list Float32.float) (i : nat) (v : m256) :
  i + 8 <= length mem -> length v = 8 -> length (storeu_ps mem i v) = length mem.
Proof.
  intros Hi Hv. unfold storeu_ps.
  rewrite !length_app, length_take, length_drop, Hv. lia.
Qed.

Lemma storeu_lookup (mem : list Float32.float) (i j : nat) (v : m256) :
  i + 8 <= length mem -> length v = 8 ->
  storeu_ps mem i v !! j = if decide (i <= j < i + 8) then v !! (j - i) else mem !! j.
Proof.
  intros Hi Hv. unfold storeu_ps.
  destruct (decide (j < i)) as [Hlt|Hge].
  - rewrite lookup_app_l by (rewrite length_take; lia).
    rewrite lookup_take_lt by lia. destruct (decide _); [lia|reflexivity].
  - rewrite lookup_app_r by (rewrite length_take; lia).
    rewrite length_take, Nat.min_l by lia.
    destruct (decide (i <= j < i + 8)) as [Hin|Hout].
    + rewrite lookup_app_l by lia. reflexivity.
    + rewrite lookup_app_r by lia. rewrite Hv, lookup_drop. f_equal. lia.
Qed.

Lemma loadu_lookup (mem : list Float32.float) (i k : nat) :
  k < 8 -> loadu_ps mem i !! k = mem !! (i + k).
Proof.
  intros Hk. unfold loadu_ps. rewrite lookup_take_lt by lia. apply lookup_drop.
Qed.

Lemma loadu_length (mem : list Float32.float) (i : nat) :
  i + 8 <= length mem -> length (loadu_ps mem i) = 8.
Proof. intros Hi. unfold loadu_ps. rewrite length_take, length_drop. lia. Qed.

End AvxFacts.

(* ------------------------------------------------------------------ *)
(** ** GainNode                                                        *)

Section GainNodeFacts.
Import GainNode.

Lemma gain_scalar_loop_lookup (g : Float32.float) (first last j : nat)
    (data : list Float32.float) :
  scalar_loop g first last data !! j =
    if decide (first <= j < last) then (fun x => Float32.mul x g) <$> data !! j
    else data !! j.
Proof.
  unfold scalar_loop.
  rewrite (foldl_slot_loop _ (fun _ x => Float32.mul x g)).
  - repeat destruct (decide _); try lia; reflexivity.
  - intros d i k. rewrite list_lookup_alter.
    repeat destruct (decide _); subst; try lia; try reflexivity; congruence.
Qed.

Lemma gain_avx_step_lookup (g : Float32.float) (d : list Float32.float) (i j : nat) :
  i + 8 <= length d ->
  Avx.storeu_ps d i (Avx.mul_ps (Avx.loadu_ps d i) (Avx.set1_ps g)) !! j =
    if decide (i <= j < i + 8) then (fun x => Float32.mul x g) <$> d !! j else d !! j.
Proof.
  intros Hi. rewrite storeu_lookup; [|assumption|].
  - destruct (decide _) as [Hin|]; [|reflexivity].
    unfold Avx.mul_ps, Avx.set1_ps.
    rewrite lookup_zip_with, loadu_lookup, lookup_replicate_2 by lia.
    replace (i + (j - i)) with j by lia.
    destruct (d !! j); reflexivity.
  - unfold Avx.mul_ps, Avx.set1_ps.
    rewrite length_zip_with, loadu_length, length_replicate by assumption. reflexivity.
Qed.

Lemma gain_avx_step_length (g : Float32.float) (d : list Float32.float) (i : nat) :
  i + 8 <= length d ->
  length (Avx.storeu_ps d i (Avx.mul_ps (Avx.loadu_ps d i) (Avx.set1_ps g))) = length d.
Proof.
  intros Hi. apply storeu_length; [assumption|].
  unfold Avx.mul_ps, Avx.set1_ps.
  rewrite length_zip_with, loadu_length, length_replicate by assumption. reflexivity.
Qed.

Lemma gain_scalar_data (node : t) (buffer : AudioBuffer.t) :
  AudioBuffer.data (processImpl_scalar node buffer) =
    (fun x => Float32.mul x (gain node)) <$> AudioBuffer.data buffer.
Proof.
  unfold processImpl_scalar; cbn. apply list_eq; intros j.
  rewrite gain_scalar_loop_lookup, list_lookup_fmap.
  destruct (decide _) as [|Hout]; [reflexivity|].
  unfold AudioBuffer.size in Hout.
  rewrite (lookup_ge_None_2 (AudioBuffer.data buffer) j) by lia. reflexivity.
Qed.

Lemma gain_avx_data (node : t) (buffer : AudioBuffer.t) :
  AudioBuffer.data (processImpl_avx node buffer) =
    (fun x => Float32.mul x (gain node)) <$> AudioBuffer.data buffer.
Proof.
  unfold processImpl_avx; cbn zeta; cbn [AudioBuffer.with_data AudioBuffer.data].
  unfold Avx.steps, AudioBuffer.size.
  set (d := AudioBuffer.data buffer). set (g := gain node).
  rewrite Nat.div_mul by lia.
  pose proof (Nat.Div0.mul_div_le (length d) 8) as Hle.
  destruct (foldl_chunk_loop (length d)
              (fun d i => Avx.storeu_ps d i (Avx.mul_ps (Avx.loadu_ps d i) (Avx.set1_ps g)))
              (fun _ x => Float32.mul x g)
              (fun d' i Hi Hd' => gain_avx_step_length g d' i ltac:(lia))
              (fun d' i j Hi Hd' => gain_avx_step_lookup g d' i j ltac:(lia))
              (length d / 8) d Hle (Nat.le_refl _)) as [Hlen Hlook].
  apply list_eq; intros j.
  rewrite gain_scalar_loop_lookup, Hlook, list_lookup_fmap.
  rewrite (Nat.mul_comm (length d / 8) 8).
  repeat destruct (decide _); try lia; try reflexivity.
  rewrite (lookup_ge_None_2 d j) by lia. reflexivity.
Qed.

Lemma gain_processImpl_data (avx : bool) (node : t) (buffer : AudioBuffer.t) :
  AudioBuffer.data (processImpl avx node buffer) =
    (fun x => Float32.mul x (gain node)) <$> AudioBuffer.data buffer.
Proof.
  destruct avx; cbn [processImpl]; [apply gain_avx_data|apply gain_scalar_data].
Qed.

(** C8. The vectorized body of [GainNode::processImpl] (8-lane steps
    over the width-aligned prefix, scalar loop over the remainder) and
    the pure scalar body compute the same buffer: in both, sample [i] of
    the output is sample [i] of the input times the gain, for every [i];
    the two outputs are equal sample by sample, hence agree within any
    epsilon. *)
Theorem gain_avx_scalar_agree (node : GainNode.t) (buffer : AudioBuffer.t) :
  (forall (avx : bool) (i : nat),
     AudioBuffer.data (GainNode.processImpl avx node buffer) !! i =
       (fun x => Float32.mul x (GainNode.gain node)) <$> AudioBuffer.data buffer !! i) /\
  GainNode.processImpl_avx node buffer = GainNode.processImpl_scalar node buffer /\
  (forall (eps : Float32.float) (i : nat) (x y : Float32.float),
     AudioBuffer.data (GainNode.processImpl_avx node buffer) !! i = Some x ->
     AudioBuffer.data (GainNode.processImpl_scalar node buffer) !! i = Some y ->
     Float32.agree_within eps x y).
Proof.
  pose proof (gain_avx_data node buffer) as Havx.
  pose proof (gain_scalar_data node buffer) as Hsc.
  repeat apply conj.
  - intros [|] i; cbn [processImpl]; rewrite ?Havx, ?Hsc; apply list_lookup_fmap.
  - unfold processImpl_avx, processImpl_scalar in *.
    cbn [AudioBuffer.with_data AudioBuffer.data] in *. cbn zeta in Havx.
    unfold AudioBuffer.with_data. f_equal. congruence.
  - intros eps i x y Hx Hy. left. rewrite Havx in Hx. rewrite Hsc in Hy. congruence.
Qed.

Lemma with_data_eq (b : AudioBuffer.t) (d : list Float32.float) :
  d = AudioBuffer.data b -> AudioBuffer.with_data b d = b.
Proof. intros ->. destruct b; reflexivity. Qed.

Lemma gain_processImpl_eq (avx : bool) (node : t) (buffer : AudioBuffer.t) :
  processImpl avx node buffer =
    AudioBuffer.with_data buffer
      ((fun x => Float32.mul x (gain node)) <$> AudioBuffer.data buffer).
Proof.
  pose proof (gain_processImpl_data avx node buffer) as Hd.
  destruct avx; cbn [processImpl] in *;
    unfold processImpl_avx, processImpl_scalar, AudioBuffer.with_data in *;
    cbn zeta in *; cbn [AudioBuffer.data] in Hd; f_equal; exact Hd.
Qed.

(** X12. A gain of 1.0 (the constructor's default) hands the buffer back
    unchanged, sample for sample (zeros keep their sign, infinities and
    NaN stay what they are), with either build. *)
Theorem gain_unity_identity (avx : bool) (buffer : AudioBuffer.t) :
  Forall (fun x => Float32.valid x = true) (AudioBuffer.data buffer) ->
  GainNode.process avx (GainNode.mk Float32.one) buffer = buffer.
Proof.
  intros Hvalid. unfold process. rewrite gain_processImpl_eq. cbn [gain].
  apply with_data_eq. apply list_eq. intros i. rewrite list_lookup_fmap.
  destruct (AudioBuffer.data buffer !! i) as [x|] eqn:Hx; [|reflexivity].
  cbn. f_equal. apply mul_one_r.
  exact (proj1 (Forall_lookup _ _) Hvalid i x Hx).
Qed.

(** [GainNode] keeps no state between samples: processing a run of
    samples block by block leaves the same samples as processing it in
    one call, with either build and for any split point; the number of
    samples and the channel count are kept. *)
Lemma gain_block_independent (avx : bool) (node : GainNode.t)
    (block1 block2 : list Float32.float) (c : nat) :
  AudioBuffer.data (GainNode.process avx node (AudioBuffer.mk (block1 ++ block2) c)) =
    AudioBuffer.data (GainNode.process avx node (AudioBuffer.mk block1 c)) ++
    AudioBuffer.data (GainNode.process avx node (AudioBuffer.mk block2 c)) /\
  AudioBuffer.size (GainNode.process avx node (AudioBuffer.mk block1 c)) = length block1 /\
  AudioBuffer.channels (GainNode.process avx node (AudioBuffer.mk block1 c)) = c.
Proof.
  unfold process, AudioBuffer.size. rewrite !gain_processImpl_eq.
  cbn [AudioBuffer.with_data AudioBuffer.data AudioBuffer.channels].
  rewrite fmap_app, length_fmap. auto.
Qed.

End GainNodeFacts.

(** Instance of X12: the four samples of the unit test, through the
    vectorized build. *)
Lemma gain_unity_identity_witness :
  GainNode.process true (GainNode.mk Float32.one)
    (AudioBuffer.view [Float32.one; Fixtures.half; Float32.of_Z (-1); Float32.zero])
  = AudioBuffer.view [Float32.one; Fixtures.half; Float32.of_Z (-1); Float32.zero].
Proof.
  apply (gain_unity_identity true
           (AudioBuffer.view [Float32.one; Fixtures.half; Float32.of_Z (-1); Float32.zero])).
  repeat constructor.
Defined.

(* ------------------------------------------------------------------ *)
(** ** FadeNode                                                        *)

Section FadeNodeFacts.
Import FadeNode.

Lemma advance_0 (node : t) : advance 0 node = node.
Proof. destruct node; reflexivity. Qed.

Lemma advance_add (a b : nat) (node : t) : advance a (advance b node) = advance (b + a) node.
Proof.
  unfold advance; cbn [duration currentSample fadeIn]. f_equal.
  rewrite (Nat.add_comm b a). symmetry. apply Nat.iter_add.
Qed.

(** The loop of [processImpl], over the indices [first, first + n): the
    node has advanced by [n] samples and slot [j] of the range has been
    multiplied by the factor of its own position. *)
Lemma fade_loop (n : nat) : forall (first : nat) (node : t) (data : list Float32.float),
  (foldl step (node, data) (seq first n)).1 = advance n node /\
  forall j, (foldl step (node, data) (seq first n)).2 !! j =
    if decide (first <= j < first + n)
    then (fun x => Float32.mul x (factor (advance (j - first) node))) <$> data !! j
    else data !! j.
Proof.
  induction n as [|n IH]; intros first node data; cbn [seq foldl].
  - split; [symmetry; apply advance_0|].
    intros j. destruct (decide _); [lia|reflexivity].
  - cbn [step].
    set (node1 := mk (duration node) (Float32.add (currentSample node) Float32.one)
                    (fadeIn node)).
    assert (Hnode1 : node1 = advance 1 node) by reflexivity.
    destruct (IH (S first) node1
                (alter (fun x => Float32.mul x (factor node)) first data)) as [IHn IHd].
    split.
    + rewrite IHn, Hnode1, advance_add. reflexivity.
    + intros j. rewrite IHd, list_lookup_alter, Hnode1.
      destruct (decide (S first <= j < S first + n)) as [Hin|Hout];
        destruct (decide (first = j)) as [Heq|Hne];
        destruct (decide (first <= j < first + S n)) as [Hin'|Hout']; try lia.
      * rewrite advance_add. replace (1 + (j - S first))%nat with (j - first)%nat by lia.
        reflexivity.
      * subst j. rewrite Nat.sub_diag, advance_0. reflexivity.
      * reflexivity.
Qed.

Lemma processImpl_spec (node : t) (buffer : AudioBuffer.t) :
  (processImpl node buffer).1 = advance (AudioBuffer.size buffer) node /\
  forall i, AudioBuffer.data (processImpl node buffer).2 !! i =
    (fun x => Float32.mul x (factor (advance i node))) <$> AudioBuffer.data buffer !! i.
Proof.
  unfold processImpl.
  destruct (fade_loop (AudioBuffer.size buffer) 0 node (AudioBuffer.data buffer))
    as [Hn Hd].
  destruct (foldl step _ _) as [node' data']; cbn [fst snd] in *.
  split; [exact Hn|]. intros i. cbn [AudioBuffer.with_data AudioBuffer.data].
  rewrite Hd. destruct (decide _) as [|Hout].
  - rewrite Nat.sub_0_r. reflexivity.
  - unfold AudioBuffer.size in Hout.
    rewrite (lookup_ge_None_2 (AudioBuffer.data buffer) i) by lia. reflexivity.
Qed.

Local Open Scope Z_scope.

(** The position counter counts exactly up to [2^24] ... *)
Lemma counter_exact (p : nat) :
  Z.of_nat p <= 2 ^ 24 ->
  Nat.iter p (fun c => Float32.add c Float32.one) Float32.zero
    = Float32.of_Z (Z.of_nat p).
Proof.
  induction p as [|p IH]; intros Hp; [reflexivity|].
  rewrite Nat.iter_succ, IH by lia.
  destruct p as [|p]; [reflexivity|].
  apply (encodes_unique _ _ (Z.of_nat (S (S p)))).
  - replace (Z.of_nat (S (S p))) with (Z.of_nat (S p) + 1) by lia.
    apply add_one_encodes; [apply encodes_of_Z|]; lia.
  - apply encodes_of_Z. lia.
Qed.

(** ... and stays at [2^24] from then on. *)
Lemma counter_saturated (p : nat) :
  2 ^ 24 <= Z.of_nat p ->
  Nat.iter p (fun c => Float32.add c Float32.one) Float32.zero
    = Float32.of_Z (2 ^ 24).
Proof.
  induction p as [|p IH]; intros Hp; [cbn in Hp; lia|].
  destruct (Z.eq_dec (Z.of_nat (S p)) (2 ^ 24)) as [Heq|Hne].
  - rewrite counter_exact by lia. f_equal. exact Heq.
  - rewrite Nat.iter_succ, IH by lia. reflexivity.
Qed.

Lemma counter_encodes (p : nat) :
  (1 <= p)%nat ->
  Float32.encodes (Nat.iter p (fun c => Float32.add c Float32.one) Float32.zero)
    (Z.min (Z.of_nat p) (2 ^ 24)).
Proof.
  intros Hp. destruct (Z.le_gt_cases (Z.of_nat p) (2 ^ 24)) as [Hle|Hgt].
  - rewrite counter_exact, Z.min_l by lia. apply encodes_of_Z. lia.
  - rewrite counter_saturated, Z.min_r by lia. apply encodes_of_Z. lia.
Qed.

(** From position [d] on, the factor of a fade-out over [d] samples is
    exactly [+0]. *)
Lemma fade_out_factor_zero (d : Z) (p : nat) :
  1 <= d <= 2 ^ 24 -> d <= Z.of_nat p ->
  factor (advance p (create (Float32.of_Z d) false)) = Float32.zero.
Proof.
  intros Hd Hp. unfold factor, advance, create; cbn [fadeIn currentSample duration].
  apply sub_one_ge_one.
  apply (div_ge_one _ _ (Z.min (Z.of_nat p) (2 ^ 24)) d).
  - apply counter_encodes. lia.
  - apply encodes_of_Z. exact Hd.
  - lia.
Qed.

(** C6 (as stated, refuted).  A fade-out of duration 0 has the factor NaN
    at position 0, not 0.  A fade-out over [2^25] samples never reaches
    0: the single-precision position counter stops at [2^24], where
    adding 1 no longer changes it, so that at position [2^25] (and at
    every later one) the factor is 0.5. *)
Lemma fade_out_not_zero_at_duration :
  FadeNode.factor (FadeNode.advance 0 (FadeNode.create (Float32.of_Z 0) false))
    = S754_nan /\
  FadeNode.factor
    (FadeNode.advance (Z.to_nat (2 ^ 25)) (FadeNode.create (Float32.of_Z (2 ^ 25)) false))
    = Fixtures.half /\
  ~ (forall (d : Z) (p : nat), 0 <= d -> d <= Z.of_nat p ->
       FadeNode.factor (FadeNode.advance p (FadeNode.create (Float32.of_Z d) false))
         = Float32.zero).
Proof.
  assert (Hnan : factor (advance 0 (create (Float32.of_Z 0) false)) = S754_nan)
    by reflexivity.
  split; [exact Hnan|]. split.
  - unfold factor, advance, create; cbn [fadeIn currentSample duration].
    rewrite counter_saturated by (rewrite Z2Nat.id; lia).
    vm_compute. reflexivity.
  - intros Hclaim. specialize (Hclaim 0 0%nat ltac:(lia) ltac:(lia)).
    rewrite Hnan in Hclaim. discriminate.
Qed.

(** C6 (amended).  For a fade-out whose duration is an integer number
    [d] of samples with [1 <= d <= 2^24], started at position 0:
    - [process] multiplies the sample at position [p] (sample [i] of a
      buffer processed after [p] earlier samples, [p + i] in place of [p])
      by the factor of that position, and leaves the node at the position
      after the buffer, so that the position persists across calls;
    - the factor at position [p] is [max(1 - p/d, 0)], evaluated in single
      precision on the position counter, which holds [p] exactly as long
      as [p <= 2^24];
    - the factor is exactly [+0] at position [d] and at every later
      position;
    - [reset] brings the node back to position 0;
    - over 4 samples, an all-ones buffer of length 5 becomes
      [1.0, 0.75, 0.5, 0.25, 0.0]. *)
Theorem fade_out_ramp (d : Z) :
  1 <= d <= 2 ^ 24 ->
  let fade := FadeNode.create (Float32.of_Z d) false in
  (forall (p : nat) (buffer : AudioBuffer.t),
     (FadeNode.processImpl (FadeNode.advance p fade) buffer).1
       = FadeNode.advance (p + AudioBuffer.size buffer) fade /\
     forall i : nat,
       AudioBuffer.data (FadeNode.processImpl (FadeNode.advance p fade) buffer).2 !! i
       = (fun x => Float32.mul x (FadeNode.factor (FadeNode.advance (p + i) fade)))
           <$> AudioBuffer.data buffer !! i) /\
  (forall p : nat,
     FadeNode.factor (FadeNode.advance p fade)
       = Float32.std_max
           (Float32.sub Float32.one
              (Float32.div (FadeNode.currentSample (FadeNode.advance p fade))
                 (Float32.of_Z d)))
           Float32.zero) /\
  (forall p : nat, Z.of_nat p <= 2 ^ 24 ->
     FadeNode.currentSample (FadeNode.advance p fade) = Float32.of_Z (Z.of_nat p)) /\
  (forall p : nat, d <= Z.of_nat p ->
     FadeNode.factor (FadeNode.advance p fade) = Float32.zero) /\
  (forall p : nat, FadeNode.reset (FadeNode.advance p fade) = fade) /\
  (FadeNode.processImpl (FadeNode.create (Float32.of_Z 4) false)
     (AudioBuffer.view (replicate 5 Float32.one))).2
    = AudioBuffer.view
        [Float32.one; Fixtures.three_quarters; Fixtures.half; Fixtures.quarter;
         Float32.zero].
Proof.
  intros Hd fade. repeat apply conj.
  - intros p buffer.
    destruct (processImpl_spec (advance p fade) buffer) as [Hn Hs].
    split.
    + rewrite Hn. apply advance_add.
    + intros i. rewrite Hs, advance_add. reflexivity.
  - intros p. reflexivity.
  - intros p Hp. unfold advance, fade, create; cbn [currentSample].
    apply counter_exact. exact Hp.
  - intros p Hp. apply fade_out_factor_zero; assumption.
  - intros p. reflexivity.
  - vm_compute. reflexivity.
Qed.

(** Instance of C6: the fade-out over 4 samples of the unit tests. *)
Lemma fade_out_ramp_witness :
  1 <= 4 <= 2 ^ 24 /\
  FadeNode.factor (FadeNode.advance 4 (FadeNode.create (Float32.of_Z 4) false))
    = Float32.zero /\
  FadeNode.factor (FadeNode.advance 7 (FadeNode.create (Float32.of_Z 4) false))
    = Float32.zero.
Proof.
  assert (Hd : 1 <= 4 <= 2 ^ 24) by (split; discriminate).
  split; [exact Hd|].
  destruct (fade_out_ramp 4 Hd) as (_ & _ & _ & Hzero & _).
  split; apply Hzero; discriminate.
Defined.

Lemma fade_loop_length (n : nat) : forall (first : nat) (node : t)
    (data : list Float32.float),
  length (foldl step (node, data) (seq first n)).2 = length data.
Proof.
  induction n as [|n IH]; intros first node data; cbn [seq foldl]; [reflexivity|].
  cbn [step]. rewrite IH. apply length_alter.
Qed.

Lemma processImpl_size (node : t) (buffer : AudioBuffer.t) :
  length (AudioBuffer.data (processImpl node buffer).2) = length (AudioBuffer.data buffer).
Proof.
  unfold processImpl.
  pose proof (fade_loop_length (AudioBuffer.size buffer) 0 node (AudioBuffer.data buffer))
    as Hlen.
  destruct (foldl step _ _) as [node' data']. exact Hlen.
Qed.

Lemma processImpl_channels (node : t) (buffer : AudioBuffer.t) :
  (processImpl node buffer).2
    = AudioBuffer.with_data buffer (AudioBuffer.data (processImpl node buffer).2).
Proof.
  unfold processImpl. destruct (foldl step _ _) as [node' data']. reflexivity.
Qed.

(** From position [d] on, the factor of a fade-in over [d] samples is
    exactly 1. *)
Lemma fade_in_factor_one (d : Z) (p : nat) :
  1 <= d <= 2 ^ 24 -> d <= Z.of_nat p ->
  factor (advance p (create (Float32.of_Z d) true)) = Float32.one.
Proof.
  intros Hd Hp. unfold factor, advance, create; cbn [fadeIn currentSample duration].
  pose proof (counter_encodes p ltac:(lia)) as Hc.
  pose proof (encodes_of_Z d Hd) as Hden.
  apply std_min_ge_one.
  - apply (div_ge_one _ _ (Z.min (Z.of_nat p) (2 ^ 24)) d); [assumption..|lia].
  - destruct Hc as (m1 & e1 & -> & _). destruct Hden as (m2 & e2 & -> & _).
    intros m e Hq.
    destruct (div_shape false false m1 m2 e1 e2) as [Hz|[Hi|(m' & e' & Hf & Hb)]];
      cbv zeta in *; congruence.
Qed.

(** X13. A fade-in whose duration is an integer number [d] of samples
    with [1 <= d <= 2^24], started at position 0: the factor is exactly
    [+0] at position 0 and exactly 1 at position [d] and at every later
    position, so that from position [d] on [process] hands every buffer
    back unchanged. *)
Theorem fade_in_ramp (d : Z) :
  1 <= d <= 2 ^ 24 ->
  let fade := FadeNode.create (Float32.of_Z d) true in
  FadeNode.factor fade = Float32.zero /\
  (forall p : nat, d <= Z.of_nat p ->
     FadeNode.factor (FadeNode.advance p fade) = Float32.one) /\
  (forall (p : nat) (buffer : AudioBuffer.t), d <= Z.of_nat p ->
     Forall (fun x => Float32.valid x = true) (AudioBuffer.data buffer) ->
     (FadeNode.process (FadeNode.advance p fade) buffer).2 = buffer).
Proof.
  intros Hd fade. split; [|split].
  - unfold fade, factor, create; cbn [fadeIn currentSample duration].
    destruct (encodes_of_Z d Hd) as (m & e & -> & _). reflexivity.
  - intros p Hp. apply fade_in_factor_one; assumption.
  - intros p buffer Hp Hvalid. unfold process.
    rewrite processImpl_channels. apply with_data_eq. apply list_eq. intros i.
    destruct (processImpl_spec (advance p fade) buffer) as [_ Hs].
    rewrite Hs, advance_add. unfold fade. rewrite fade_in_factor_one by lia.
    destruct (AudioBuffer.data buffer !! i) as [x|] eqn:Hx; [|reflexivity].
    cbn. f_equal. apply mul_one_r. exact (proj1 (Forall_lookup _ _) Hvalid i x Hx).
Qed.

(** Instance of X13: a fade-in over 4 samples. *)
Lemma fade_in_ramp_witness :
  1 <= 4 <= 2 ^ 24 /\
  FadeNode.factor (FadeNode.create (Float32.of_Z 4) true) = Float32.zero /\
  FadeNode.factor (FadeNode.advance 4 (FadeNode.create (Float32.of_Z 4) true))
    = Float32.one.
Proof.
  assert (Hd : 1 <= 4 <= 2 ^ 24) by (split; discriminate).
  split; [exact Hd|].
  destruct (fade_in_ramp 4 Hd) as (Hzero & Hone & _).
  split; [exact Hzero|]. apply Hone. discriminate.
Defined.

(** X14. What a finished fade-out leaves of a sample: for a fade-out
    over [d] samples with [1 <= d <= 2^24], at position [d] and at every
    later position, [process] replaces a finite or zero sample by the zero
    of the sample's sign, and an infinite or NaN sample by NaN. *)
Theorem fade_out_silences (d : Z) (p i : nat) (buffer : AudioBuffer.t)
    (x : Float32.float) :
  1 <= d <= 2 ^ 24 -> d <= Z.of_nat p ->
  AudioBuffer.data buffer !! i = Some x ->
  AudioBuffer.data
    (FadeNode.process (FadeNode.advance p (FadeNode.create (Float32.of_Z d) false))
       buffer).2 !! i
  = Some match x with
         | S754_zero s | S754_finite s _ _ => S754_zero s
         | _ => S754_nan
         end.
Proof.
  intros Hd Hp Hx. unfold process.
  destruct (processImpl_spec (advance p (create (Float32.of_Z d) false)) buffer)
    as [_ Hs].
  rewrite Hs, advance_add, Hx, fade_out_factor_zero by lia. cbn. f_equal.
  destruct x as [s|s| |s m e]; try reflexivity; cbn; now destruct s.
Qed.

(** Instance of X14: the fifth sample of the unit test's fade-out. *)
Lemma fade_out_silences_witness :
  AudioBuffer.data
    (FadeNode.process (FadeNode.advance 4 (FadeNode.create (Float32.of_Z 4) false))
       (AudioBuffer.view [Float32.one; S754_infinity false])).2 !! 1%nat
  = Some S754_nan.
Proof.
  apply (fade_out_silences 4 4 1 (AudioBuffer.view [Float32.one; S754_infinity false])
           (S754_infinity false)).
  - split; discriminate.
  - discriminate.
  - reflexivity.
Defined.

(** X15. The position of a [FadeNode] carries over from one call to the
    next: processing a run of samples block by block, each call starting
    from the node the previous one left, gives the same samples and the
    same final node as processing the run in one call, for fade-ins and
    fade-outs and from any position. *)
Theorem fade_block_independent (node : FadeNode.t) (block1 block2 : list Float32.float)
    (c : nat) :
  let r1 := FadeNode.process node (AudioBuffer.mk block1 c) in
  let r2 := FadeNode.process r1.1 (AudioBuffer.mk block2 c) in
  FadeNode.process node (AudioBuffer.mk (block1 ++ block2) c) =
    (r2.1, AudioBuffer.mk (AudioBuffer.data r1.2 ++ AudioBuffer.data r2.2) c).
Proof.
  cbv zeta. unfold process.
  destruct (processImpl_spec node (AudioBuffer.mk block1 c)) as [Hn1 Hd1].
  destruct (processImpl_spec (processImpl node (AudioBuffer.mk block1 c)).1
              (AudioBuffer.mk block2 c)) as [Hn2 Hd2].
  destruct (processImpl_spec node (AudioBuffer.mk (block1 ++ block2) c)) as [Hn Hd].
  pose proof (processImpl_size node (AudioBuffer.mk block1 c)) as Hlen1.
  unfold AudioBuffer.size in *. cbn [AudioBuffer.data] in *.
  rewrite (surjective_pairing (processImpl node (AudioBuffer.mk (block1 ++ block2) c))).
  f_equal.
  - rewrite Hn, Hn2, Hn1, advance_add, length_app. reflexivity.
  - rewrite processImpl_channels. unfold AudioBuffer.with_data.
    cbn [AudioBuffer.channels]. f_equal.
    apply list_eq. intros i. rewrite Hd.
    destruct (decide (i < length block1)%nat) as [Hlt|Hge].
    + rewrite !lookup_app_l by lia. rewrite Hd1. reflexivity.
    + rewrite !lookup_app_r by lia. rewrite Hlen1, Hd2, Hn1, advance_add.
      replace (length block1 + (i - length block1))%nat with i by lia. reflexivity.
Qed.

End FadeNodeFacts.

(* ------------------------------------------------------------------ *)
(** ** MixerNode                                                       *)

Section MixerNodeFacts.
Import MixerNode.

Lemma mix_scalar_loop_lookup (in1 in2 : list Float32.float) (first last j : nat)
    (out : list Float32.float) :
  scalar_loop in1 in2 first last out !! j =
    if decide (first <= j < last)
    then (fun _ => Float32.add (in1 !!! j) (in2 !!! j)) <$> out !! j
    else out !! j.
Proof.
  unfold scalar_loop.
  rewrite (foldl_slot_loop _ (fun j _ => Float32.add (in1 !!! j) (in2 !!! j))).
  - repeat destruct (decide _); try lia; reflexivity.
  - intros d i k. rewrite list_lookup_insert.
    repeat destruct (decide _); subst; try lia; try reflexivity.
    + destruct (lookup_lt_is_Some_2 d i) as [x ->]; [lia|]. reflexivity.
    + rewrite (lookup_ge_None_2 d i) by lia. reflexivity.
Qed.

Lemma mix_avx_step_length (in1 in2 o : list Float32.float) (i : nat) :
  i + 8 <= length in1 -> i + 8 <= length in2 -> i + 8 <= length o ->
  length (Avx.storeu_ps o i (Avx.add_ps (Avx.loadu_ps in1 i) (Avx.loadu_ps in2 i)))
    = length o.
Proof.
  intros H1 H2 Ho. apply storeu_length; [assumption|].
  unfold Avx.add_ps. rewrite length_zip_with, !loadu_length by assumption. reflexivity.
Qed.

Lemma mix_avx_step_lookup (in1 in2 o : list Float32.float) (i j : nat) :
  i + 8 <= length in1 -> i + 8 <= length in2 -> i + 8 <= length o ->
  Avx.storeu_ps o i (Avx.add_ps (Avx.loadu_ps in1 i) (Avx.loadu_ps in2 i)) !! j =
    if decide (i <= j < i + 8)
    then (fun _ => Float32.add (in1 !!! j) (in2 !!! j)) <$> o !! j
    else o !! j.
Proof.
  intros H1 H2 Ho. rewrite storeu_lookup; [|assumption|].
  - destruct (decide _) as [Hin|]; [|reflexivity].
    unfold Avx.add_ps. rewrite lookup_zip_with, !loadu_lookup by lia.
    replace (i + (j - i)) with j by lia.
    rewrite (list_lookup_lookup_total_lt in1 j), (list_lookup_lookup_total_lt in2 j) by lia.
    destruct (lookup_lt_is_Some_2 o j) as [x ->]; [lia|]. reflexivity.
  - unfold Avx.add_ps. rewrite length_zip_with, !loadu_length by assumption. reflexivity.
Qed.

Lemma mix_scalar_body_lookup (d1 d2 o : list Float32.float) (n j : nat) :
  n <= length o ->
  scalar_loop d1 d2 0 n o !! j =
    if decide (j < n) then Some (Float32.add (d1 !!! j) (d2 !!! j)) else o !! j.
Proof.
  intros Ho. rewrite mix_scalar_loop_lookup.
  repeat destruct (decide _); try lia; try reflexivity.
  destruct (lookup_lt_is_Some_2 o j) as [x ->]; [lia|]. reflexivity.
Qed.

Lemma mix_avx_body_lookup (d1 d2 o : list Float32.float) (n j : nat) :
  n <= length d1 -> n <= length d2 -> n <= length o ->
  scalar_loop d1 d2 (n / 8 * 8) n
    (foldl (fun o i => Avx.storeu_ps o i (Avx.add_ps (Avx.loadu_ps d1 i) (Avx.loadu_ps d2 i)))
           o (Avx.steps (n / 8 * 8))) !! j =
    if decide (j < n) then Some (Float32.add (d1 !!! j) (d2 !!! j)) else o !! j.
Proof.
  intros H1 H2 Ho. unfold Avx.steps. rewrite Nat.div_mul by lia.
  pose proof (Nat.Div0.mul_div_le n 8) as Hle.
  destruct (foldl_chunk_loop n
              (fun o i => Avx.storeu_ps o i
                            (Avx.add_ps (Avx.loadu_ps d1 i) (Avx.loadu_ps d2 i)))
              (fun j _ => Float32.add (d1 !!! j) (d2 !!! j))
              (fun o' i Hi Ho' => mix_avx_step_length d1 d2 o' i
                                    ltac:(lia) ltac:(lia) ltac:(lia))
              (fun o' i j Hi Ho' => mix_avx_step_lookup d1 d2 o' i j
                                      ltac:(lia) ltac:(lia) ltac:(lia))
              (n / 8) o Hle Ho) as [Hlen Hlook].
  rewrite mix_scalar_loop_lookup, Hlook.
  rewrite (Nat.mul_comm (n / 8) 8).
  repeat destruct (decide _); try lia; try reflexivity;
    destruct (lookup_lt_is_Some_2 o j) as [x ->]; try lia; reflexivity.
Qed.

(** Both bodies of [mix] leave the same samples in [out]. *)
Lemma mix_data_lookup (avx : bool) (in1 in2 out : AudioBuffer.t) (j : nat) :
  AudioBuffer.data (mix avx in1 in2 out) !! j =
    if decide (j < len in1 in2 out)
    then Some (Float32.add (AudioBuffer.data in1 !!! j) (AudioBuffer.data in2 !!! j))
    else AudioBuffer.data out !! j.
Proof.
  assert (Hlen : len in1 in2 out <= AudioBuffer.size in1 /\
                 len in1 in2 out <= AudioBuffer.size in2 /\
                 len in1 in2 out <= AudioBuffer.size out) by (unfold len; lia).
  destruct Hlen as (H1 & H2 & Ho). unfold AudioBuffer.size in H1, H2, Ho.
  destruct avx; cbn [mix].
  - unfold mix_avx. cbn zeta. cbn [AudioBuffer.with_data AudioBuffer.data].
    apply mix_avx_body_lookup; assumption.
  - unfold mix_scalar. cbn [AudioBuffer.with_data AudioBuffer.data].
    apply mix_scalar_body_lookup; assumption.
Qed.

(** On three separate buffers, the vectorized body of [MixerNode::mix]
    and its scalar body compute the same output. *)
Lemma mix_bodies_equal_on_buffers (a b out : AudioBuffer.t) :
  MixerNode.mix_avx a b out = MixerNode.mix_scalar a b out.
Proof.
  pose proof (mix_data_lookup true a b out) as Havx.
  pose proof (mix_data_lookup false a b out) as Hsc.
  cbn [mix] in Havx, Hsc.
  assert (Hdata : AudioBuffer.data (mix_avx a b out) = AudioBuffer.data (mix_scalar a b out)).
  { apply list_eq; intros j. rewrite Havx, Hsc. reflexivity. }
  unfold mix_avx, mix_scalar in *. cbn zeta in *.
  unfold AudioBuffer.with_data in *. cbn [AudioBuffer.data] in Hdata.
  f_equal. exact Hdata.
Qed.

(** On three separate buffers, with either body of [MixerNode::mix]:
    [out[i] = a[i] + b[i]] for every index [i] below
    [min(len(a), len(b), len(out))], and every element of [out] at or
    beyond that minimum is left as it was; [out] keeps its size. *)
Lemma mix_prefix_sum_on_buffers (avx : bool) (a b out : AudioBuffer.t) (i : nat) :
  let n := AudioBuffer.size a `min` (AudioBuffer.size b `min` AudioBuffer.size out) in
  let out' := MixerNode.mix avx a b out in
  AudioBuffer.size out' = AudioBuffer.size out /\
  (i < n ->
     exists x y, AudioBuffer.data a !! i = Some x /\ AudioBuffer.data b !! i = Some y /\
                 AudioBuffer.data out' !! i = Some (Float32.add x y)) /\
  (n <= i -> AudioBuffer.data out' !! i = AudioBuffer.data out !! i).
Proof.
  cbv zeta. fold (len a b out).
  pose proof (mix_data_lookup avx a b out) as Hlook.
  split; [|split].
  - unfold AudioBuffer.size.
    destruct (Nat.lt_trichotomy (length (AudioBuffer.data (mix avx a b out)))
                (length (AudioBuffer.data out))) as [Hlt|[Heq|Hgt]]; [|exact Heq|]; exfalso.
    + set (k := length (AudioBuffer.data (mix avx a b out))) in *.
      pose proof (Hlook k) as Hk.
      rewrite (lookup_ge_None_2 _ k) in Hk by (subst k; lia).
      destruct (decide _); [discriminate|].
      destruct (lookup_lt_is_Some_2 (AudioBuffer.data out) k Hlt) as [x Hx]. congruence.
    + set (k := length (AudioBuffer.data out)) in *.
      pose proof (Hlook k) as Hk.
      destruct (lookup_lt_is_Some_2 _ k Hgt) as [x Hx]. rewrite Hx in Hk.
      destruct (decide (k < len a b out)) as [Hin|_]; [unfold len, AudioBuffer.size in Hin; lia|].
      rewrite (lookup_ge_None_2 (AudioBuffer.data out) k) in Hk by (subst k; lia).
      discriminate.
  - intros Hi. unfold len, AudioBuffer.size in Hi.
    exists (AudioBuffer.data a !!! i), (AudioBuffer.data b !!! i).
    rewrite Hlook. destruct (decide _) as [|Hout]; [|unfold len, AudioBuffer.size in Hout; lia].
    repeat split; [apply list_lookup_lookup_total_lt; lia..].
  - intros Hi. rewrite Hlook. destruct (decide _); [lia|reflexivity].
Qed.

Lemma mix_data_length (avx : bool) (in1 in2 out : AudioBuffer.t) :
  length (AudioBuffer.data (mix avx in1 in2 out)) = length (AudioBuffer.data out).
Proof.
  pose proof (mix_data_lookup avx in1 in2 out) as Hlook.
  assert (Hn : len in1 in2 out <= length (AudioBuffer.data out))
    by (unfold len, AudioBuffer.size; lia).
  destruct (Nat.lt_trichotomy (length (AudioBuffer.data (mix avx in1 in2 out)))
              (length (AudioBuffer.data out))) as [Hlt|[Heq|Hgt]]; [|exact Heq|]; exfalso.
  - pose proof (Hlook (length (AudioBuffer.data (mix avx in1 in2 out)))) as Hk.
    rewrite lookup_ge_None_2 in Hk by lia.
    destruct (decide _); [discriminate|].
    symmetry in Hk. apply lookup_ge_None_1 in Hk. lia.
  - pose proof (Hlook (length (AudioBuffer.data out))) as Hk.
    destruct (decide _); [lia|].
    rewrite (lookup_ge_None_2 (AudioBuffer.data out)) in Hk by lia.
    apply lookup_ge_None_1 in Hk. lia.
Qed.

Lemma mix_eq (avx : bool) (in1 in2 out : AudioBuffer.t) :
  mix avx in1 in2 out = AudioBuffer.with_data out (AudioBuffer.data (mix avx in1 in2 out)).
Proof. destruct avx; reflexivity. Qed.

(** X16. Mixing does not depend on the order of the two inputs:
    [mix(a, b, out)] and [mix(b, a, out)] leave the same samples in [out],
    with either build (all NaNs counted as one value). *)
Theorem mixer_mix_commutes (avx : bool) (a b out : AudioBuffer.t) :
  MixerNode.mix avx a b out = MixerNode.mix avx b a out.
Proof.
  rewrite (mix_eq avx a b out), (mix_eq avx b a out). f_equal.
  apply list_eq. intros i. rewrite !mix_data_lookup.
  unfold len. rewrite add_comm.
  repeat destruct (decide _); try lia; reflexivity.
Qed.

End MixerNodeFacts.

(* ------------------------------------------------------------------ *)
(** ** The nodes over one store                                        *)

Section LoopInvariants.
Context {St : Type} (P : nat -> St -> Prop) (body : St -> nat -> St).

(** A property that every iteration carries from its index to the next
    holds after the loop. *)
Lemma foldl_seq_inv (n : nat) : forall (first : nat) (s : St),
  P first s ->
  (forall i s', first <= i < first + n -> P i s' -> P (S i) (body s' i)) ->
  P (first + n) (foldl body s (seq first n)).
Proof.
  induction n as [|n IH]; intros first s H0 Hstep; cbn [seq foldl].
  - rewrite Nat.add_0_r. exact H0.
  - replace (first + S n) with (S first + n) by lia. apply IH.
    + apply Hstep; [lia|exact H0].
    + intros i s' Hi. apply Hstep. lia.
Qed.

Lemma foldl_range_inv (first last : nat) (s : St) :
  first <= last -> P first s ->
  (forall i s', first <= i < last -> P i s' -> P (S i) (body s' i)) ->
  P last (foldl body s (seq first (last - first))).
Proof.
  intros Hle H0 Hstep.
  pose proof (foldl_seq_inv (last - first) first s H0) as H.
  replace (first + (last - first)) with last in H by lia. apply H. exact Hstep.
Qed.

(** The same for the loop that advances by 8. *)
Lemma foldl_chunks_inv (k : nat) (s : St) :
  P 0 s ->
  (forall j s', j < k -> P (8 * j) s' -> P (8 * j + 8) (body s' (8 * j))) ->
  P (8 * k) (foldl body s ((fun j => 8 * j) <$> seq 0 k)).
Proof.
  induction k as [|k IH]; intros H0 Hstep.
  - exact H0.
  - rewrite seq_S, fmap_app, foldl_app. cbn [fmap list_fmap foldl Nat.add].
    replace (8 * S k) with (8 * k + 8) by lia. apply Hstep; [lia|].
    apply IH; [exact H0|]. intros j s' Hj. apply Hstep. lia.
Qed.

End LoopInvariants.

Section StoreFacts.
Import Store.

Lemma steps_aligned (n : nat) : Avx.steps (n / 8 * 8) = (fun j => 8 * j) <$> seq 0 (n / 8).
Proof. unfold Avx.steps. now rewrite Nat.div_mul by lia. Qed.

Lemma gain_scalar_step (mem0 m : list Float32.float) (g : Float32.float) (base i : nat) :
  length m = length mem0 /\ (forall c, m !! c = gained mem0 g base i c) ->
  length (alter (fun x => Float32.mul x g) (base + i) m) = length mem0 /\
  forall c, alter (fun x => Float32.mul x g) (base + i) m !! c = gained mem0 g base (S i) c.
Proof.
  intros [Hlen Hinv]. split; [now rewrite length_alter|].
  intros c. rewrite list_lookup_alter, !Hinv. unfold gained.
  repeat destruct (decide _); subst; try lia; reflexivity.
Qed.

Lemma gain_avx_step (mem0 m : list Float32.float) (g : Float32.float) (base n i : nat) :
  base + n <= length mem0 -> i + 8 <= n ->
  length m = length mem0 /\ (forall c, m !! c = gained mem0 g base i c) ->
  length (Avx.storeu_ps m (base + i)
            (Avx.mul_ps (Avx.loadu_ps m (base + i)) (Avx.set1_ps g))) = length mem0 /\
  forall c, Avx.storeu_ps m (base + i)
              (Avx.mul_ps (Avx.loadu_ps m (base + i)) (Avx.set1_ps g)) !! c
            = gained mem0 g base (i + 8) c.
Proof.
  intros Hbase Hi [Hlen Hinv].
  split; [rewrite gain_avx_step_length by lia; exact Hlen|].
  intros c. rewrite gain_avx_step_lookup, !Hinv by lia. unfold gained.
  repeat destruct (decide _); try lia; reflexivity.
Qed.

(** Cell by cell, what [GainNode::processImpl] leaves in the store. *)
Lemma store_gain_lookup (avx : bool) (node : GainNode.t) (buffer : view)
    (mem : list Float32.float) :
  within buffer mem ->
  length (gain_processImpl avx node buffer mem) = length mem /\
  forall c, gain_processImpl avx node buffer mem !! c
            = gained mem (GainNode.gain node) (data buffer) (size buffer) c.
Proof.
  unfold within. intros Hin.
  set (g := GainNode.gain node). set (base := data buffer). set (n := size buffer).
  pose (P := fun (i : nat) (m : list Float32.float) =>
               length m = length mem /\ forall c, m !! c = gained mem g base i c).
  assert (H0 : P 0 mem).
  { split; [reflexivity|]. intros c. unfold gained.
    destruct (decide _); [lia|reflexivity]. }
  pose proof (Nat.Div0.mul_div_le n 8) as Hle.
  destruct avx; unfold gain_processImpl, gain_scalar_loop; cbn zeta; fold g base n.
  - rewrite steps_aligned, (Nat.mul_comm (n / 8) 8).
    apply (foldl_range_inv P); [lia| |].
    + apply (foldl_chunks_inv P); [exact H0|].
      intros j s' Hj Hs'. apply (gain_avx_step mem s' g base n); [lia|lia|exact Hs'].
    + intros i s' Hi Hs'. apply gain_scalar_step. exact Hs'.
  - apply (foldl_range_inv P); [lia|exact H0|].
    intros i s' Hi Hs'. apply gain_scalar_step. exact Hs'.
Qed.

Lemma lookup_total_eq (m m0 : list Float32.float) (k : nat) :
  m !! k = m0 !! k -> m !!! k = m0 !!! k.
Proof. intros H. now rewrite !list_lookup_total_alt, H. Qed.

Section MixSteps.
Variables (mem0 : list Float32.float) (a b o n : nat).
Hypothesis Ha : a + n <= length mem0.
Hypothesis Hb : b + n <= length mem0.
Hypothesis Ho : o + n <= length mem0.
Hypothesis Sa : o <= a \/ a + n <= o.
Hypothesis Sb : o <= b \/ b + n <= o.

(** An input cell that is still to be read holds what it held at first. *)
Lemma mix_unread (m : list Float32.float) (i k : nat) :
  (forall c, m !! c = mixed mem0 a b o i c) -> i <= k < n ->
  m !! (a + k) = Some (mem0 !!! (a + k)) /\ m !! (b + k) = Some (mem0 !!! (b + k)).
Proof using Ha Hb Ho Sa Sb.
  intros Hinv Hk. rewrite !Hinv. unfold mixed.
  split; (destruct (decide _); [lia|apply list_lookup_lookup_total_lt; lia]).
Qed.

Lemma mix_scalar_step (m : list Float32.float) (i : nat) :
  i < n ->
  length m = length mem0 /\ (forall c, m !! c = mixed mem0 a b o i c) ->
  length (<[o + i := Float32.add (m !!! (a + i)) (m !!! (b + i))]> m) = length mem0 /\
  forall c, <[o + i := Float32.add (m !!! (a + i)) (m !!! (b + i))]> m !! c
            = mixed mem0 a b o (S i) c.
Proof using Ha Hb Ho Sa Sb.
  intros Hi [Hlen Hinv]. split; [now rewrite length_insert|].
  destruct (mix_unread m i i Hinv ltac:(lia)) as [Hra Hrb].
  apply list_lookup_total_correct in Hra, Hrb.
  intros c. rewrite list_lookup_insert, Hra, Hrb, Hinv. unfold mixed.
  repeat destruct (decide _); try lia; try reflexivity.
  replace (c - o) with i by lia. reflexivity.
Qed.

Lemma mix_avx_step (m : list Float32.float) (i : nat) :
  i + 8 <= n ->
  length m = length mem0 /\ (forall c, m !! c = mixed mem0 a b o i c) ->
  length (Avx.storeu_ps m (o + i)
            (Avx.add_ps (Avx.loadu_ps m (a + i)) (Avx.loadu_ps m (b + i)))) = length mem0 /\
  forall c, Avx.storeu_ps m (o + i)
              (Avx.add_ps (Avx.loadu_ps m (a + i)) (Avx.loadu_ps m (b + i))) !! c
            = mixed mem0 a b o (i + 8) c.
Proof using Ha Hb Ho Sa Sb.
  intros Hi [Hlen Hinv].
  assert (Hv : length (Avx.add_ps (Avx.loadu_ps m (a + i)) (Avx.loadu_ps m (b + i))) = 8).
  { unfold Avx.add_ps. rewrite length_zip_with, !loadu_length by lia. reflexivity. }
  split; [rewrite storeu_length by (assumption || lia); exact Hlen|].
  intros c. rewrite storeu_lookup by (assumption || lia).
  destruct (decide (o + i <= c < o + i + 8)) as [Hin|Hout].
  - unfold Avx.add_ps. rewrite lookup_zip_with, !loadu_lookup by lia.
    destruct (mix_unread m i (i + (c - (o + i))) Hinv ltac:(lia)) as [Hra Hrb].
    rewrite !Nat.add_assoc in Hra, Hrb. rewrite Hra, Hrb. cbn.
    unfold mixed. destruct (decide _); [|lia].
    replace (a + (c - o)) with (a + i + (c - (o + i))) by lia.
    replace (b + (c - o)) with (b + i + (c - (o + i))) by lia. reflexivity.
  - rewrite Hinv. unfold mixed. repeat destruct (decide _); try lia; reflexivity.
Qed.

End MixSteps.

(** Cell by cell, what [MixerNode::mix] leaves in the store, when no
    input starts before [out] inside the range that is written. *)
Lemma store_mix_lookup (avx : bool) (in1 in2 out : view) (mem : list Float32.float) :
  within in1 mem -> within in2 mem -> within out mem ->
  (data out <= data in1 \/ data in1 + len in1 in2 out <= data out) ->
  (data out <= data in2 \/ data in2 + len in1 in2 out <= data out) ->
  length (mix avx in1 in2 out mem) = length mem /\
  forall c, mix avx in1 in2 out mem !! c
            = mixed mem (data in1) (data in2) (data out) (len in1 in2 out) c.
Proof.
  unfold within. intros H1 H2 Hout Sa Sb.
  set (n := len in1 in2 out) in *.
  assert (Hn : n <= size in1 /\ n <= size in2 /\ n <= size out) by (unfold n, len; lia).
  set (a := data in1) in *. set (b := data in2) in *. set (o := data out) in *.
  pose (P := fun (i : nat) (m : list Float32.float) =>
               length m = length mem /\ forall c, m !! c = mixed mem a b o i c).
  assert (H0 : P 0 mem).
  { split; [reflexivity|]. intros c. unfold mixed.
    destruct (decide _); [lia|reflexivity]. }
  pose proof (Nat.Div0.mul_div_le n 8) as Hle.
  destruct avx; unfold mix, mix_scalar_loop; cbn zeta; fold n a b o.
  - rewrite steps_aligned, (Nat.mul_comm (n / 8) 8).
    apply (foldl_range_inv P); [lia| |].
    + apply (foldl_chunks_inv P); [exact H0|].
      intros j s' Hj Hs'. apply (mix_avx_step mem a b o n); try lia. exact Hs'.
    + intros i s' Hi Hs'. apply (mix_scalar_step mem a b o n); try lia. exact Hs'.
  - apply (foldl_range_inv P); [lia|exact H0|].
    intros i s' Hi Hs'. apply (mix_scalar_step mem a b o n); try lia. exact Hs'.
Qed.

Lemma samples_lookup (v : view) (mem : list Float32.float) (i : nat) :
  samples v mem !! i = if decide (i < size v) then mem !! (data v + i) else None.
Proof. unfold samples. now rewrite lookup_take, lookup_drop. Qed.

Lemma samples_length (v : view) (mem : list Float32.float) :
  within v mem -> length (samples v mem) = size v.
Proof. unfold within, samples. intros H. rewrite length_take, length_drop. lia. Qed.

Lemma samples_lookup_total (v : view) (mem : list Float32.float) (i : nat) :
  within v mem -> i < size v -> samples v mem !!! i = mem !!! (data v + i).
Proof.
  unfold within. intros Hin Hi. apply list_lookup_total_correct.
  rewrite samples_lookup. destruct (decide _); [|lia].
  apply list_lookup_lookup_total_lt. lia.
Qed.

(** C7 (amended). For all buffer views [a], [b] and [out] that lie in
    allocated storage and of which neither [a] nor [b] begins before
    [out] inside the range that is written (an input starts at or after
    the first sample of [out], or its first [min(len(a), len(b), len(out))]
    samples end before it: so for views that do not overlap [out], and
    for [out] used as an input), with either build of [MixerNode::mix]:
    [out[i] = a[i] + b[i]], the samples of [a] and [b] taken as they were
    before the call, for every index [i] below that minimum, and every
    element of [out] at or beyond the minimum is left as it was; [out]
    keeps its size. *)
Theorem mixer_mix_views_prefix_sum (avx : bool) (a b out : Store.view)
    (mem : list Float32.float) (i : nat) :
  Store.within a mem -> Store.within b mem -> Store.within out mem ->
  let n := Store.size a `min` (Store.size b `min` Store.size out) in
  (Store.data out <= Store.data a \/ Store.data a + n <= Store.data out) ->
  (Store.data out <= Store.data b \/ Store.data b + n <= Store.data out) ->
  let mem' := Store.mix avx a b out mem in
  length (Store.samples out mem') = Store.size out /\
  (i < n ->
     exists x y, Store.samples a mem !! i = Some x /\ Store.samples b mem !! i = Some y /\
                 Store.samples out mem' !! i = Some (Float32.add x y)) /\
  (n <= i -> Store.samples out mem' !! i = Store.samples out mem !! i).
Proof.
  intros Ha Hb Ho n Sa Sb mem'.
  destruct (store_mix_lookup avx a b out mem Ha Hb Ho Sa Sb) as [Hlen Hlook].
  fold mem' in Hlen, Hlook. change (len a b out) with n in Hlook.
  unfold within in Ha, Hb, Ho.
  split; [|split].
  - apply samples_length. unfold within. lia.
  - intros Hi. exists (mem !!! (data a + i)), (mem !!! (data b + i)).
    rewrite !samples_lookup.
    repeat (destruct (decide _); [|lia]).
    split; [apply list_lookup_lookup_total_lt; lia|].
    split; [apply list_lookup_lookup_total_lt; lia|].
    rewrite Hlook. unfold mixed. destruct (decide _); [|lia].
    replace (data out + i - data out) with i by lia. reflexivity.
  - intros Hi. rewrite !samples_lookup. destruct (decide _); [|reflexivity].
    rewrite Hlook. unfold mixed. destruct (decide _); [lia|reflexivity].
Qed.

(** Instance of C7 (amended): [mix(a, b, a)] through the vectorized
    build, [b] starting one sample after [a]: sample 8 of [a] becomes the
    sum of the samples 8 of [a] and [b] as they were. *)
Lemma mixer_mix_views_prefix_sum_witness :
  let a := Store.mk 0 9 1 in
  let b := Store.mk 1 9 1 in
  let mem := replicate 5 Float32.one ++ replicate 5 Fixtures.half in
  exists x y, Store.samples a mem !! 8 = Some x /\ Store.samples b mem !! 8 = Some y /\
              Store.samples a (Store.mix true a b a mem) !! 8 = Some (Float32.add x y).
Proof.
  intros a b mem.
  refine (proj1 (proj2 (mixer_mix_views_prefix_sum true a b a mem 8 _ _ _ _ _)) _).
  - unfold Store.within. cbn. lia.
  - unfold Store.within. cbn. lia.
  - unfold Store.within. cbn. lia.
  - left. cbn. lia.
  - left. cbn. lia.
  - cbn. lia.
Defined.

(** C7 (as stated, refuted).  In a store of eighteen
    samples 1.0 take [in2] over the samples 0..15, [out] over 1..16 and
    [in1] over 2..17, so that [out] begins one sample after [in2].  Before
    the call [in1[8] + in2[8]] is 2.0.  The scalar build reads in [in2[i]]
    the sum it stored one step earlier, and leaves [i + 2] in [out[i]]:
    10.0 at index 8.  The vectorized build stores 2.0 in the samples 1..8
    with its first step, reads sample 8 again as [in2[8]] with its second,
    and leaves 3.0 at index 8.  In neither build is [out[8]] the sum of
    [in1[8]] and [in2[8]], whether these are taken before or after the
    call. *)
Theorem mix_overlapping_views_not_sum :
  let in1 := Store.mk 2 16 1 in
  let in2 := Store.mk 0 16 1 in
  let out := Store.mk 1 16 1 in
  let mem := replicate 18 Float32.one in
  let sum_at m := Float32.add (Store.samples in1 m !!! 8) (Store.samples in2 m !!! 8) in
  let scalar := Store.mix false in1 in2 out mem in
  let vector := Store.mix true in1 in2 out mem in
  Store.within in1 mem /\ Store.within in2 mem /\ Store.within out mem /\
  8 < Store.size in1 `min` (Store.size in2 `min` Store.size out) /\
  sum_at mem = Float32.of_Z 2 /\
  Store.samples out scalar !! 8 = Some (Float32.of_Z 10) /\
  Store.samples out vector !! 8 = Some (Float32.of_Z 3) /\
  Store.samples out scalar !! 8 <> Some (sum_at mem) /\
  Store.samples out scalar !! 8 <> Some (sum_at scalar) /\
  Store.samples out vector !! 8 <> Some (sum_at mem) /\
  Store.samples out vector !! 8 <> Some (sum_at vector).
Proof.
  cbv zeta. unfold Store.within. cbn [Store.data Store.size]. rewrite length_replicate.
  split; [lia|]. split; [lia|]. split; [lia|]. split; [cbn; lia|].
  split; [vm_compute; reflexivity|].
  split; [vm_compute; reflexivity|].
  split; [vm_compute; reflexivity|].
  split; [vm_compute; discriminate|].
  split; [vm_compute; discriminate|].
  split; [vm_compute; discriminate|].
  vm_compute; discriminate.
Qed.

(** X5. The two builds of [MixerNode::mix] agree on views of one store
    that lie inside it and of which neither input begins before [out]
    inside the range that is written (so on views that do not overlap
    [out], and on [out] used as an input): the vectorized body (8-lane
    steps over the width-aligned prefix, a scalar loop over the rest) and
    the scalar body leave the same sample in every cell of the store. *)
Theorem store_mix_builds_agree (in1 in2 out : Store.view) (mem : list Float32.float) :
  Store.within in1 mem -> Store.within in2 mem -> Store.within out mem ->
  let n := Store.len in1 in2 out in
  (Store.data out <= Store.data in1 \/ Store.data in1 + n <= Store.data out) ->
  (Store.data out <= Store.data in2 \/ Store.data in2 + n <= Store.data out) ->
  Store.mix true in1 in2 out mem = Store.mix false in1 in2 out mem.
Proof.
  intros H1 H2 Ho n Sa Sb.
  destruct (store_mix_lookup true in1 in2 out mem H1 H2 Ho Sa Sb) as [_ Hv].
  destruct (store_mix_lookup false in1 in2 out mem H1 H2 Ho Sa Sb) as [_ Hs].
  apply list_eq. intros c. rewrite Hv, Hs. reflexivity.
Qed.

(** Instance of X5: nineteen samples of a store mixed in place,
    [mix(a, b, a)], by two 8-lane steps and three scalar steps, or by
    nineteen scalar steps. *)
Lemma store_mix_builds_agree_witness :
  let a := Store.mk 0 19 1 in
  let b := Store.mk 19 19 1 in
  let mem := replicate 19 Float32.one ++ replicate 19 Fixtures.half in
  Store.mix true a b a mem = Store.mix false a b a mem.
Proof.
  intros a b mem.
  apply (store_mix_builds_agree a b a mem).
  - unfold Store.within. cbn. lia.
  - unfold Store.within. cbn. lia.
  - unfold Store.within. cbn. lia.
  - left. cbn. lia.
  - left. cbn. lia.
Defined.

(** X17. [MixerNode::mix] on views of one store, which may overlap: when
    the three views lie inside the store and neither input starts before
    [out] inside the range that is written (an input may be [out] itself,
    start after it, or end before it), both builds store in
    [out[i]], for every [i] below the shortest of the three sizes, the sum
    of the samples [in1[i]] and [in2[i]] as they were before the call, and
    write no other cell of the store. *)
Theorem store_mix_prefix_sum (avx : bool) (in1 in2 out : Store.view)
    (mem : list Float32.float) :
  Store.within in1 mem -> Store.within in2 mem -> Store.within out mem ->
  let n := Store.len in1 in2 out in
  (Store.data out <= Store.data in1 \/ Store.data in1 + n <= Store.data out) ->
  (Store.data out <= Store.data in2 \/ Store.data in2 + n <= Store.data out) ->
  let mem' := Store.mix avx in1 in2 out mem in
  length mem' = length mem /\
  (forall i, i < n ->
     mem' !! (Store.data out + i) =
       Some (Float32.add (mem !!! (Store.data in1 + i)) (mem !!! (Store.data in2 + i)))) /\
  (forall c, ~ (Store.data out <= c < Store.data out + n) -> mem' !! c = mem !! c).
Proof.
  intros H1 H2 Ho n Sa Sb mem'.
  destruct (store_mix_lookup avx in1 in2 out mem H1 H2 Ho Sa Sb) as [Hlen Hlook].
  fold mem' in Hlen, Hlook. fold n in Hlook.
  split; [exact Hlen|]. split.
  - intros i Hi. rewrite Hlook. unfold mixed. destruct (decide _); [|lia].
    replace (data out + i - data out) with i by lia. reflexivity.
  - intros c Hc. rewrite Hlook. unfold mixed. destruct (decide _); [contradiction|reflexivity].
Qed.

(** Instance of X17: [mix(a, b, a)], the sum accumulated in place over
    nine samples, through the vectorized build. *)
Lemma store_mix_prefix_sum_witness :
  let a := Store.mk 0 9 1 in
  let b := Store.mk 9 9 1 in
  let mem := replicate 9 Float32.one ++ replicate 9 Fixtures.half in
  Store.mix true a b a mem !! (0 + 8)
    = Some (Float32.add (mem !!! (0 + 8)) (mem !!! (9 + 8))).
Proof.
  intros a b mem.
  refine (proj1 (proj2 (store_mix_prefix_sum true a b a mem _ _ _ _ _)) 8 _).
  - unfold Store.within. cbn. lia.
  - unfold Store.within. cbn. lia.
  - unfold Store.within. cbn. lia.
  - left. cbn. lia.
  - left. cbn. lia.
  - cbn. lia.
Defined.

(** X18. On views that share no sample with [out], [MixerNode::mix] over
    the store does what it does on three separate buffers: the samples
    of [out] afterwards are those the buffer-level [mix] computes from the
    samples the three views covered before, and the samples of both
    inputs are unchanged. *)
Theorem store_mix_refines (avx : bool) (in1 in2 out : Store.view)
    (mem : list Float32.float) :
  Store.within in1 mem -> Store.within in2 mem -> Store.within out mem ->
  Store.disjoint in1 out -> Store.disjoint in2 out ->
  let mem' := Store.mix avx in1 in2 out mem in
  Store.samples out mem' =
    AudioBuffer.data
      (MixerNode.mix avx (Store.to_buffer in1 mem) (Store.to_buffer in2 mem)
         (Store.to_buffer out mem)) /\
  Store.samples in1 mem' = Store.samples in1 mem /\
  Store.samples in2 mem' = Store.samples in2 mem.
Proof.
  intros H1 H2 Ho D1 D2 mem'.
  assert (Hn : len in1 in2 out <= size in1 /\ len in1 in2 out <= size in2 /\
               len in1 in2 out <= size out) by (unfold len; lia).
  unfold disjoint in D1, D2.
  destruct (store_mix_lookup avx in1 in2 out mem H1 H2 Ho ltac:(lia) ltac:(lia))
    as [Hlen Hlook].
  fold mem' in Hlen, Hlook.
  assert (Hlen' : MixerNode.len (to_buffer in1 mem) (to_buffer in2 mem) (to_buffer out mem)
                  = len in1 in2 out).
  { unfold MixerNode.len, AudioBuffer.size, to_buffer, len. cbn [AudioBuffer.data].
    now rewrite !samples_length by assumption. }
  split; [|split]; apply list_eq; intros i; rewrite !samples_lookup, ?mix_data_lookup, ?Hlen';
    cbn [to_buffer AudioBuffer.data]; rewrite ?samples_lookup, ?Hlook; unfold mixed.
  - repeat destruct (decide _); try lia; try reflexivity.
    replace (data out + i - data out) with i by lia.
    rewrite !samples_lookup_total by (assumption || lia). reflexivity.
  - repeat destruct (decide _); try lia; reflexivity.
  - repeat destruct (decide _); try lia; reflexivity.
Qed.

(** Instance of X18: two inputs of nine samples mixed into a third
    buffer of the same store. *)
Lemma store_mix_refines_witness :
  let a := Store.mk 0 9 1 in
  let b := Store.mk 9 9 1 in
  let out := Store.mk 18 9 1 in
  let mem := replicate 9 Float32.one ++ replicate 9 Fixtures.half
             ++ replicate 9 Float32.zero in
  Store.samples out (Store.mix true a b out mem) =
    AudioBuffer.data
      (MixerNode.mix true (Store.to_buffer a mem) (Store.to_buffer b mem)
         (Store.to_buffer out mem)).
Proof.
  intros a b out mem.
  refine (proj1 (store_mix_refines true a b out mem _ _ _ _ _)).
  - unfold Store.within. cbn. lia.
  - unfold Store.within. cbn. lia.
  - unfold Store.within. cbn. lia.
  - left. cbn. lia.
  - left. cbn. lia.
Defined.

(** X19. [GainNode::processImpl] on a view of a store rewrites the
    samples of the view as the buffer-level node does and no other cell:
    the store afterwards is the store before with the view's samples
    replaced by the processed buffer, with either build. *)
Theorem store_gain_refines (avx : bool) (node : GainNode.t) (buffer : Store.view)
    (mem : list Float32.float) :
  Store.within buffer mem ->
  Store.gain_processImpl avx node buffer mem =
    take (Store.data buffer) mem ++
    AudioBuffer.data (GainNode.processImpl avx node (Store.to_buffer buffer mem)) ++
    drop (Store.data buffer + Store.size buffer) mem.
Proof.
  intros Hin. destruct (store_gain_lookup avx node buffer mem Hin) as [Hlen Hlook].
  unfold within in Hin.
  rewrite gain_processImpl_data. cbn [to_buffer AudioBuffer.data].
  apply list_eq. intros c. rewrite Hlook. unfold gained.
  assert (Htake : length (take (data buffer) mem) = data buffer)
    by (rewrite length_take; lia).
  assert (Hmid : length ((fun x => Float32.mul x (GainNode.gain node)) <$> samples buffer mem)
                 = size buffer)
    by (rewrite length_fmap; apply samples_length; exact Hin).
  destruct (decide (c < data buffer)) as [Hlt|Hge].
  - rewrite lookup_app_l by lia. rewrite lookup_take_lt by lia.
    destruct (decide _); [lia|reflexivity].
  - rewrite lookup_app_r by lia. rewrite Htake.
    destruct (decide (data buffer <= c < data buffer + size buffer)) as [Hmidc|Hout].
    + rewrite lookup_app_l by lia. rewrite list_lookup_fmap, samples_lookup.
      destruct (decide _); [|lia].
      replace (data buffer + (c - data buffer)) with c by lia. reflexivity.
    + rewrite lookup_app_r by lia. rewrite Hmid, lookup_drop. f_equal. lia.
Qed.

(** Instance of X19: the middle nine samples of a store of eleven. *)
Lemma store_gain_refines_witness :
  let v := Store.mk 1 9 1 in
  let mem := replicate 11 Float32.one in
  Store.gain_processImpl true (GainNode.mk Fixtures.half) v mem =
    take 1 mem ++
    AudioBuffer.data
      (GainNode.processImpl true (GainNode.mk Fixtures.half) (Store.to_buffer v mem)) ++
    drop (1 + 9) mem.
Proof.
  intros v mem. apply (store_gain_refines true (GainNode.mk Fixtures.half) v mem).
  unfold Store.within. cbn. lia.
Defined.

(** X20. When [out] starts inside an input, the two builds of
    [MixerNode::mix] can leave different samples: there are views inside
    a store, [out] starting one sample after an input, on which the
    scalar build feeds each sum into the next one while the vectorized
    build adds the samples as they were. *)
Theorem store_mix_overlap_builds_differ :
  exists (in1 in2 out : Store.view) (mem : list Float32.float),
    Store.within in1 mem /\ Store.within in2 mem /\ Store.within out mem /\
    Store.data in1 < Store.data out < Store.data in1 + Store.len in1 in2 out /\
    Store.mix true in1 in2 out mem <> Store.mix false in1 in2 out mem.
Proof.
  exists (Store.mk 0 8 1), (Store.mk 0 8 1), (Store.mk 1 8 1), (replicate 9 Float32.one).
  unfold Store.within. cbn [Store.data Store.size]. rewrite length_replicate.
  repeat split; try (cbn; lia).
  vm_compute. discriminate.
Qed.

End StoreFacts.

(* ------------------------------------------------------------------ *)
(** ** Little-endian fields                                            *)

Section LittleEndianFacts.
Import LittleEndian.
Local Open Scope Z_scope.

Lemma byte_to_Z_range (b : byte) : 0 <= byte_to_Z b < 256.
Proof.
  unfold byte_to_Z. pose proof (Byte.to_N_bounded b). lia.
Qed.

Lemma byte_to_of_Z (z : Z) : byte_to_Z (byte_of_Z z) = z mod 256.
Proof.
  unfold byte_to_Z, byte_of_Z.
  pose proof (Z.mod_pos_bound z 256 ltac:(lia)) as Hm.
  pose proof (Byte.to_of_N_option_map (Z.to_N (z mod 256))) as Hopt.
  destruct (Byte.of_N (Z.to_N (z mod 256))) as [b|] eqn:Hb; cbn in Hopt.
  - cbn. rewrite (Byte.to_of_N _ Hb). lia.
  - destruct (N.leb_spec (Z.to_N (z mod 256)) 255); [discriminate|lia].
Qed.

Lemma decode_range (bs : list byte) : 0 <= decode bs < 256 ^ Z.of_nat (length bs).
Proof.
  induction bs as [|b bs IH]; cbn [decode foldr length].
  - cbn. lia.
  - fold (decode bs). pose proof (byte_to_Z_range b).
    rewrite Nat2Z.inj_succ, Z.pow_succ_r by lia. lia.
Qed.

Lemma decode_encode (n : nat) : forall v, decode (encode n v) = v mod 256 ^ Z.of_nat n.
Proof.
  induction n as [|n IH]; intros v; cbn [encode decode foldr].
  - cbn. now rewrite Z.mod_1_r.
  - fold (decode (encode n (v / 256))). rewrite IH, byte_to_of_Z.
    rewrite Nat2Z.inj_succ, Z.pow_succ_r by lia.
    rewrite (Z.mul_comm 256), Z.rem_mul_r by lia. lia.
Qed.

Lemma encode_length (n : nat) : forall v, length (encode n v) = n.
Proof. induction n as [|n IH]; intros v; cbn; [reflexivity|]. now rewrite IH. Qed.

Lemma to_int16_decode (v : Z) :
  -32768 <= v <= 32767 -> to_int16 (decode (encode 2 v)) = v.
Proof.
  intros Hv. rewrite decode_encode. change (256 ^ Z.of_nat 2) with 65536.
  unfold to_int16. destruct (Z.le_gt_cases 0 v) as [Hpos|Hneg].
  - rewrite Z.mod_small by lia.
    destruct (Z.ltb_spec v 32768); lia.
  - assert (Hm : v + 65536 = v mod 65536)
      by (apply (Z.mod_unique v 65536 (-1) (v + 65536)); [left|]; lia).
    rewrite <- Hm. destruct (Z.ltb_spec (v + 65536) 32768); lia.
Qed.

Lemma to_int16_range (bs : list byte) :
  (length bs <= 2)%nat -> -32768 <= to_int16 (decode bs) <= 32767.
Proof.
  intros Hlen. pose proof (decode_range bs) as Hr.
  assert (256 ^ Z.of_nat (length bs) <= 256 ^ 2) by (apply Z.pow_le_mono_r; lia).
  change (256 ^ 2) with 65536 in *.
  unfold to_int16. destruct (Z.ltb_spec (decode bs) 32768); lia.
Qed.

(** The header that was written is the header that is read back. *)
Lemma of_to_bytes (h : WavHeader.t) (rest : list byte) :
  WavHeader.representable h ->
  WavHeader.of_bytes (take WavHeader.sizeof (WavHeader.to_bytes h ++ rest)) = h /\
  drop WavHeader.sizeof (WavHeader.to_bytes h ++ rest) = rest /\
  length (WavHeader.to_bytes h) = WavHeader.sizeof.
Proof.
  destruct h as [r fs w f fms af nc sr br ba bps d ds].
  unfold WavHeader.representable.
  cbn [WavHeader.riff WavHeader.fileSize WavHeader.wave WavHeader.fmt WavHeader.fmtSize
       WavHeader.audioFormat WavHeader.numChannels WavHeader.sampleRate WavHeader.byteRate
       WavHeader.blockAlign WavHeader.bitsPerSample WavHeader.data WavHeader.dataSize].
  intros (Hr & Hw & Hf & Hd & Hfs & Hfms & Haf & Hnc & Hsr & Hbr & Hba & Hbps & Hds).
  destruct r as [|r0 [|r1 [|r2 [|r3 [|? ?]]]]]; try discriminate.
  destruct w as [|w0 [|w1 [|w2 [|w3 [|? ?]]]]]; try discriminate.
  destruct f as [|f0 [|f1 [|f2 [|f3 [|? ?]]]]]; try discriminate.
  destruct d as [|d0 [|d1 [|d2 [|d3 [|? ?]]]]]; try discriminate.
  unfold WavHeader.to_bytes, WavHeader.of_bytes, WavHeader.sizeof, slice.
  cbn [WavHeader.riff WavHeader.fileSize WavHeader.wave WavHeader.fmt WavHeader.fmtSize
       WavHeader.audioFormat WavHeader.numChannels WavHeader.sampleRate WavHeader.byteRate
       WavHeader.blockAlign WavHeader.bitsPerSample WavHeader.data WavHeader.dataSize].
  cbn [encode app take drop firstn skipn length].
  split; [|split; reflexivity].
  f_equal;
    match goal with
    | |- _ = ?v =>
        first [ change (decode (encode 4 v) = v) | change (decode (encode 2 v) = v) ];
        rewrite decode_encode; apply Z.mod_small; assumption
    end.
Qed.

(** X21. A header whose fields fit their types survives the trip through
    its 44 bytes: decoding the little-endian bytes [to_bytes] lays out
    (whatever follows them in the file) gives the header back, field by
    field. *)
Theorem wav_header_round_trip (h : WavHeader.t) (rest : list byte) :
  WavHeader.representable h ->
  length (WavHeader.to_bytes h) = 44%nat /\
  WavHeader.of_bytes (take WavHeader.sizeof (WavHeader.to_bytes h ++ rest)) = h.
Proof.
  intros Hh. destruct (of_to_bytes h rest Hh) as (Hof & _ & Hlen). auto.
Qed.

(** Instance of X21: the header of a mono 48 kHz file with two samples. *)
Lemma wav_header_round_trip_witness :
  let h := WavHeader.mk WavHeader.tag_RIFF 40 WavHeader.tag_WAVE WavHeader.tag_fmt
             16 1 1 48000 96000 2 16 WavHeader.tag_data 4 in
  WavHeader.of_bytes (take WavHeader.sizeof (WavHeader.to_bytes h ++ [x00; x40; x00; xc0]))
    = h.
Proof.
  intros h. refine (proj2 (wav_header_round_trip h [x00; x40; x00; xc0] _)).
  unfold WavHeader.representable. cbn. repeat split; reflexivity || lia.
Defined.

End LittleEndianFacts.

(* ------------------------------------------------------------------ *)
(** ** WavReader                                                       *)

Section WavReaderFacts.
Import Outcome WavReader.
Local Open Scope Z_scope.

(** A failing [read] hands back its out-parameters untouched. *)
Lemma read_failure_keeps_outputs (fs : FileSystem.t) (filename : string)
    (out o : outputs) :
  read fs filename out = Ok (false, o) -> o = out.
Proof.
  unfold read. intros H.
  repeat case_match; try discriminate; congruence.
Qed.

Lemma read_unopened (fs : FileSystem.t) (filename : string) (out : outputs) :
  FileSystem.files fs !! filename = None -> read fs filename out = Ok (false, out).
Proof. intros H. unfold read. now rewrite H. Qed.

Lemma read_bad_tag (fs : FileSystem.t) (filename : string) (content : list byte)
    (out : outputs) :
  FileSystem.files fs !! filename = Some content ->
  tag_equal (WavHeader.riff (WavHeader.of_bytes (take WavHeader.sizeof content)))
    WavHeader.tag_RIFF = Some false ->
  read fs filename out = Ok (false, out).
Proof. intros H Htag. unfold read. rewrite H. cbn zeta. now rewrite Htag. Qed.

(** A successful [read] stores the header's sample rate and channel
    count in [sr] and [ch]. *)
Lemma read_success_metadata (fs : FileSystem.t) (filename : string) (out o : outputs) :
  read fs filename out = Ok (true, o) ->
  exists content,
    FileSystem.files fs !! filename = Some content /\
    sr o = WavHeader.sampleRate (WavHeader.of_bytes (take WavHeader.sizeof content)) /\
    ch o = WavHeader.numChannels (WavHeader.of_bytes (take WavHeader.sizeof content)).
Proof.
  unfold read. intros H.
  destruct (FileSystem.files fs !! filename) as [content|]; [|discriminate].
  exists content. split; [reflexivity|].
  cbn zeta in H.
  repeat case_match; try discriminate; injection H as <-; auto.
Qed.

Lemma header_field_range (bs : list byte) :
  let h := WavHeader.of_bytes bs in
  0 <= WavHeader.sampleRate h < 2 ^ 32 /\ 0 <= WavHeader.numChannels h < 2 ^ 16 /\
  0 <= WavHeader.bitsPerSample h < 2 ^ 16 /\ 0 <= WavHeader.dataSize h < 2 ^ 32.
Proof.
  cbn zeta. unfold WavHeader.of_bytes; cbn [WavHeader.sampleRate WavHeader.numChannels
    WavHeader.bitsPerSample WavHeader.dataSize].
  assert (Hs : forall off n, (length (LittleEndian.slice off n bs) <= n)%nat).
  { intros off n. unfold LittleEndian.slice. rewrite length_take. lia. }
  assert (Hd : forall off n, 0 <= LittleEndian.decode (LittleEndian.slice off n bs)
                             < 256 ^ Z.of_nat n).
  { intros off n. pose proof (decode_range (LittleEndian.slice off n bs)) as Hr.
    pose proof (Hs off n) as Hl.
    assert (256 ^ Z.of_nat (length (LittleEndian.slice off n bs)) <= 256 ^ Z.of_nat n)
      by (apply Z.pow_le_mono_r; lia).
    lia. }
  pose proof (Hd 24%nat 4%nat). pose proof (Hd 22%nat 2%nat).
  pose proof (Hd 34%nat 2%nat). pose proof (Hd 40%nat 4%nat).
  change (256 ^ Z.of_nat 4) with (2 ^ 32) in *.
  change (256 ^ Z.of_nat 2) with (2 ^ 16) in *.
  lia.
Qed.

(** C10. [read] computes [h.dataSize / (h.bitsPerSample / 8)] without
    looking at [bitsPerSample] first.  For a file that provides a whole
    header passing the RIFF check, the inner quotient is 0 exactly when
    [bitsPerSample < 8], and the call then divides by zero; it does so
    for no other header. *)
Theorem wav_read_divides_by_zero (fs : FileSystem.t) (filename : string)
    (content : list byte) (out : WavReader.outputs) :
  FileSystem.files fs !! filename = Some content ->
  (WavHeader.sizeof <= length content)%nat ->
  WavHeader.riff (WavHeader.of_bytes (take WavHeader.sizeof content)) = WavHeader.tag_RIFF ->
  let h := WavHeader.of_bytes (take WavHeader.sizeof content) in
  (WavHeader.bitsPerSample h / 8 = 0 <-> WavHeader.bitsPerSample h < 8) /\
  (WavReader.read fs filename out = Outcome.Fault Outcome.DivisionByZero
     <-> WavHeader.bitsPerSample h < 8).
Proof.
  intros Hfile Hlen Htag h. fold h in Htag.
  destruct (header_field_range (take WavHeader.sizeof content)) as (_ & _ & Hbits & _).
  fold h in Hbits.
  assert (Hq : WavHeader.bitsPerSample h / 8 = 0 <-> WavHeader.bitsPerSample h < 8).
  { split; intros Hx.
    - apply Z.div_small_iff in Hx; lia.
    - apply Z.div_small; lia. }
  split; [exact Hq|].
  unfold read. rewrite Hfile. cbn zeta. fold h. rewrite Htag. cbn [tag_equal].
  change (tag_equal WavHeader.tag_RIFF WavHeader.tag_RIFF) with (Some true).
  cbv iota beta.
  rewrite bool_decide_eq_false_2 by (rewrite length_take; lia).
  destruct (Z.eqb_spec (WavHeader.bitsPerSample h / 8) 0) as [Hz|Hnz].
  - split; [intros _; apply Hq, Hz|reflexivity].
  - split; [|intros Hlt; apply Hq in Hlt; contradiction].
    intros Hfault. exfalso. repeat case_match; discriminate.
Qed.

(** Instance of C10: a RIFF header with [bitsPerSample = 0]. *)
Lemma wav_read_divides_by_zero_witness :
  FileSystem.files Fixtures.disk !! "zero.wav"%string = Some Fixtures.wav_0bit /\
  WavReader.read Fixtures.disk "zero.wav" (WavReader.mk_outputs [] 44100 2)
    = Outcome.Fault Outcome.DivisionByZero.
Proof.
  split; [reflexivity|].
  apply (wav_read_divides_by_zero Fixtures.disk "zero.wav" Fixtures.wav_0bit
           (WavReader.mk_outputs [] 44100 2)).
  - reflexivity.
  - vm_compute. lia.
  - reflexivity.
  - vm_compute. reflexivity.
Defined.

(** C5 (as stated, refuted).  It is not the case that every file whose
    header carries the RIFF tag and a [bitsPerSample] other than 16 makes
    [read] fail with its out-parameters untouched: on [eight.wav]
    (RIFF, 8 bits per sample, 2 data bytes) [read] returns [true] and
    leaves two zero samples in the vector. *)
Lemma wav_read_accepts_8bit_header :
  WavReader.read Fixtures.disk "eight.wav" (WavReader.mk_outputs [] 44100 2)
    = Outcome.Ok (true, WavReader.mk_outputs [Float32.zero; Float32.zero] 48000 1) /\
  ~ (forall (fs : FileSystem.t) (filename : string) (content : list byte)
            (out : WavReader.outputs),
       FileSystem.files fs !! filename = Some content ->
       WavHeader.riff (WavHeader.of_bytes (take WavHeader.sizeof content))
         = WavHeader.tag_RIFF ->
       WavHeader.bitsPerSample (WavHeader.of_bytes (take WavHeader.sizeof content)) <> 16 ->
       WavReader.read fs filename out = Outcome.Ok (false, out)).
Proof.
  assert (Hrun : read Fixtures.disk "eight.wav" (mk_outputs [] 44100 2)
                 = Ok (true, mk_outputs [Float32.zero; Float32.zero] 48000 1))
    by (vm_compute; reflexivity).
  split; [exact Hrun|].
  intros Hclaim.
  specialize (Hclaim Fixtures.disk "eight.wav"%string Fixtures.wav_8bit
                (mk_outputs [] 44100 2) eq_refl eq_refl).
  rewrite Hrun in Hclaim.
  assert (Hbits : WavHeader.bitsPerSample
                    (WavHeader.of_bytes (take WavHeader.sizeof Fixtures.wav_8bit)) <> 16)
    by (vm_compute; discriminate).
  specialize (Hclaim Hbits). discriminate.
Qed.

(** C5 (amended).  For every file that cannot be opened, and for every
    file whose first four bytes are there and are not the RIFF tag,
    [read] returns failure and leaves the sample vector, the sample rate
    and the channel count as they were. *)
Theorem wav_read_rejects_missing_or_untagged (fs : FileSystem.t) (filename : string)
    (out : WavReader.outputs) :
  FileSystem.files fs !! filename = None \/
  (exists content,
     FileSystem.files fs !! filename = Some content /\
     WavReader.tag_equal (take 4 content) WavHeader.tag_RIFF = Some false) ->
  WavReader.read fs filename out = Outcome.Ok (false, out).
Proof.
  intros [Hnone|(content & Hfile & Htag)].
  - exact (read_unopened fs filename out Hnone).
  - apply (read_bad_tag fs filename content out Hfile).
    unfold WavHeader.of_bytes, LittleEndian.slice; cbn [WavHeader.riff].
    change (drop 0 ?l) with l. unfold WavHeader.sizeof.
    rewrite take_take. exact Htag.
Qed.

(** Instance of C5: a text file, and a path that does not exist. *)
Lemma wav_read_rejects_missing_or_untagged_witness :
  WavReader.read Fixtures.disk "notes.txt" (WavReader.mk_outputs [Fixtures.half] 44100 2)
    = Outcome.Ok (false, WavReader.mk_outputs [Fixtures.half] 44100 2) /\
  WavReader.read Fixtures.disk "nowhere.wav" (WavReader.mk_outputs [Fixtures.half] 44100 2)
    = Outcome.Ok (false, WavReader.mk_outputs [Fixtures.half] 44100 2).
Proof.
  split.
  - apply wav_read_rejects_missing_or_untagged. right.
    exists Fixtures.not_wav. split; reflexivity.
  - apply wav_read_rejects_missing_or_untagged. left. reflexivity.
Defined.

(** [read] on a file that provides a whole header carrying the RIFF tag
    and 16 bits per sample. *)
Lemma read_16bit (fs : FileSystem.t) (filename : string) (content : list byte)
    (h : WavHeader.t) (out : outputs) :
  FileSystem.files fs !! filename = Some content ->
  (WavHeader.sizeof <= length content)%nat ->
  WavHeader.of_bytes (take WavHeader.sizeof content) = h ->
  WavHeader.riff h = WavHeader.tag_RIFF -> WavHeader.bitsPerSample h = 16 ->
  read fs filename out =
    if bool_decide (2 * Z.to_nat (WavHeader.dataSize h / 2)
                    < length (take (Z.to_nat (WavHeader.dataSize h))
                                (drop WavHeader.sizeof content)))%nat
    then Fault BufferOverrun
    else Ok (true,
             mk_outputs
               (sample_of_int16 <$>
                  raw_values (Z.to_nat (WavHeader.dataSize h / 2))
                    (take (Z.to_nat (WavHeader.dataSize h)) (drop WavHeader.sizeof content)))
               (WavHeader.sampleRate h) (WavHeader.numChannels h)).
Proof.
  intros Hfile Hlen Hh Htag Hbits.
  unfold read. rewrite Hfile. cbn zeta. rewrite Hh, Htag.
  change (tag_equal WavHeader.tag_RIFF WavHeader.tag_RIFF) with (Some true).
  cbv iota beta.
  rewrite bool_decide_eq_false_2 by (rewrite length_take; lia).
  rewrite Hbits. reflexivity.
Qed.

Lemma slice_pair (bs : list byte) (k : nat) (x y : byte) :
  bs !! k = Some x -> bs !! S k = Some y -> LittleEndian.slice k 2 bs = [x; y].
Proof.
  intros Hx Hy. unfold LittleEndian.slice.
  rewrite (drop_S _ _ _ Hx), (drop_S _ _ _ Hy). reflexivity.
Qed.

(** The 16-bit value [raw[i]]: the two bytes of the data at [2 i] and
    [2 i + 1], a byte the file did not provide counting as 0. *)
Lemma raw_values_lookup (count : nat) (got : list byte) (i : nat) :
  (i < count)%nat ->
  raw_values count got !! i =
    Some (LittleEndian.to_int16
            (LittleEndian.byte_to_Z (default x00 (got !! (2 * i)%nat))
             + 256 * LittleEndian.byte_to_Z (default x00 (got !! (2 * i + 1)%nat)))).
Proof.
  intros Hi. unfold raw_values.
  rewrite list_lookup_fmap, lookup_seq_lt by lia. cbn [fmap option_fmap option_map Nat.add].
  f_equal. f_equal.
  set (bytes := got ++ replicate (2 * count - length got) x00).
  assert (Hbyte : forall k, (k < 2 * count)%nat -> bytes !! k = Some (default x00 (got !! k))).
  { intros k Hk. unfold bytes. destruct (decide (k < length got)%nat) as [Hlt|Hge].
    - rewrite lookup_app_l by lia.
      destruct (lookup_lt_is_Some_2 got k Hlt) as [x ->]. reflexivity.
    - rewrite lookup_app_r by lia. rewrite (lookup_ge_None_2 got k) by lia.
      cbn. apply lookup_replicate_2. lia. }
  assert (H0 : bytes !! (2 * i)%nat = Some (default x00 (got !! (2 * i)%nat)))
    by (apply Hbyte; lia).
  assert (H1 : bytes !! S (2 * i)%nat = Some (default x00 (got !! (2 * i + 1)%nat)))
    by (replace (S (2 * i)%nat) with (2 * i + 1)%nat by lia; apply Hbyte; lia).
  rewrite (slice_pair bytes _ _ _ H0 H1).
  cbn [LittleEndian.decode foldr]. lia.
Qed.

Lemma raw_values_length (count : nat) (got : list byte) :
  length (raw_values count got) = count.
Proof. unfold raw_values. now rewrite length_fmap, length_seq. Qed.

Lemma raw_values_range (count : nat) (got : list byte) :
  Forall (fun v => -32768 <= v <= 32767) (raw_values count got).
Proof.
  unfold raw_values. apply Forall_fmap, Forall_forall. intros i _. cbn.
  apply to_int16_range. unfold LittleEndian.slice. rewrite length_take. lia.
Qed.

(** [raw / 32768.0f] for a 16-bit [raw]: at most 1 in magnitude, and
    exact, in that multiplying it by [32768.0f] gives [raw] back. *)
Lemma sample_of_int16_spec (v : Z) :
  -32768 <= v <= 32767 ->
  Float32.leb (Float32.abs (sample_of_int16 v)) Float32.one = true /\
  Float32.mul (sample_of_int16 v) (Float32.of_Z 32768) = Float32.of_Z v /\
  Float32.valid (sample_of_int16 v) = true.
Proof.
  intros Hv. destruct (Z.eq_dec v 0) as [->|Hnz]; [repeat split|].
  destruct (of_Z_signed v Hnz ltac:(change (2 ^ 24) with 16777216; lia))
    as (m & e & Hof & (m' & e' & Heq & Hd & He & Hval)).
  injection Heq as <- <-.
  unfold sample_of_int16. rewrite Hof, div_32768 by assumption.
  pose proof (digits2_pos_bounds m) as Hm. rewrite Hd in Hm.
  change (2 ^ (24 - 1)) with 8388608 in Hm. change (2 ^ 24) with 16777216 in Hm.
  change (2 ^ 23) with 8388608 in Hval.
  assert (He8 : e <= -8).
  { destruct (Z.le_gt_cases e (-8)) as [|Hgt]; [assumption|exfalso].
    assert (2 ^ 16 <= 2 ^ (e + 23)) by (apply Z.pow_le_mono_r; lia).
    change (2 ^ 16) with 65536 in *. nia. }
  split; [|split].
  - rewrite one_eq. unfold Float32.leb, Float32.abs, SFleb, SFabs, SFcompare.
    destruct (Z.compare_spec (e - 15) (-23)) as [Heq|Hlt|Hgt]; [|reflexivity|lia].
    assert (e = -8) as -> by lia. change (2 ^ (-8 + 23)) with 32768 in Hval.
    destruct (Pos.compare_cont Eq m 8388608) eqn:Hc; try reflexivity.
    exfalso. apply (proj1 (Pos.compare_gt_iff m 8388608)) in Hc.
    apply Pos2Z.pos_lt_pos in Hc. clear - Hc Hval Hv. lia.
  - rewrite mul_32768 by (assumption || lia). f_equal. lia.
  - unfold Float32.valid, valid_binary, bounded, canonical_mantissa,
      Float32.prec, Float32.emax.
    rewrite Hd, fexp32. apply andb_true_intro.
    split; [apply Z.eqb_eq|apply Z.leb_le]; lia.
Qed.

(** What a successful [read] of a 16-bit file leaves in [samples]. *)
Lemma read_success_16bit (fs : FileSystem.t) (filename : string) (content : list byte)
    (out o : outputs) :
  FileSystem.files fs !! filename = Some content ->
  WavHeader.bitsPerSample (WavHeader.of_bytes (take WavHeader.sizeof content)) = 16 ->
  read fs filename out = Ok (true, o) ->
  exists count got, samples o = sample_of_int16 <$> raw_values count got.
Proof.
  intros Hfile Hbits. unfold read. rewrite Hfile. cbn zeta. rewrite Hbits.
  change (16 =? 16) with true. cbv iota.
  intros H. repeat case_match; try discriminate.
  injection H as <-. eauto.
Qed.

(** X22. [read] on a file that provides a whole header with the RIFF tag
    and 16 bits per sample.  It writes past the end of [raw] exactly when
    [dataSize] is odd and the file holds that many data bytes.  Otherwise
    it succeeds with the header's sample rate and channel count and
    [dataSize / 2] samples; sample [i] is [raw / 32768.0f] for the
    little-endian 16-bit value of the data bytes [2 i] and [2 i + 1], a
    byte the file does not provide counting as 0, so that the samples
    past the end of a short file are [+0]. *)
Theorem wav_read_16bit (fs : FileSystem.t) (filename : string) (content : list byte)
    (out : WavReader.outputs) :
  FileSystem.files fs !! filename = Some content ->
  (WavHeader.sizeof <= length content)%nat ->
  let h := WavHeader.of_bytes (take WavHeader.sizeof content) in
  WavHeader.riff h = WavHeader.tag_RIFF -> WavHeader.bitsPerSample h = 16 ->
  let data := take (Z.to_nat (WavHeader.dataSize h)) (drop WavHeader.sizeof content) in
  let count := Z.to_nat (WavHeader.dataSize h / 2) in
  (WavReader.read fs filename out = Outcome.Fault Outcome.BufferOverrun
     <-> Z.odd (WavHeader.dataSize h) = true /\
         WavHeader.dataSize h <= Z.of_nat (length content) - 44) /\
  (WavReader.read fs filename out <> Outcome.Fault Outcome.BufferOverrun ->
     exists samples,
       WavReader.read fs filename out
         = Outcome.Ok (true, WavReader.mk_outputs samples (WavHeader.sampleRate h)
                               (WavHeader.numChannels h)) /\
       length samples = count /\
       forall i, (i < count)%nat ->
         samples !! i =
           Some (WavReader.sample_of_int16
                   (LittleEndian.to_int16
                      (LittleEndian.byte_to_Z (default x00 (data !! (2 * i)%nat))
                       + 256 * LittleEndian.byte_to_Z
                                 (default x00 (data !! (2 * i + 1)%nat))))) /\
         ((length data <= 2 * i)%nat -> samples !! i = Some Float32.zero)).
Proof.
  intros Hfile Hlen h Htag Hbits data count.
  rewrite (read_16bit fs filename content h out Hfile Hlen eq_refl Htag Hbits).
  fold data count.
  destruct (header_field_range (take WavHeader.sizeof content)) as (_ & _ & _ & Hds).
  fold h in Hds.
  assert (Hdata : Z.of_nat (length data)
                  = Z.min (WavHeader.dataSize h) (Z.of_nat (length content) - 44)).
  { unfold data. rewrite length_take, length_drop. unfold WavHeader.sizeof in *. lia. }
  assert (Hcount : Z.of_nat count = WavHeader.dataSize h / 2)
    by (unfold count; rewrite Z2Nat.id; [reflexivity|apply Z.div_pos; lia]).
  pose proof (Z.div_mod (WavHeader.dataSize h) 2 ltac:(lia)) as Hdm.
  pose proof (Z.mod_pos_bound (WavHeader.dataSize h) 2 ltac:(lia)) as Hmb.
  assert (Hodd : Z.odd (WavHeader.dataSize h) = true
                 <-> WavHeader.dataSize h mod 2 = 1).
  { rewrite Zmod_odd. destruct (Z.odd _); split; intros; lia || discriminate || reflexivity. }
  rewrite Hodd.
  destruct (bool_decide _) eqn:Hov.
  - apply bool_decide_eq_true in Hov. split; [split; [intros _; lia|reflexivity]|].
    intros Hne. contradiction.
  - apply bool_decide_eq_false in Hov. split; [split; [discriminate|lia]|].
    intros _. eexists. split; [reflexivity|].
    split; [rewrite length_fmap; apply raw_values_length|].
    intros i Hi. rewrite list_lookup_fmap, raw_values_lookup by exact Hi.
    split; [reflexivity|]. intros Hshort.
    rewrite !(lookup_ge_None_2 data) by lia. reflexivity.
Qed.

(** Instance of X22: [a.wav], two samples. *)
Lemma wav_read_16bit_witness :
  WavReader.read Fixtures.disk "a.wav" (WavReader.mk_outputs [] 44100 2)
    <> Outcome.Fault Outcome.BufferOverrun.
Proof.
  intros Hover.
  apply (proj1 (wav_read_16bit Fixtures.disk "a.wav" Fixtures.wav_a
                  (WavReader.mk_outputs [] 44100 2) eq_refl
                  ltac:(vm_compute; lia) eq_refl eq_refl)) in Hover as [Hodd _].
  vm_compute in Hodd. discriminate.
Defined.

(** X23. The samples [read] takes from a 16-bit file are normalized:
    each one is a [float] of magnitude at most 1.0, and it is the exact
    quotient of its 16-bit value by 32768, in that multiplying it by
    [32768.0f] gives that value back. *)
Theorem wav_read_samples_normalized (fs : FileSystem.t) (filename : string)
    (content : list byte) (out o : WavReader.outputs) :
  FileSystem.files fs !! filename = Some content ->
  WavHeader.bitsPerSample (WavHeader.of_bytes (take WavHeader.sizeof content)) = 16 ->
  WavReader.read fs filename out = Outcome.Ok (true, o) ->
  Forall (fun s => Float32.valid s = true /\
                   Float32.leb (Float32.abs s) Float32.one = true /\
                   exists v, -32768 <= v <= 32767 /\
                             Float32.mul s (Float32.of_Z 32768) = Float32.of_Z v)
         (WavReader.samples o).
Proof.
  intros Hfile Hbits Hread.
  destruct (read_success_16bit fs filename content out o Hfile Hbits Hread)
    as (count & got & ->).
  apply Forall_fmap. eapply Forall_impl; [apply raw_values_range|].
  intros v Hv. cbn. destruct (sample_of_int16_spec v Hv) as (Hle & Hex & Hvalid).
  split; [exact Hvalid|]. split; [exact Hle|]. exists v. auto.
Qed.

(** Instance of X23: the samples of [a.wav]. *)
Lemma wav_read_samples_normalized_witness :
  Forall (fun s => Float32.valid s = true /\
                   Float32.leb (Float32.abs s) Float32.one = true /\
                   exists v, -32768 <= v <= 32767 /\
                             Float32.mul s (Float32.of_Z 32768) = Float32.of_Z v)
         [Fixtures.half; Fixtures.neg_half].
Proof.
  apply (wav_read_samples_normalized Fixtures.disk "a.wav" Fixtures.wav_a
           (WavReader.mk_outputs [] 44100 2)
           (WavReader.mk_outputs [Fixtures.half; Fixtures.neg_half] 48000 1)
           eq_refl eq_refl eq_refl).
Defined.

End WavReaderFacts.

(* ------------------------------------------------------------------ *)
(** ** WavReader::write                                                *)

Section WavWriterFacts.
Import Outcome WavReader.
Local Open Scope Z_scope.

(** The header at the front of a written file reads back with the
    sample rate and the channel count that were passed to [write]. *)
Lemma written_header_metadata (n : nat) (sr ch : Z) (payload : list byte) :
  0 <= sr < 2 ^ 32 -> 0 <= ch < 2 ^ 16 ->
  let h := WavHeader.of_bytes
             (take WavHeader.sizeof (WavHeader.to_bytes (header_for n sr ch) ++ payload)) in
  WavHeader.sampleRate h = sr /\ WavHeader.numChannels h = ch /\
  WavHeader.riff h = WavHeader.tag_RIFF /\ WavHeader.bitsPerSample h = 16.
Proof.
  intros Hsr Hch. cbn zeta.
  unfold header_for, WavHeader.to_bytes, WavHeader.of_bytes.
  cbn [WavHeader.riff WavHeader.fileSize WavHeader.wave WavHeader.fmt WavHeader.fmtSize
       WavHeader.audioFormat WavHeader.numChannels WavHeader.sampleRate WavHeader.byteRate
       WavHeader.blockAlign WavHeader.bitsPerSample WavHeader.data WavHeader.dataSize].
  unfold WavHeader.tag_RIFF, WavHeader.tag_WAVE, WavHeader.tag_fmt, WavHeader.tag_data,
    WavHeader.sizeof, LittleEndian.slice.
  cbn [LittleEndian.encode app take drop firstn skipn].
  repeat split.
  - change (LittleEndian.decode (LittleEndian.encode 4 sr) = sr).
    rewrite decode_encode. apply Z.mod_small. exact Hsr.
  - change (LittleEndian.decode (LittleEndian.encode 2 ch) = ch).
    rewrite decode_encode. apply Z.mod_small. exact Hch.
Qed.

Lemma write_success_content (fs fs' : FileSystem.t) (filename : string)
    (samples : list Float32.float) (sr ch : Z) :
  write fs filename samples sr ch = Ok (true, fs') ->
  exists payload,
    FileSystem.files fs' !! filename
      = Some (WavHeader.to_bytes (header_for (length samples) sr ch) ++ payload).
Proof.
  unfold write. destruct (negb _); [discriminate|].
  destruct (mapM _ samples) as [vs|]; cbn [bind]; [|discriminate].
  intros H. injection H as <-. eexists. cbn. apply lookup_insert_eq.
Qed.

Lemma mapM_Forall2 {A B : Type} (k : A -> Outcome.t B) (l : list A) : forall bs,
  mapM k l = Ok bs -> Forall2 (fun a b => k a = Ok b) l bs.
Proof.
  induction l as [|a l IH]; cbn; intros bs H.
  - injection H as <-. constructor.
  - destruct (k a) as [b|] eqn:Hk; cbn in H; [|discriminate].
    destruct (mapM k l) as [bs'|] eqn:Hm; cbn in H; [|discriminate].
    injection H as <-. constructor; auto.
Qed.

Lemma to_int16_ok_range (x : Float32.float) (v : Z) :
  to_int16 x = Ok v -> -32768 <= v <= 32767.
Proof.
  unfold to_int16. destruct (truncate x) as [z|]; [|discriminate].
  destruct (andb _ _) eqn:Hr; [|discriminate]. intros H. injection H as <-.
  apply andb_prop in Hr as [H1 H2]. apply Z.leb_le in H1, H2. lia.
Qed.

Lemma write_success (fs fs' : FileSystem.t) (filename : string)
    (samples : list Float32.float) (sr ch : Z) :
  write fs filename samples sr ch = Ok (true, fs') ->
  exists vs,
    Forall2 (fun s v => to_int16 (Float32.mul s (Float32.of_Z 32767)) = Ok v) samples vs /\
    fs' = FileSystem.write_file fs filename
            (WavHeader.to_bytes (header_for (length samples) sr ch)
             ++ concat (LittleEndian.encode 2 <$> vs)).
Proof.
  unfold write. destruct (negb _); [discriminate|].
  destruct (mapM _ samples) as [vs|] eqn:Hm; cbn [bind]; [|discriminate].
  intros H. injection H as <-. exists vs. split; [|reflexivity].
  exact (mapM_Forall2 _ _ _ Hm).
Qed.

Lemma payload_length (vs : list Z) :
  length (concat (LittleEndian.encode 2 <$> vs)) = (2 * length vs)%nat.
Proof. induction vs as [|v vs IH]; cbn in *; [reflexivity|]. rewrite IH. lia. Qed.

Lemma payload_lookup (vs : list Z) : forall (i : nat) (v : Z),
  vs !! i = Some v ->
  concat (LittleEndian.encode 2 <$> vs) !! (2 * i)%nat = Some (LittleEndian.byte_of_Z v) /\
  concat (LittleEndian.encode 2 <$> vs) !! (2 * i + 1)%nat
    = Some (LittleEndian.byte_of_Z (v / 256)).
Proof.
  induction vs as [|w vs IH]; intros [|i] v H; cbn in H; try discriminate.
  - injection H as ->. split; reflexivity.
  - replace (2 * S i)%nat with (S (S (2 * i))) by lia.
    replace (S (S (2 * i)) + 1)%nat with (S (S (2 * i + 1))) by lia.
    exact (IH i v H).
Qed.

(** The 16-bit values that were written are the ones that are read. *)
Lemma raw_values_payload (vs : list Z) :
  Forall (fun v => -32768 <= v <= 32767) vs ->
  raw_values (length vs) (concat (LittleEndian.encode 2 <$> vs)) = vs.
Proof.
  intros Hvs. apply list_eq. intros i.
  destruct (decide (i < length vs)%nat) as [Hlt|Hge].
  - rewrite raw_values_lookup by exact Hlt.
    destruct (lookup_lt_is_Some_2 vs i Hlt) as [v Hv]. rewrite Hv.
    destruct (payload_lookup vs i v Hv) as [-> ->]. f_equal.
    etransitivity;
      [|exact (to_int16_decode v (proj1 (Forall_lookup _ _) Hvs i v Hv))].
    f_equal. cbn [default from_option id LittleEndian.encode LittleEndian.decode foldr].
    lia.
  - rewrite !lookup_ge_None_2; [reflexivity|lia|rewrite raw_values_length; lia].
Qed.

Lemma header_for_representable (n : nat) (sr ch : Z) :
  0 <= sr < 2 ^ 32 -> 0 <= ch < 2 ^ 16 -> WavHeader.representable (header_for n sr ch).
Proof.
  intros Hsr Hch. unfold WavHeader.representable, header_for.
  cbn [WavHeader.riff WavHeader.fileSize WavHeader.wave WavHeader.fmt WavHeader.fmtSize
       WavHeader.audioFormat WavHeader.numChannels WavHeader.sampleRate WavHeader.byteRate
       WavHeader.blockAlign WavHeader.bitsPerSample WavHeader.data WavHeader.dataSize].
  repeat split; try reflexivity; try lia; try discriminate;
    apply Z.mod_pos_bound; lia.
Qed.

(** X24. What [write] leaves on disk.  When the file cannot be created
    it returns [false] and writes nothing.  When it returns [true], the
    file holds 44 header bytes followed by two bytes per sample, the
    header decodes to the fields [write] assigned (the four tags, format
    1, 16 bits, the given rate and channel count, and the sizes derived
    from them, each reduced to the width of its field), and no other
    file has changed. *)
Theorem wav_write_layout (fs : FileSystem.t) (filename : string)
    (samples : list Float32.float) (sr ch : Z) :
  0 <= sr < 2 ^ 32 -> 0 <= ch < 2 ^ 16 ->
  (FileSystem.can_create fs filename = false ->
     WavReader.write fs filename samples sr ch = Outcome.Ok (false, fs)) /\
  forall fs' : FileSystem.t,
    WavReader.write fs filename samples sr ch = Outcome.Ok (true, fs') ->
    exists written,
      FileSystem.files fs' !! filename = Some written /\
      length written = (44 + 2 * length samples)%nat /\
      (let h := WavHeader.of_bytes (take WavHeader.sizeof written) in
       h = WavReader.header_for (length samples) sr ch /\
       WavHeader.riff h = WavHeader.tag_RIFF /\ WavHeader.wave h = WavHeader.tag_WAVE /\
       WavHeader.fmt h = WavHeader.tag_fmt /\ WavHeader.data h = WavHeader.tag_data /\
       WavHeader.fmtSize h = 16 /\ WavHeader.audioFormat h = 1 /\
       WavHeader.bitsPerSample h = 16 /\
       WavHeader.numChannels h = ch /\ WavHeader.sampleRate h = sr /\
       WavHeader.blockAlign h = (ch * 2) mod 2 ^ 16 /\
       WavHeader.byteRate h = (sr * WavHeader.blockAlign h) mod 2 ^ 32 /\
       WavHeader.dataSize h = (Z.of_nat (length samples) * 2) mod 2 ^ 32 /\
       WavHeader.fileSize h = (36 + WavHeader.dataSize h) mod 2 ^ 32) /\
      (forall other, other <> filename ->
         FileSystem.files fs' !! other = FileSystem.files fs !! other) /\
      FileSystem.can_create fs' = FileSystem.can_create fs.
Proof.
  intros Hsr Hch. split.
  - intros Hno. unfold write. now rewrite Hno.
  - intros fs' Hwrite.
    destruct (write_success fs fs' filename samples sr ch Hwrite) as (vs & HF & ->).
    eexists. split;
      [unfold FileSystem.write_file; cbn [FileSystem.files]; apply lookup_insert_eq|].
    destruct (of_to_bytes (header_for (length samples) sr ch)
                (concat (LittleEndian.encode 2 <$> vs))
                (header_for_representable _ sr ch Hsr Hch)) as (Hof & _ & Hlen).
    split; [|split; [|split]].
    + rewrite length_app, Hlen, payload_length, <- (Forall2_length _ _ _ HF).
      reflexivity.
    + cbv zeta. rewrite Hof. unfold header_for.
      cbn [WavHeader.riff WavHeader.fileSize WavHeader.wave WavHeader.fmt
           WavHeader.fmtSize WavHeader.audioFormat WavHeader.numChannels
           WavHeader.sampleRate WavHeader.byteRate WavHeader.blockAlign
           WavHeader.bitsPerSample WavHeader.data WavHeader.dataSize].
      repeat split. unfold SizeT.wrap, SizeT.modulus.
      apply Z.mod_mod_divide. exists (2 ^ 32). reflexivity.
    + intros other Hother. unfold FileSystem.write_file; cbn [FileSystem.files].
      apply lookup_insert_ne. congruence.
    + reflexivity.
Qed.

(** Instance of X24: one sample written to a fresh path. *)
Lemma wav_write_layout_witness :
  exists fs' written,
    WavReader.write Fixtures.disk "out.wav" [Fixtures.half] 48000 1 = Outcome.Ok (true, fs') /\
    FileSystem.files fs' !! "out.wav"%string = Some written /\
    length written = 46%nat.
Proof.
  destruct (WavReader.write Fixtures.disk "out.wav" [Fixtures.half] 48000 1)
    as [[ok fs']|] eqn:Hw; [|vm_compute in Hw; discriminate].
  destruct ok; [|vm_compute in Hw; discriminate].
  destruct (proj2 (wav_write_layout Fixtures.disk "out.wav" [Fixtures.half] 48000 1
                     ltac:(lia) ltac:(lia)) fs' Hw) as (written & Hfile & Hlen & _).
  exists fs', written. auto.
Defined.

(** X25. A file written by [write] reads back: for a rate and a channel
    count that fit their fields and fewer than [2^31] samples, [read] on
    the written file succeeds, returns that rate and that channel count,
    and returns one sample per written sample, namely [v / 32768.0f] for
    the 16-bit value [v] that [write] stored for it,
    [static_cast<int16_t>(s * 32767.0f)]. *)
Theorem wav_write_read_round_trip (fs fs' : FileSystem.t) (filename : string)
    (samples : list Float32.float) (sr ch : Z) (out : WavReader.outputs) :
  0 <= sr < 2 ^ 32 -> 0 <= ch < 2 ^ 16 -> 2 * Z.of_nat (length samples) < 2 ^ 32 ->
  WavReader.write fs filename samples sr ch = Outcome.Ok (true, fs') ->
  exists vs,
    Forall2 (fun s v => WavReader.to_int16 (Float32.mul s (Float32.of_Z 32767))
                        = Outcome.Ok v) samples vs /\
    WavReader.read fs' filename out
      = Outcome.Ok (true, WavReader.mk_outputs (WavReader.sample_of_int16 <$> vs) sr ch).
Proof.
  intros Hsr Hch Hn Hwrite.
  destruct (write_success fs fs' filename samples sr ch Hwrite) as (vs & HF & ->).
  exists vs. split; [exact HF|].
  pose proof (Forall2_length _ _ _ HF) as Hlen.
  set (h := header_for (length samples) sr ch).
  set (payload := concat (LittleEndian.encode 2 <$> vs)).
  destruct (of_to_bytes h payload (header_for_representable _ sr ch Hsr Hch))
    as (Hof & Hdrop & Hlenh).
  assert (Hds : WavHeader.dataSize h = 2 * Z.of_nat (length vs)).
  { unfold h, header_for; cbn [WavHeader.dataSize]. unfold SizeT.wrap, SizeT.modulus.
    rewrite !Z.mod_small; [lia|lia|]. rewrite Z.mod_small; [lia|].
    change (2 ^ 64) with (2 ^ 32 * 2 ^ 32). nia. }
  rewrite (read_16bit _ filename (WavHeader.to_bytes h ++ payload) h out);
    [|unfold FileSystem.write_file; cbn [FileSystem.files]; apply lookup_insert_eq
     |rewrite length_app; lia|exact Hof|reflexivity..].
  rewrite Hdrop, Hds.
  replace (2 * Z.of_nat (length vs) / 2) with (Z.of_nat (length vs))
    by (rewrite Z.mul_comm, Z.div_mul; lia).
  rewrite Nat2Z.id.
  rewrite take_ge by (unfold payload; rewrite payload_length; lia).
  rewrite bool_decide_eq_false_2 by (unfold payload; rewrite payload_length; lia).
  unfold payload. rewrite raw_values_payload.
  - reflexivity.
  - apply (proj2 (Forall_lookup _ _)). intros i v Hi.
    destruct (Forall2_lookup_r _ _ _ _ _ HF Hi) as (x & _ & Hx).
    exact (to_int16_ok_range _ _ Hx).
Qed.

(** Instance of X25: the samples 0.5 and -0.5 come back as 16383/32768
    and -16383/32768. *)
Lemma wav_write_read_round_trip_witness :
  exists fs',
    WavReader.write Fixtures.disk "out.wav" [Fixtures.half; Fixtures.neg_half] 48000 1
      = Outcome.Ok (true, fs') /\
    WavReader.read fs' "out.wav" (WavReader.mk_outputs [] 44100 2)
      = Outcome.Ok (true, WavReader.mk_outputs
                            (WavReader.sample_of_int16 <$> [16383; -16383]) 48000 1).
Proof.
  destruct (WavReader.write Fixtures.disk "out.wav" [Fixtures.half; Fixtures.neg_half]
              48000 1) as [[ok fs']|] eqn:Hw; [|vm_compute in Hw; discriminate].
  destruct ok; [|vm_compute in Hw; discriminate].
  exists fs'. split; [reflexivity|].
  destruct (wav_write_read_round_trip Fixtures.disk fs' "out.wav"
              [Fixtures.half; Fixtures.neg_half] 48000 1 (WavReader.mk_outputs [] 44100 2)
              ltac:(lia) ltac:(lia) ltac:(cbn; lia) Hw) as (vs & HF & Hread).
  rewrite Hread. do 3 f_equal.
  inversion HF as [|s1 v1 l1 vs1 H1 HF1]; subst.
  inversion HF1 as [|s2 v2 l2 vs2 H2 HF2]; subst.
  inversion HF2; subst.
  vm_compute in H1, H2. congruence.
Defined.

Lemma mapM_ok {A B : Type} (k : A -> Outcome.t B) (l : list A) :
  Forall (fun a => exists b, k a = Ok b) l -> exists bs, mapM k l = Ok bs.
Proof.
  induction 1 as [|a l [b Hb] _ [bs Hbs]]; cbn.
  - eauto.
  - rewrite Hb. cbn. rewrite Hbs. cbn. eauto.
Qed.

(** [static_cast<int16_t>] of a number below [2^15] in magnitude. *)
Lemma to_int16_below (sx : bool) (m : positive) (e : Z) :
  Zpos m < 2 ^ (15 - e) ->
  exists z, to_int16 (S754_finite sx m e) = Ok z /\ -32767 <= z <= 32767.
Proof.
  intros Hlt. unfold to_int16, truncate.
  set (mag := if 0 <=? e then Zpos m * 2 ^ e else Zpos m / 2 ^ (- e)).
  assert (Hmag : 0 <= mag < 32768).
  { subst mag. destruct (Z.leb_spec 0 e) as [Hpos|Hneg].
    - assert (He : e < 15).
      { destruct (Z.lt_ge_cases e 15) as [|Hge]; [assumption|exfalso].
        destruct (Z.eq_dec e 15) as [->|Hne]; [change (2 ^ (15 - 15)) with 1 in Hlt; lia|].
        rewrite Z.pow_neg_r in Hlt by lia. lia. }
      assert (Hp : 0 < 2 ^ e) by (apply pow2_pos; lia).
      split; [lia|]. change 32768 with (2 ^ 15). rewrite (pow2_split 15 e) by lia.
      apply Z.mul_lt_mono_pos_r; assumption.
    - assert (Hp : 0 < 2 ^ (- e)) by (apply pow2_pos; lia).
      split; [apply Z.div_pos; lia|].
      apply Z.div_lt_upper_bound; [exact Hp|].
      change 32768 with (2 ^ 15). rewrite <- Z.pow_add_r by lia.
      replace (- e + 15) with (15 - e) by lia. exact Hlt. }
  exists (if sx then - mag else mag).
  replace ((-32768 <=? (if sx then - mag else mag)) && ((if sx then - mag else mag) <=? 32767))
    with true; [destruct sx; split; reflexivity || lia|].
  symmetry. apply andb_true_intro. split; apply Z.leb_le; destruct sx; lia.
Qed.

(** [static_cast<int16_t>(s * 32767.0f)] is defined for every [s] of
    magnitude at most 1.0. *)
Lemma sample_to_int16_defined (s : Float32.float) :
  Float32.valid s = true -> Float32.leb (Float32.abs s) Float32.one = true ->
  exists z, to_int16 (Float32.mul s (Float32.of_Z 32767)) = Ok z /\ -32767 <= z <= 32767.
Proof.
  intros Hv Hle. destruct s as [sg|sg| |sg m e]; try discriminate.
  - exists 0. destruct sg; (split; [reflexivity|lia]).
  - destruct (bounded_cases m e Hv) as (_ & He & Hd24).
    pose proof (digits2_pos_bounds m) as [_ Hm].
    assert (Hm24 : Zpos m < 2 ^ 24).
    { assert (2 ^ Zpos (digits2_pos m) <= 2 ^ 24) by (apply Z.pow_le_mono_r; lia). lia. }
    assert (Hme : e <= -23 /\ Zpos m <= 2 ^ (- e)).
    { rewrite one_eq in Hle.
      unfold Float32.leb, Float32.abs, SFleb, SFabs, SFcompare in Hle.
      destruct (Z.compare_spec e (-23)) as [->|Hlt|Hgt]; [| |discriminate].
      - split; [lia|]. change (2 ^ (- -23)) with 8388608.
        destruct (Pos.compare_cont Eq m 8388608) eqn:Hc; try discriminate.
        + apply Pos.compare_eq in Hc. subst m. lia.
        + apply (proj1 (Pos.compare_lt_iff m 8388608)) in Hc.
          apply Pos2Z.pos_lt_pos in Hc. lia.
      - split; [lia|].
        assert (2 ^ 24 <= 2 ^ (- e)) by (apply Z.pow_le_mono_r; lia). lia. }
    destruct Hme as [He23 Hmle]. clear Hle Hv Hm.
    change (Float32.of_Z 32767) with (S754_finite false 16776704 (-9)).
    unfold Float32.mul, SFmul, Float32.prec, Float32.emax.
    rewrite xorb_false_r, Pos2Z.inj_mul.
    assert (Hside : Zpos m * 16776704 + 2 ^ (15 - 24 - (e + -9)) < 2 ^ (15 - (e + -9))).
    { replace (15 - 24 - (e + -9)) with (- e) by lia.
      replace (15 - (e + -9)) with (24 + - e) by lia.
      rewrite Z.pow_add_r by lia. change (2 ^ 24) with 16777216.
      assert (0 < 2 ^ (- e)) by (apply pow2_pos; lia).
      generalize dependent (2 ^ (- e)). intros; lia. }
    destruct (binary_round_aux_below sg (Zpos m * 16776704) (e + -9) 15 loc_Exact)
      as [Hz|(m2 & e2 & Hf & Hlt & _)]; try lia.
    + rewrite Hz. exists 0. split; [reflexivity|lia].
    + rewrite Hf. apply to_int16_below. exact Hlt.
Qed.

(** X26. [write] stays within defined behaviour on every run of samples
    of magnitude at most 1.0: each [static_cast<int16_t>(s * 32767.0f)]
    has a value between -32767 and 32767 and the file is written.  It does
    not clip: on the sample 2.0 the conversion does not fit 16 bits. *)
Theorem wav_write_defined_on_unit_range (fs : FileSystem.t) (filename : string)
    (samples : list Float32.float) (sr ch : Z) :
  FileSystem.can_create fs filename = true ->
  Forall (fun s => Float32.valid s = true /\
                   Float32.leb (Float32.abs s) Float32.one = true) samples ->
  (exists fs', WavReader.write fs filename samples sr ch = Outcome.Ok (true, fs')) /\
  WavReader.write fs filename (samples ++ [Float32.of_Z 2]) sr ch
    = Outcome.Fault Outcome.ConversionOutOfRange.
Proof.
  intros Hcan Hunit.
  destruct (mapM_ok (fun s => to_int16 (Float32.mul s (Float32.of_Z 32767))) samples)
    as [vs Hvs].
  { eapply Forall_impl; [exact Hunit|]. intros s [Hv Hle].
    destruct (sample_to_int16_defined s Hv Hle) as (z & Hz & _). eauto. }
  unfold write. rewrite Hcan. cbn [negb]. split.
  - rewrite Hvs. cbn [bind]. eauto.
  - clear Hunit. revert vs Hvs. induction samples as [|s samples IH]; intros vs Hvs.
    + reflexivity.
    + cbn [app mapM] in *. destruct (to_int16 _) as [v|]; cbn [bind] in *; [|discriminate].
      destruct (mapM _ samples) as [vs'|] eqn:Hm; cbn [bind] in Hvs; [|discriminate].
      specialize (IH vs' eq_refl).
      destruct (mapM _ (samples ++ _)) as [ws|f]; cbn [bind] in *; [discriminate|].
      exact IH.
Qed.

(** Instance of X26: the samples 0.5 and -0.5. *)
Lemma wav_write_defined_on_unit_range_witness :
  exists fs',
    WavReader.write Fixtures.disk "out.wav" [Fixtures.half; Fixtures.neg_half] 48000 1
      = Outcome.Ok (true, fs').
Proof.
  refine (proj1 (wav_write_defined_on_unit_range Fixtures.disk "out.wav"
                   [Fixtures.half; Fixtures.neg_half] 48000 1 eq_refl _)).
  repeat constructor.
Defined.

End WavWriterFacts.

(* ------------------------------------------------------------------ *)
(** ** AudioEngine                                                     *)

Section AudioEngineFacts.
Import Outcome AudioEngine.
Local Open Scope Z_scope.

(** C3 (as stated, refuted).  With [a.wav] readable and the second path
    missing, [loadFiles] returns [false] but the engine is not as it
    was: [buffer1] holds the samples of [a.wav] and the stored sample
    rate and channel count are those of [a.wav]. *)
Lemma loadFiles_partial_load :
  exists e',
    AudioEngine.loadFiles Fixtures.disk "a.wav" "nowhere.wav" (AudioEngine.create 1024)
      = Outcome.Ok (false, e') /\
    AudioEngine.buffer1 e' = [Fixtures.half; Fixtures.neg_half] /\
    AudioEngine.buffer1 (AudioEngine.create 1024) = [] /\
    AudioEngine.sampleRate e' = 48000 /\
    AudioEngine.sampleRate (AudioEngine.create 1024) = 44100 /\
    AudioEngine.channels e' = 1 /\
    AudioEngine.channels (AudioEngine.create 1024) = 2 /\
    e' <> AudioEngine.create 1024.
Proof.
  eexists. split; [vm_compute; reflexivity|].
  repeat split; try (vm_compute; reflexivity). discriminate.
Qed.

(** C3 (amended).  If reading the first source succeeds and reading the
    second source fails, [loadFiles] returns [false] and leaves
    [buffer2], [outputBuffer] and the arena unchanged. *)
Theorem loadFiles_second_failure (fs : FileSystem.t) (f1 f2 : string)
    (e : AudioEngine.t) (o1 o2 : WavReader.outputs) :
  WavReader.read fs f1
    (WavReader.mk_outputs (AudioEngine.buffer1 e) (AudioEngine.sampleRate e)
       (AudioEngine.channels e)) = Outcome.Ok (true, o1) ->
  WavReader.read fs f2
    (WavReader.mk_outputs (AudioEngine.buffer2 e) (WavReader.sr o1) (WavReader.ch o1))
    = Outcome.Ok (false, o2) ->
  exists e',
    AudioEngine.loadFiles fs f1 f2 e = Outcome.Ok (false, e') /\
    AudioEngine.buffer2 e' = AudioEngine.buffer2 e /\
    AudioEngine.outputBuffer e' = AudioEngine.outputBuffer e /\
    AudioEngine.arena e' = AudioEngine.arena e.
Proof.
  intros H1 H2. unfold loadFiles. rewrite H1. cbn [bind negb].
  cbn [buffer2 sampleRate channels]. rewrite H2. cbn [bind negb].
  eexists. split; [reflexivity|]. cbn.
  apply read_failure_keeps_outputs in H2. subst o2. repeat split.
Qed.

(** Instance of C3: [a.wav] loads, the second path does not exist. *)
Lemma loadFiles_second_failure_witness :
  exists e',
    AudioEngine.loadFiles Fixtures.disk "a.wav" "nowhere.wav" (AudioEngine.create 1024)
      = Outcome.Ok (false, e') /\
    AudioEngine.buffer2 e' = [] /\ AudioEngine.outputBuffer e' = [] /\
    AudioEngine.arena e' = MemoryArena.create 1024.
Proof.
  exact (loadFiles_second_failure Fixtures.disk "a.wav" "nowhere.wav"
           (AudioEngine.create 1024)
           (WavReader.mk_outputs [Fixtures.half; Fixtures.neg_half]
              48000 1)
           (WavReader.mk_outputs [] 48000 1) eq_refl eq_refl).
Defined.

(** C9. After a successful [loadFiles(f1, f2)] the stored sample rate
    and channel count are the ones in the header of [f2], whatever [f1]
    carried; a subsequent successful [save], right away or after
    [process], writes a file whose header carries exactly that rate and
    that channel count. *)
Theorem loadFiles_keeps_second_metadata (fs : FileSystem.t) (f1 f2 : string)
    (e e' : AudioEngine.t) :
  AudioEngine.loadFiles fs f1 f2 e = Outcome.Ok (true, e') ->
  exists content2,
    FileSystem.files fs !! f2 = Some content2 /\
    let h2 := WavHeader.of_bytes (take WavHeader.sizeof content2) in
    AudioEngine.sampleRate e' = WavHeader.sampleRate h2 /\
    AudioEngine.channels e' = WavHeader.numChannels h2 /\
    forall (e'' : AudioEngine.t) (fs1 fs2 : FileSystem.t) (out : string),
      (e'' = e' \/ exists avx g1 g2, e'' = AudioEngine.process avx g1 g2 e') ->
      AudioEngine.save fs1 out e'' = Outcome.Ok (true, fs2) ->
      exists written,
        FileSystem.files fs2 !! out = Some written /\
        WavHeader.sampleRate (WavHeader.of_bytes (take WavHeader.sizeof written))
          = WavHeader.sampleRate h2 /\
        WavHeader.numChannels (WavHeader.of_bytes (take WavHeader.sizeof written))
          = WavHeader.numChannels h2.
Proof.
  unfold loadFiles. intros Hload.
  destruct (WavReader.read fs f1 _) as [[ok1 o1]|] eqn:H1; cbn [bind] in Hload;
    [|discriminate].
  destruct ok1; cbn [negb] in Hload; [|discriminate].
  cbn [buffer2 sampleRate channels] in Hload.
  destruct (WavReader.read fs f2 _) as [[ok2 o2]|] eqn:H2; cbn [bind] in Hload;
    [|discriminate].
  destruct ok2; cbn [negb] in Hload; [|discriminate].
  injection Hload as <-.
  destruct (read_success_metadata _ _ _ _ H2) as (content2 & Hfile & Hsr & Hch).
  exists content2. split; [exact Hfile|]. cbn zeta.
  cbn [sampleRate channels]. split; [exact Hsr|]. split; [exact Hch|].
  intros e'' fs1 fs2 out He'' Hsave.
  assert (Hmeta : sampleRate e'' = WavReader.sr o2 /\ channels e'' = WavReader.ch o2).
  { destruct He'' as [->|(avx & g1 & g2 & ->)]; split; reflexivity. }
  destruct Hmeta as [Hm1 Hm2].
  unfold save in Hsave. rewrite Hm1, Hm2 in Hsave.
  destruct (write_success_content _ _ _ _ _ _ Hsave) as (payload & Hwritten).
  eexists. split; [exact Hwritten|].
  destruct (header_field_range (take WavHeader.sizeof content2)) as (Hr1 & Hr2 & _).
  cbn zeta in Hr1, Hr2. rewrite <- Hsr in Hr1. rewrite <- Hch in Hr2.
  match goal with
  | |- context [WavReader.header_for ?n _ _] =>
      destruct (written_header_metadata n _ _ payload Hr1 Hr2) as (Hw1 & Hw2 & _)
  end.
  cbn zeta in Hw1, Hw2. rewrite Hw1, Hw2, Hsr, Hch. split; reflexivity.
Qed.

(** Instance of C9: the first file is 48 kHz mono, the second 22.05 kHz
    stereo; the engine ends with 22050 and 2, and so does the header of
    the file saved after [process]. *)
Lemma loadFiles_keeps_second_metadata_witness :
  exists e' fs2 written,
    AudioEngine.loadFiles Fixtures.disk "a.wav" "b.wav" (AudioEngine.create 1024)
      = Outcome.Ok (true, e') /\
    WavHeader.sampleRate (WavHeader.of_bytes (take WavHeader.sizeof Fixtures.wav_a)) = 48000 /\
    WavHeader.numChannels (WavHeader.of_bytes (take WavHeader.sizeof Fixtures.wav_a)) = 1 /\
    AudioEngine.sampleRate e' = 22050 /\ AudioEngine.channels e' = 2 /\
    AudioEngine.save Fixtures.disk "out.wav"
      (AudioEngine.process true Float32.one Float32.one e') = Outcome.Ok (true, fs2) /\
    FileSystem.files fs2 !! "out.wav"%string = Some written /\
    WavHeader.sampleRate (WavHeader.of_bytes (take WavHeader.sizeof written)) = 22050 /\
    WavHeader.numChannels (WavHeader.of_bytes (take WavHeader.sizeof written)) = 2.
Proof.
  destruct (AudioEngine.loadFiles Fixtures.disk "a.wav" "b.wav" (AudioEngine.create 1024))
    as [[ok e']|] eqn:Hload; [|vm_compute in Hload; discriminate].
  destruct ok; [|vm_compute in Hload; discriminate].
  destruct (loadFiles_keeps_second_metadata Fixtures.disk "a.wav" "b.wav"
              (AudioEngine.create 1024) e' Hload)
    as (content2 & Hfile & Hsr & Hch & Hsave).
  change (Some Fixtures.wav_b = Some content2) in Hfile. injection Hfile as <-.
  destruct (AudioEngine.save Fixtures.disk "out.wav"
              (AudioEngine.process true Float32.one Float32.one e'))
    as [[ok fs2]|] eqn:Hs.
  2:{ vm_compute in Hload. injection Hload as <-. vm_compute in Hs. discriminate. }
  destruct ok.
  2:{ vm_compute in Hload. injection Hload as <-. vm_compute in Hs. discriminate. }
  destruct (Hsave _ Fixtures.disk fs2 "out.wav"%string
              (or_intror (ex_intro _ true (ex_intro _ Float32.one
                 (ex_intro _ Float32.one eq_refl)))) Hs)
    as (written & Hw & Hwsr & Hwch).
  exists e', fs2, written.
  split; [reflexivity|]. split; [vm_compute; reflexivity|].
  split; [vm_compute; reflexivity|].
  split; [exact Hsr|]. split; [exact Hch|]. split; [exact Hs|].
  split; [exact Hw|]. split; [exact Hwsr|exact Hwch].
Defined.

(** X3. What [process] leaves in the output: below the length of the
    shortest of the two inputs and the output, the sum of the two gained
    samples; from there on, the sample that was in [outputBuffer] before
    the call. *)
Theorem process_output_lookup (avx : bool) (g1 g2 : Float32.float) (e : AudioEngine.t)
    (i : nat) :
  AudioEngine.outputBuffer (AudioEngine.process avx g1 g2 e) !! i =
    if decide (i < length (AudioEngine.buffer1 e) `min`
                     (length (AudioEngine.buffer2 e) `min`
                        length (AudioEngine.outputBuffer e)))%nat
    then Some (Float32.add (Float32.mul (AudioEngine.buffer1 e !!! i) g1)
                           (Float32.mul (AudioEngine.buffer2 e !!! i) g2))
    else AudioEngine.outputBuffer e !! i.
Proof.
  unfold process, GainNode.process. cbn zeta. cbn [outputBuffer].
  rewrite mix_data_lookup.
  pose proof (gain_processImpl_data avx (GainNode.mk g1) (AudioBuffer.view (buffer1 e)))
    as Hg1.
  pose proof (gain_processImpl_data avx (GainNode.mk g2) (AudioBuffer.view (buffer2 e)))
    as Hg2.
  cbn [GainNode.gain AudioBuffer.view AudioBuffer.data] in Hg1, Hg2.
  assert (Hlen1 : length (AudioBuffer.data
                    (GainNode.processImpl avx (GainNode.mk g1) (AudioBuffer.view (buffer1 e))))
                  = length (buffer1 e)) by (rewrite Hg1; apply length_fmap).
  assert (Hlen2 : length (AudioBuffer.data
                    (GainNode.processImpl avx (GainNode.mk g2) (AudioBuffer.view (buffer2 e))))
                  = length (buffer2 e)) by (rewrite Hg2; apply length_fmap).
  unfold MixerNode.len, AudioBuffer.size. rewrite Hlen1, Hlen2.
  cbn [AudioBuffer.view AudioBuffer.data].
  destruct (decide _) as [Hin|]; [|reflexivity].
  f_equal. f_equal.
  - apply list_lookup_total_correct. rewrite Hg1, list_lookup_fmap.
    rewrite (list_lookup_lookup_total_lt (buffer1 e) i) by lia. reflexivity.
  - apply list_lookup_total_correct. rewrite Hg2, list_lookup_fmap.
    rewrite (list_lookup_lookup_total_lt (buffer2 e) i) by lia. reflexivity.
Qed.

(** C4 (evaluation of the code at the failing input).  [a.wav] holds
    the samples 0.5 and -0.5, [b.wav] the single sample 0.25.  After
    [loadFiles] the output has the length of the longer input, 2.  After
    [process(1.0, 1.0)], with either build, sample 0 is 0.75 and sample 1
    is the 0.0 that [resize] put there: not the gained sample -0.5 of the
    longer input. *)
Theorem process_silences_longer_tail :
  exists e,
    AudioEngine.loadFiles Fixtures.disk "a.wav" "b.wav" (AudioEngine.create 1024)
      = Outcome.Ok (true, e) /\
    AudioEngine.buffer1 e = [Fixtures.half; Fixtures.neg_half] /\
    AudioEngine.buffer2 e = [Fixtures.quarter] /\
    length (AudioEngine.outputBuffer e) = 2%nat /\
    forall avx : bool,
      let e' := AudioEngine.process avx Float32.one Float32.one e in
      AudioEngine.outputBuffer e'
        = [Float32.add Fixtures.half Fixtures.quarter; Float32.zero] /\
      AudioEngine.buffer1 e' !! 1%nat = Some (Fixtures.neg_half) /\
      AudioEngine.outputBuffer e' !! 1%nat <> AudioEngine.buffer1 e' !! 1%nat.
Proof.
  eexists. split; [vm_compute; reflexivity|].
  split; [vm_compute; reflexivity|]. split; [vm_compute; reflexivity|].
  split; [vm_compute; reflexivity|].
  intros avx. cbv zeta.
  destruct avx;
    (split; [vm_compute; reflexivity|];
     split; [vm_compute; reflexivity|vm_compute; discriminate]).
Qed.

Lemma resize_lookup (n : nat) (v : list Float32.float) (i : nat) :
  WavReader.resize n v !! i =
    if decide (i < n)%nat then Some (default Float32.zero (v !! i)) else None.
Proof.
  unfold WavReader.resize.
  destruct (decide (i < n)%nat) as [Hlt|Hge].
  - destruct (decide (i < length v)%nat) as [Hv|Hv].
    + rewrite lookup_app_l by (rewrite length_take; lia).
      rewrite lookup_take_lt by lia.
      destruct (lookup_lt_is_Some_2 v i Hv) as [x ->]. reflexivity.
    + rewrite lookup_app_r by (rewrite length_take; lia).
      rewrite (lookup_ge_None_2 v i) by lia. cbn.
      apply lookup_replicate_2. rewrite length_take. lia.
  - apply lookup_ge_None_2. rewrite length_app, length_take, length_replicate. lia.
Qed.

Lemma resize_length (n : nat) (v : list Float32.float) :
  length (WavReader.resize n v) = n.
Proof.
  unfold WavReader.resize. rewrite length_app, length_take, length_replicate. lia.
Qed.

(** X27. What [loadFiles] does to the engine.  If the first file cannot
    be read, it returns [false] and the engine is exactly as it was.  If
    it returns [true], both reads succeeded, [buffer1] and [buffer2] hold
    the samples they returned, and [outputBuffer] has the length of the
    longer of the two: it keeps the samples it held before the call, up
    to that length, and every sample added is [+0].  In no case is the
    arena used. *)
Theorem loadFiles_outcome (fs : FileSystem.t) (f1 f2 : string) (e : AudioEngine.t) :
  (forall o1 : WavReader.outputs,
     WavReader.read fs f1
       (WavReader.mk_outputs (AudioEngine.buffer1 e) (AudioEngine.sampleRate e)
          (AudioEngine.channels e)) = Outcome.Ok (false, o1) ->
     AudioEngine.loadFiles fs f1 f2 e = Outcome.Ok (false, e)) /\
  (forall (ok : bool) (e' : AudioEngine.t),
     AudioEngine.loadFiles fs f1 f2 e = Outcome.Ok (ok, e') ->
     AudioEngine.arena e' = AudioEngine.arena e) /\
  (forall e' : AudioEngine.t,
     AudioEngine.loadFiles fs f1 f2 e = Outcome.Ok (true, e') ->
     exists o1 o2,
       WavReader.read fs f1
         (WavReader.mk_outputs (AudioEngine.buffer1 e) (AudioEngine.sampleRate e)
            (AudioEngine.channels e)) = Outcome.Ok (true, o1) /\
       WavReader.read fs f2
         (WavReader.mk_outputs (AudioEngine.buffer2 e) (WavReader.sr o1) (WavReader.ch o1))
         = Outcome.Ok (true, o2) /\
       AudioEngine.buffer1 e' = WavReader.samples o1 /\
       AudioEngine.buffer2 e' = WavReader.samples o2 /\
       length (AudioEngine.outputBuffer e')
         = (length (WavReader.samples o1) `max` length (WavReader.samples o2))%nat /\
       forall i, (i < length (AudioEngine.outputBuffer e'))%nat ->
         AudioEngine.outputBuffer e' !! i
           = Some (default Float32.zero (AudioEngine.outputBuffer e !! i))).
Proof.
  unfold loadFiles. split; [|split].
  - intros o1 H1. rewrite H1. cbn [bind negb].
    apply read_failure_keeps_outputs in H1. subst o1. destruct e; reflexivity.
  - intros ok e' Hload.
    destruct (WavReader.read fs f1 _) as [[ok1 o1]|]; cbn [bind] in Hload; [|discriminate].
    destruct ok1; cbn [negb] in Hload; [|injection Hload as _ <-; reflexivity].
    destruct (WavReader.read fs f2 _) as [[ok2 o2]|]; cbn [bind] in Hload; [|discriminate].
    destruct ok2; cbn [negb] in Hload; injection Hload as _ <-; reflexivity.
  - intros e' Hload.
    destruct (WavReader.read fs f1 _) as [[ok1 o1]|] eqn:H1; cbn [bind] in Hload;
      [|discriminate].
    destruct ok1; cbn [negb] in Hload; [|discriminate].
    cbn [buffer2 sampleRate channels] in Hload.
    destruct (WavReader.read fs f2 _) as [[ok2 o2]|] eqn:H2; cbn [bind] in Hload;
      [|discriminate].
    destruct ok2; cbn [negb] in Hload; [|discriminate].
    injection Hload as <-. exists o1, o2. cbn [buffer1 buffer2 outputBuffer].
    split; [reflexivity|]. split; [exact H2|]. split; [reflexivity|].
    split; [reflexivity|]. split; [apply resize_length|].
    intros i Hi. rewrite resize_length in Hi. rewrite resize_lookup.
    destruct (decide _); [reflexivity|lia].
Qed.

(** Instance of X27: a missing first file, and [a.wav] with [b.wav]. *)
Lemma loadFiles_outcome_witness :
  AudioEngine.loadFiles Fixtures.disk "nowhere.wav" "b.wav" (AudioEngine.create 1024)
    = Outcome.Ok (false, AudioEngine.create 1024) /\
  exists e',
    AudioEngine.loadFiles Fixtures.disk "a.wav" "b.wav" (AudioEngine.create 1024)
      = Outcome.Ok (true, e') /\
    length (AudioEngine.outputBuffer e') = 2%nat.
Proof.
  split.
  - apply (proj1 (loadFiles_outcome Fixtures.disk "nowhere.wav" "b.wav"
                    (AudioEngine.create 1024)) (WavReader.mk_outputs [] 44100 2)).
    reflexivity.
  - destruct (AudioEngine.loadFiles Fixtures.disk "a.wav" "b.wav" (AudioEngine.create 1024))
      as [[ok e']|] eqn:Hload; [|vm_compute in Hload; discriminate].
    destruct ok; [|vm_compute in Hload; discriminate].
    exists e'. split; [reflexivity|].
    destruct (proj2 (proj2 (loadFiles_outcome Fixtures.disk "a.wav" "b.wav"
                              (AudioEngine.create 1024))) e' Hload)
      as (o1 & o2 & H1 & H2 & _ & _ & Hlen & _).
    rewrite Hlen. vm_compute in H1. injection H1 as <-.
    vm_compute in H2. injection H2 as <-. reflexivity.
Defined.

(** X4. [process] works in place: it leaves in [buffer1] and [buffer2]
    the samples they held multiplied by their gains, so that a second
    call applies its gains to samples that already carry the gains of the
    first; the lengths of the three buffers, the sample rate, the channel
    count and the arena are as before. *)
Theorem process_in_place (avx : bool) (g1 g2 : Float32.float) (e : AudioEngine.t) :
  let e' := AudioEngine.process avx g1 g2 e in
  AudioEngine.buffer1 e' = (fun x => Float32.mul x g1) <$> AudioEngine.buffer1 e /\
  AudioEngine.buffer2 e' = (fun x => Float32.mul x g2) <$> AudioEngine.buffer2 e /\
  length (AudioEngine.outputBuffer e') = length (AudioEngine.outputBuffer e) /\
  AudioEngine.sampleRate e' = AudioEngine.sampleRate e /\
  AudioEngine.channels e' = AudioEngine.channels e /\
  AudioEngine.arena e' = AudioEngine.arena e /\
  forall h1 h2 : Float32.float,
    AudioEngine.buffer1 (AudioEngine.process avx h1 h2 e')
      = (fun x => Float32.mul (Float32.mul x g1) h1) <$> AudioEngine.buffer1 e.
Proof.
  cbv zeta. unfold process, GainNode.process. cbn zeta.
  cbn [buffer1 buffer2 outputBuffer sampleRate channels arena].
  rewrite !gain_processImpl_data. cbn [GainNode.gain AudioBuffer.view AudioBuffer.data].
  repeat split.
  - apply mix_data_length.
  - intros h1 h2. rewrite gain_processImpl_data.
    cbn [GainNode.gain AudioBuffer.view AudioBuffer.data].
    rewrite <- list_fmap_compose. reflexivity.
Qed.

(** X28. A 16-bit file that [read] accepts can be written back: with the
    samples, the rate and the channel count a successful [read] of a
    16-bit file returned, [write] to a path that can be created stays
    within defined behaviour and returns [true]. *)
Theorem wav_read_write_defined (fs fs1 : FileSystem.t) (f g : string)
    (content : list byte) (out o : WavReader.outputs) :
  FileSystem.files fs !! f = Some content ->
  WavHeader.bitsPerSample (WavHeader.of_bytes (take WavHeader.sizeof content)) = 16 ->
  WavReader.read fs f out = Outcome.Ok (true, o) ->
  FileSystem.can_create fs1 g = true ->
  exists fs2,
    WavReader.write fs1 g (WavReader.samples o) (WavReader.sr o) (WavReader.ch o)
      = Outcome.Ok (true, fs2).
Proof.
  intros Hfile Hbits Hread Hcan.
  destruct (read_success_16bit fs f content out o Hfile Hbits Hread) as (count & got & Hs).
  destruct (mapM_ok (fun s => WavReader.to_int16 (Float32.mul s (Float32.of_Z 32767)))
              (WavReader.samples o)) as [vs Hvs].
  { rewrite Hs. apply Forall_fmap. eapply Forall_impl; [apply raw_values_range|].
    intros v Hv. cbn. destruct (sample_of_int16_spec v Hv) as (Hle & _ & Hvalid).
    destruct (sample_to_int16_defined _ Hvalid Hle) as (z & Hz & _). eauto. }
  unfold WavReader.write. rewrite Hcan. cbn [negb]. rewrite Hvs. cbn [bind]. eauto.
Qed.

(** Instance of X28: [a.wav] read and written to a new path. *)
Lemma wav_read_write_defined_witness :
  exists fs2,
    WavReader.write Fixtures.disk "copy.wav" [Fixtures.half; Fixtures.neg_half] 48000 1
      = Outcome.Ok (true, fs2).
Proof.
  exact (wav_read_write_defined Fixtures.disk Fixtures.disk "a.wav" "copy.wav"
           Fixtures.wav_a (WavReader.mk_outputs [] 44100 2)
           (WavReader.mk_outputs [Fixtures.half; Fixtures.neg_half] 48000 1)
           eq_refl eq_refl eq_refl eq_refl).
Defined.

End AudioEngineFacts.

(* ------------------------------------------------------------------ *)
(** ** main                                                            *)

Section MainFacts.
Import Outcome Main.
Local Open Scope Z_scope.

(** The gains are the single-precision numbers next to 0.8 and 0.6. *)
Example main_gains :
  gain1 = S754_finite false 13421773 (-24) /\ gain2 = S754_finite false 10066330 (-24).
Proof. split; reflexivity. Qed.

(** X29. The exit status of [main] and what it leaves on disk.  With
    fewer than three file arguments, and when [loadFiles] returns
    [false], it returns 1 and no file has changed.  When [loadFiles]
    returns [true] it returns 0 whatever [save] returns: in particular it
    returns 0 with no file changed when the output cannot be created.  In
    every case no file other than the output path changes. *)
Theorem main_exit_status (avx : bool) (fs : FileSystem.t) (argv : list string) :
  ((length argv < 4)%nat -> Main.main avx fs argv = Outcome.Ok (1, fs)) /\
  forall (prog in1 in2 out : string) (rest : list string),
    argv = prog :: in1 :: in2 :: out :: rest ->
    let load := AudioEngine.loadFiles fs in1 in2 (AudioEngine.create (1024 * 1024 * 10)) in
    (forall e, load = Outcome.Ok (false, e) -> Main.main avx fs argv = Outcome.Ok (1, fs)) /\
    (forall e, load = Outcome.Ok (true, e) -> FileSystem.can_create fs out = false ->
       Main.main avx fs argv = Outcome.Ok (0, fs)) /\
    (forall (status : Z) (fs' : FileSystem.t),
       Main.main avx fs argv = Outcome.Ok (status, fs') ->
       (status = 0 <-> exists e, load = Outcome.Ok (true, e)) /\
       (status = 0 \/ status = 1) /\
       forall other, other <> out ->
         FileSystem.files fs' !! other = FileSystem.files fs !! other).
Proof.
  split.
  - intros Hlen. destruct argv as [|a0 [|a1 [|a2 [|a3 rest]]]]; cbn in Hlen; try lia;
      reflexivity.
  - intros prog in1 in2 out rest -> load. unfold main. fold load.
    split; [|split].
    + intros e ->. reflexivity.
    + intros e -> Hno. cbn [bind negb]. unfold AudioEngine.save, WavReader.write.
      rewrite Hno. reflexivity.
    + intros status fs' Hmain.
      destruct load as [[loaded e]|]; cbn [bind] in Hmain; [|discriminate].
      destruct loaded; cbn [negb] in Hmain.
      * unfold AudioEngine.save, WavReader.write in Hmain.
        destruct (negb _); cbn [bind] in Hmain.
        -- injection Hmain as <- <-. split; [split; eauto|]. split; [auto|]. reflexivity.
        -- destruct (mapM _ _) as [vs|]; cbn [bind] in Hmain; [|discriminate].
           injection Hmain as <- <-. split; [split; eauto|]. split; [auto|].
           intros other Hother. unfold FileSystem.write_file; cbn [FileSystem.files].
           apply lookup_insert_ne. congruence.
      * injection Hmain as <- <-.
        split; [split; [discriminate|intros [e' He']; discriminate]|].
        split; [auto|]. reflexivity.
Qed.

(** Instance of X29: too few arguments, and a missing second input. *)
Lemma main_exit_status_witness :
  Main.main true Fixtures.disk ["mixer_app"%string; "a.wav"%string]
    = Outcome.Ok (1, Fixtures.disk) /\
  Main.main true Fixtures.disk
    ["mixer_app"%string; "a.wav"%string; "nowhere.wav"%string; "out.wav"%string]
    = Outcome.Ok (1, Fixtures.disk).
Proof.
  split.
  - apply (proj1 (main_exit_status true Fixtures.disk ["mixer_app"%string; "a.wav"%string])).
    cbn. lia.
  - refine (proj1 (proj2 (main_exit_status true Fixtures.disk _) "mixer_app"%string
                     "a.wav"%string "nowhere.wav"%string "out.wav"%string [] eq_refl) _ _).
    vm_compute. reflexivity.
Defined.

(** X30. [main] can leave defined behaviour on well-formed input: the
    gains 0.8 and 0.6 add up to more than 1, [write] does not clip, and
    there are two 16-bit files that [loadFiles] accepts on which the
    mixed sample does not fit the 16-bit conversion of [save]. *)
Theorem main_mix_can_overflow (avx : bool) :
  exists (fs : FileSystem.t) (in1 in2 out : string) (e : AudioEngine.t),
    AudioEngine.loadFiles fs in1 in2 (AudioEngine.create (1024 * 1024 * 10))
      = Outcome.Ok (true, e) /\
    FileSystem.can_create fs out = true /\
    Main.main avx fs ["mixer_app"%string; in1; in2; out]
      = Outcome.Fault Outcome.ConversionOutOfRange.
Proof.
  exists (FileSystem.mk
            (<["loud1.wav"%string := Fixtures.wav_loud]>
               (<["loud2.wav"%string := Fixtures.wav_loud]> ∅))
            (fun _ => true)),
    "loud1.wav"%string, "loud2.wav"%string, "out.wav"%string.
  eexists. split; [vm_compute; reflexivity|]. split; [reflexivity|].
  destruct avx; vm_compute; reflexivity.
Qed.

End MainFacts.

(* ------------------------------------------------------------------ *)
(** ** The repository's tests, run on the model                        *)

Section UnitTests.
Local Open Scope Z_scope.

(** RingBufferTest.BasicPushPop *)
Example test_ring_buffer_basic_push_pop :
  (RingBuffer.run 4 [RingBuffer.Push 10; RingBuffer.Push 20; RingBuffer.Pop; RingBuffer.Pop]
     0 (RingBuffer.init [0; 0; 0; 0])).1.1
  = [RingBuffer.PushReturned 10 true; RingBuffer.PushReturned 20 true;
     RingBuffer.PopReturned true 10; RingBuffer.PopReturned true 20].
Proof. reflexivity. Qed.

(** RingBufferTest.BufferFull: the fourth push into four slots fails. *)
Example test_ring_buffer_full :
  (RingBuffer.push_all 4 [1; 2; 3; 4] (RingBuffer.init [0; 0; 0; 0])).1
  = [true; true; true; false].
Proof. reflexivity. Qed.

(** RingBufferTest.BufferEmpty *)
Example test_ring_buffer_empty :
  (RingBuffer.pop 4 7 (RingBuffer.init [0; 0; 0; 0])).1 = (false, 7).
Proof. reflexivity. Qed.

(** RingBufferTest.FIFOOrder *)
Example test_ring_buffer_fifo_order :
  RingBuffer.dequeued
    (RingBuffer.run 10
       ((RingBuffer.Push <$> [0; 1; 2; 3; 4]) ++ replicate 5 RingBuffer.Pop)
       (-1) (RingBuffer.init (replicate 10 0))).1.1
  = [0; 1; 2; 3; 4].
Proof. reflexivity. Qed.

(** MemoryArenaTest.InitializationCorrect, SimpleAllocation *)
Example test_arena_simple_allocation :
  MemoryArena.used (MemoryArena.create 1024) = 0 /\
  MemoryArena.capacity (MemoryArena.create 1024) = 1024 /\
  MemoryArena.allocate 100 16 (MemoryArena.create 1024)
    = MemoryArena.Returned 0 (MemoryArena.mk 1024 100).
Proof. repeat split. Qed.

(** MemoryArenaTest.Alignment: after one byte, a 16-aligned request is
    served at offset 16. *)
Example test_arena_alignment :
  MemoryArena.allocate_all [(1, 16); (32, 16)] (MemoryArena.create 1024)
  = Some ([0; 16], MemoryArena.mk 1024 48).
Proof. reflexivity. Qed.

(** MemoryArenaTest.ResetWorks *)
Example test_arena_reset :
  MemoryArena.used (MemoryArena.reset (MemoryArena.mk 1024 500)) = 0 /\
  MemoryArena.allocate 500 16 (MemoryArena.reset (MemoryArena.mk 1024 500))
    = MemoryArena.Returned 0 (MemoryArena.mk 1024 500).
Proof. split; reflexivity. Qed.

(** MemoryArenaTest.OutOfMemoryException *)
Example test_arena_out_of_memory :
  MemoryArena.allocate 200 16 (MemoryArena.create 100)
  = MemoryArena.BadAlloc (MemoryArena.create 100).
Proof. reflexivity. Qed.

(** GainNodeTest.ProcessesCorrectly, with either body. *)
Example test_gain_processes_correctly (avx : bool) :
  AudioBuffer.data
    (GainNode.process avx (GainNode.mk Fixtures.half)
       (AudioBuffer.view [Float32.one; Fixtures.half; Float32.of_Z (-1); Float32.zero]))
  = [Fixtures.half; Fixtures.quarter; Fixtures.neg_half; Float32.zero].
Proof. destruct avx; vm_compute; reflexivity. Qed.

(** GainNodeTest.SIMDAlignment: 1024 samples through the vectorized body. *)
Example test_gain_simd_alignment :
  AudioBuffer.data
    (GainNode.process true (GainNode.mk (Float32.of_Z 2))
       (AudioBuffer.view (replicate 1024 Float32.one)))
  = replicate 1024 (Float32.of_Z 2).
Proof. vm_compute. reflexivity. Qed.

(** MixerNodeTest.SumsSignals *)
Example test_mixer_sums_signals (avx : bool) :
  AudioBuffer.data
    (MixerNode.mix avx
       (AudioBuffer.view [Fixtures.tenths 1; Fixtures.tenths 2; Fixtures.tenths 3])
       (AudioBuffer.view [Fixtures.tenths 1; Fixtures.tenths 2; Fixtures.tenths 3])
       (AudioBuffer.view (replicate 3 Float32.zero)))
  = [Fixtures.tenths 2; Fixtures.tenths 4; Fixtures.tenths 6].
Proof. destruct avx; vm_compute; reflexivity. Qed.

(** FadeNodeTest.LinearFadeOut *)
Example test_fade_linear_fade_out :
  AudioBuffer.data
    (FadeNode.process (FadeNode.create (Float32.of_Z 4) false)
       (AudioBuffer.view (replicate 5 Float32.one))).2
  = [Float32.one; Fixtures.three_quarters; Fixtures.half; Fixtures.quarter; Float32.zero].
Proof. vm_compute. reflexivity. Qed.

(** End to end: two 4-sample buffers of constant value 1.0, gains 0.5
    and 0.5, mixed, produce a 4-sample buffer of constant value 1.0. *)
Theorem end_to_end_half_gains (avx : bool) :
  AudioEngine.outputBuffer
    (AudioEngine.process avx Fixtures.half Fixtures.half
       (AudioEngine.mk (MemoryArena.create 1024) (replicate 4 Float32.one)
          (replicate 4 Float32.one) (replicate 4 Float32.zero) 44100 2))
  = replicate 4 Float32.one.
Proof. destruct avx; vm_compute; reflexivity. Qed.

End UnitTests.
